(** * Reshape folding patterns of the Tensor dialect

    A shallow embedding of
    [mlir/lib/Dialect/Tensor/Transforms/ReshapePatterns.cpp]: the five
    rewrite patterns on [tensor.extract_slice], [tensor.insert_slice],
    [tensor.parallel_insert_slice], [tensor.expand_shape] and
    [tensor.collapse_shape], over an explicit arena of operations that is
    threaded through a small rewriter monad.

    The first half of the file holds the definitions: types and
    operations, the rewriter, the helpers of the dialect the patterns
    call, the patterns themselves, and the vocabulary of the statements
    (the position-by-position description of the bubble-up rewrite, the
    sample programs, the meaning of the operations on static shapes).
    The second half holds the proofs: what each pattern computes, the
    contracts C2 to C10 of the patterns, and the preservation of the
    program's meaning, with the 0-d case of the bubble-up pattern where
    it fails (C1, C10). *)

From Stdlib Require Import ZArith List Bool Lia String.
From stdpp Require Import base decidable option list.
Import ListNotations.
Local Open Scope Z_scope.

(** ** Types *)

(** [ShapedType::kDynamic] is [std::numeric_limits<int64_t>::min()]. *)
Definition kDynamic : Z := -9223372036854775808.

Definition isDynamic (d : Z) : bool := bool_decide (d = kDynamic).

Inductive ElementType := F16 | F32 | F64 | I1 | I8 | I32 | I64 | IndexTy.

#[global] Instance ElementType_eq_dec : EqDecision ElementType.
Proof. solve_decision. Defined.

(** [RankedTensorType]: a shape (one [int64_t] per dimension, [kDynamic]
    for an unknown size) and an element type.  Types are uniqued in MLIR,
    so [==] on them is structural equality. *)
Record RankedTensorType := mkTensorType {
  getShape : list Z;
  getElementType : ElementType
}.

#[global] Instance RankedTensorType_eq_dec : EqDecision RankedTensorType.
Proof. solve_decision. Defined.

Definition getRank (t : RankedTensorType) : nat := length (getShape t).

(** [RankedTensorType::get(shape, elementType)]. *)
Definition RankedTensorType_get (shape : list Z) (e : ElementType)
  : RankedTensorType := mkTensorType shape e.

(** [type.clone(shape)]: same element type, new shape. *)
Definition clone (t : RankedTensorType) (shape : list Z) : RankedTensorType :=
  mkTensorType shape (getElementType t).

(** ** Operations *)

(** An SSA value is named by the arena slot of the operation (or block
    argument) that defines it. *)
Abbreviation Value := nat.

(** [OpFoldResult]: a static integer attribute or a dynamic SSA value. *)
Inductive OpFoldResult :=
| Attr (z : Z)
| Val (v : Value).

#[global] Instance OpFoldResult_eq_dec : EqDecision OpFoldResult.
Proof. solve_decision. Defined.

(** [ReassociationIndices] is [SmallVector<int64_t, 2>]. *)
Abbreviation ReassociationIndices := (list Z).

(** The two insert-like operation kinds the templated patterns are
    instantiated at. *)
Inductive InsertKind := InsertSliceOp | ParallelInsertSliceOp.

#[global] Instance InsertKind_eq_dec : EqDecision InsertKind.
Proof. solve_decision. Defined.

Inductive Operation :=
| BlockArgument (type : RankedTensorType)
| ExtractSliceOp (resultType : RankedTensorType) (source : Value)
    (offsets sizes strides : list OpFoldResult)
| InsertOp (kind : InsertKind) (resultType : RankedTensorType)
    (source dest : Value) (offsets sizes strides : list OpFoldResult)
| ExpandShapeOp (resultType : RankedTensorType) (src : Value)
    (reassociation : list ReassociationIndices)
    (outputShape : list OpFoldResult)
| CollapseShapeOp (resultType : RankedTensorType) (src : Value)
    (reassociation : list ReassociationIndices)
| DimOp (source : Value) (index : Z)
| OtherOp (resultType : RankedTensorType) (operands : list Value).

#[global] Instance Operation_eq_dec : EqDecision Operation.
Proof. solve_decision. Defined.

(** The static half of a mixed list ([getStaticOffsets], [getStaticSizes],
    [getStaticStrides], [getStaticOutputShape], and the static vector
    filled by [dispatchIndexOpFoldResults]): a dynamic entry reads
    [kDynamic]. *)
Definition staticOf (o : OpFoldResult) : Z :=
  match o with Attr z => z | Val _ => kDynamic end.

Definition getStatic (l : list OpFoldResult) : list Z := map staticOf l.

(** The dynamic half of a mixed list: the SSA operands. *)
Definition dynamicOf (l : list OpFoldResult) : list Value :=
  flat_map (fun o => match o with Attr _ => [] | Val v => [v] end) l.

Definition getOperands (op : Operation) : list Value :=
  match op with
  | BlockArgument _ => []
  | ExtractSliceOp _ s o sz st =>
      s :: dynamicOf o ++ dynamicOf sz ++ dynamicOf st
  | InsertOp _ _ s d o sz st =>
      s :: d :: dynamicOf o ++ dynamicOf sz ++ dynamicOf st
  | ExpandShapeOp _ s _ os => s :: dynamicOf os
  | CollapseShapeOp _ s _ => [s]
  | DimOp s _ => [s]
  | OtherOp _ l => l
  end.

Definition indexType : RankedTensorType := mkTensorType [] IndexTy.

Definition opResultType (op : Operation) : RankedTensorType :=
  match op with
  | BlockArgument t => t
  | ExtractSliceOp t _ _ _ _ => t
  | InsertOp _ t _ _ _ _ _ => t
  | ExpandShapeOp t _ _ _ => t
  | CollapseShapeOp t _ _ => t
  | DimOp _ _ => indexType
  | OtherOp t _ => t
  end.

(** Redirect every operand equal to [old] to [new]
    (one operation's share of [replaceAllUsesWith]). *)
Definition substValue (old new : Value) (v : Value) : Value :=
  if bool_decide (v = old) then new else v.

Definition substOFR (old new : Value) (o : OpFoldResult) : OpFoldResult :=
  match o with Attr z => Attr z | Val v => Val (substValue old new v) end.

Definition substOperands (old new : Value) (op : Operation) : Operation :=
  let sv := substValue old new in
  let sl := map (substOFR old new) in
  match op with
  | BlockArgument t => BlockArgument t
  | ExtractSliceOp t s o sz st => ExtractSliceOp t (sv s) (sl o) (sl sz) (sl st)
  | InsertOp k t s d o sz st =>
      InsertOp k t (sv s) (sv d) (sl o) (sl sz) (sl st)
  | ExpandShapeOp t s r os => ExpandShapeOp t (sv s) r (sl os)
  | CollapseShapeOp t s r => CollapseShapeOp t (sv s) r
  | DimOp s i => DimOp (sv s) i
  | OtherOp t l => OtherOp t (map sv l)
  end.

(** ** The operation arena and the pattern rewriter *)

(** The program: slot [v] holds the operation defining value [v], or
    [None] once that operation has been erased. *)
Abbreviation IR := (list (option Operation)).

Inductive LogicalResult :=
| success
| failure (reason : option string).

Definition failed (r : LogicalResult) : bool :=
  match r with success => false | failure _ => true end.

(** A rewriter action reads and edits the arena.  [None] stands for what
    is undefined behaviour or an assertion failure in the C++ (a dangling
    value, an out-of-range subscript, [zip_equal] on ranges of different
    length); it is distinct from the recoverable [failure]. *)
Definition Rewriter (A : Type) : Type := IR -> option (A * IR).

Definition ret {A} (a : A) : Rewriter A := fun ir => Some (a, ir).

Definition bind {A B} (m : Rewriter A) (k : A -> Rewriter B) : Rewriter B :=
  fun ir => match m ir with
            | Some (a, ir') => k a ir'
            | None => None
            end.

Definition liftOpt {A} (o : option A) : Rewriter A :=
  fun ir => match o with Some a => Some (a, ir) | None => None end.

Declare Scope rewriter_scope.
Delimit Scope rewriter_scope with rw.
Notation "'let*' x ':=' m 'in' k" := (bind m (fun x => k))
  (at level 10, x pattern, m at level 100, k at level 200) : rewriter_scope.
Notation "m ';;' k" := (bind m (fun _ => k))
  (at level 100, k at level 200, right associativity) : rewriter_scope.
Local Open Scope rewriter_scope.

(** The operation defining a value. *)
Definition lookupOp (ir : IR) (v : Value) : option Operation :=
  mjoin (ir !! v).

Definition getOp (v : Value) : Rewriter Operation :=
  fun ir => liftOpt (lookupOp ir v) ir.

(** [value.getType()]. *)
Definition getType (v : Value) : Rewriter RankedTensorType :=
  let* op := getOp v in ret (opResultType op).

(** Modelled from the spec: [rewriter.create<Op>(...)] (the rewriter is
    the driver's, outside this file) makes a new operation; it takes the
    next free slot. *)
Definition create (op : Operation) : Rewriter Value :=
  fun ir => Some (length ir, ir ++ [Some op]).

(** Modelled from the spec: [rewriter.replaceOp(op, value)] redirects
    every use of the operation's result to the new value and erases the
    operation. *)
Definition replaceOp (old new : Value) : Rewriter unit :=
  fun ir =>
    Some (tt, <[old := None]> (map (fmap (substOperands old new)) ir)).

(** [rewriter.replaceOpWithNewOp<Op>(old, ...)]: create, then replace. *)
Definition replaceOpWithNewOp (old : Value) (build : Rewriter Value)
  : Rewriter unit :=
  let* v := build in replaceOp old v.

(** Modelled from the spec: [rewriter.modifyOpInPlace(op, callback)]
    edits the operation where it is. *)
Definition modifyOpInPlace (v : Value) (f : Operation -> Operation)
  : Rewriter unit :=
  fun ir => match lookupOp ir v with
            | Some op => Some (tt, <[v := Some (f op)]> ir)
            | None => None
            end.

(** Modelled from the spec: [rewriter.notifyMatchFailure(op, msg)] is a
    failure with an advisory reason for the driver; the program is not
    touched. *)
Definition notifyMatchFailure (msg : string) : Rewriter LogicalResult :=
  ret (failure (Some msg)).

(** Modelled from the spec: the number of uses of a value ([hasOneUse]
    is the IR's, outside this file): every operand slot of every live
    operation that refers to it. *)
Definition countUses (ir : IR) (v : Value) : nat :=
  length (filter (fun u => u = v)
            (flat_map (fun o => match o with
                                | Some op => getOperands op
                                | None => []
                                end) ir)).

Definition hasOneUse (v : Value) : Rewriter bool :=
  fun ir => Some (bool_decide (countUses ir v = 1%nat), ir).

(** ** Helpers of the dialect used by the patterns *)

(** Modelled from the spec: [ExtractSliceOp::inferResultType] is declared
    in the dialect's operation definitions, outside this file.  The
    non-reducing slice type has one dimension per static size (dynamic
    where the size is dynamic) and the source's element type. *)
Definition inferResultType (sourceType : RankedTensorType)
    (staticOffsets staticSizes staticStrides : list Z) : RankedTensorType :=
  RankedTensorType_get staticSizes (getElementType sourceType).

Inductive SliceVerificationResult :=
| Success
| RankTooLarge
| SizeMismatch
| ElemTypeMismatch.

#[global] Instance SliceVerificationResult_eq_dec
  : EqDecision SliceVerificationResult.
Proof. solve_decision. Defined.

(** Modelled from the spec: the shape part of the rank-reduction
    compatibility test.  [reduced] is [original] with some dimensions
    removed, and every removed dimension has static size 1.  Dimensions
    are matched left to right. *)
Fixpoint dropsOnlyUnitDims (original reduced : list Z) : bool :=
  match original with
  | [] => bool_decide (reduced = [])
  | o :: original' =>
      match reduced with
      | r :: reduced' =>
          if bool_decide (o = r) then dropsOnlyUnitDims original' reduced'
          else bool_decide (o = 1) && dropsOnlyUnitDims original' reduced
      | [] => bool_decide (o = 1) && dropsOnlyUnitDims original' []
      end
  end.

(** Modelled from the spec: [isRankReducedType] is defined with the
    built-in types, outside this file.  Equal types are compatible; a
    candidate of higher rank is not; otherwise the candidate must drop
    only static unit dimensions and keep the element type. *)
Definition isRankReducedType (originalType candidateReducedType
  : RankedTensorType) : SliceVerificationResult :=
  if bool_decide (originalType = candidateReducedType) then Success
  else if (getRank originalType <? getRank candidateReducedType)%nat
  then RankTooLarge
  else if negb (dropsOnlyUnitDims (getShape originalType)
                  (getShape candidateReducedType))
  then SizeMismatch
  else if bool_decide (getElementType originalType
                       <> getElementType candidateReducedType)
  then ElemTypeMismatch
  else Success.

(** [vec[i]] for a signed subscript; out of range is undefined. *)
Definition subscript {A} (l : list A) (i : Z) : option A :=
  if i <? 0 then None else l !! Z.to_nat i.

(** Modelled from the spec: the size of a collapsed dimension is the
    product of the sizes of its group, or dynamic if a factor is. *)
Definition collapsedDim (dims : list Z) : Z :=
  if existsb isDynamic dims then kDynamic else fold_right Z.mul 1 dims.

(** Modelled from the spec: the shape a reassociation collapses a shape
    to, one dimension per group. *)
Definition collapseShape (shape : list Z)
    (reassociation : list ReassociationIndices) : option (list Z) :=
  mapM (fun g => collapsedDim <$> mapM (subscript shape) g) reassociation.

(** Modelled from the spec: the result type the [CollapseShapeOp] builder
    infers from the source type and the reassociation (the builder is
    part of the dialect's operation definitions, outside this file). *)
Definition inferCollapsedType (srcType : RankedTensorType)
    (reassociation : list ReassociationIndices) : option RankedTensorType :=
  shape ← collapseShape (getShape srcType) reassociation;
  Some (clone srcType shape).

(** Modelled from the spec: [tensor::getMixedSizes] is defined with the
    dialect's operations, outside this file.  It reads the sizes off the
    value's own shape: a static dimension gives its size as an
    attribute, a dynamic one a new [tensor.dim] on the value. *)
Fixpoint getMixedSizesFrom (value : Value) (shape : list Z) (i : Z)
  : Rewriter (list OpFoldResult) :=
  match shape with
  | [] => ret []
  | d :: shape' =>
      let* s := (if isDynamic d
                 then let* v := create (DimOp value i) in ret (Val v)
                 else ret (Attr d)) in
      let* rest := getMixedSizesFrom value shape' (i + 1) in
      ret (s :: rest)
  end.

Definition getMixedSizes (value : Value) : Rewriter (list OpFoldResult) :=
  let* t := getType value in getMixedSizesFrom value (getShape t) 0.

(** Modelled from the spec: the builders of the dialect's operations,
    outside this file.  [ExtractSliceOp::build] without a result type
    infers the non-reducing type; with one it takes it as given.  The
    insert builders give the result the destination's type.
    [CollapseShapeOp::build] infers the collapsed type. *)
Definition buildExtractSlice (source : Value)
    (offsets sizes strides : list OpFoldResult) : Rewriter Value :=
  let* t := getType source in
  create (ExtractSliceOp
            (inferResultType t (getStatic offsets) (getStatic sizes)
               (getStatic strides))
            source offsets sizes strides).

Definition buildExtractSliceTyped (resultType : RankedTensorType)
    (source : Value) (offsets sizes strides : list OpFoldResult)
  : Rewriter Value :=
  create (ExtractSliceOp resultType source offsets sizes strides).

Definition buildInsert (kind : InsertKind) (source dest : Value)
    (offsets sizes strides : list OpFoldResult) : Rewriter Value :=
  let* t := getType dest in
  create (InsertOp kind t source dest offsets sizes strides).

Definition buildExpandShape (resultType : RankedTensorType) (src : Value)
    (reassociation : list ReassociationIndices)
    (outputShape : list OpFoldResult) : Rewriter Value :=
  create (ExpandShapeOp resultType src reassociation outputShape).

Definition buildCollapseShape (src : Value)
    (reassociation : list ReassociationIndices) : Rewriter Value :=
  let* t := getType src in
  let* rt := liftOpt (inferCollapsedType t reassociation) in
  create (CollapseShapeOp rt src reassociation).

(** ** The patterns *)

(** Fold expand_shape(extract_slice) ops that cancel itself out. *)
Definition FoldExpandOfRankReducingExtract (expandShapeOp : Value)
  : Rewriter LogicalResult :=
  let* root := getOp expandShapeOp in
  match root with
  | ExpandShapeOp resultType src _ _ =>
      let* producer := getOp src in
      match producer with
      | ExtractSliceOp _ source offsets sizes strides =>
          let* srcType := getType source in
          let nonReducingExtractType :=
            inferResultType srcType (getStatic offsets) (getStatic sizes)
              (getStatic strides) in
          if bool_decide (nonReducingExtractType <> resultType)
          then ret (failure None)
          else
            replaceOpWithNewOp expandShapeOp
              (buildExtractSlice source offsets sizes strides);;
            ret success
      | _ => ret (failure None)
      end
  | _ => ret (failure None)
  end.

(** Fold collapse_shape which only removes static dimensions of size 1
    into extract_slice. *)
Definition FoldUnPaddingCollapseIntoExtract (collapseShapeOp : Value)
  : Rewriter LogicalResult :=
  let* root := getOp collapseShapeOp in
  match root with
  | CollapseShapeOp resultType src _ =>
      let* producer := getOp src in
      match producer with
      | ExtractSliceOp extractType source offsets sizes strides =>
          let* oneUse := hasOneUse src in
          if negb oneUse then ret (failure None)
          else
            let res := isRankReducedType extractType resultType in
            if bool_decide (res <> Success)
            then notifyMatchFailure "expected unpadding collapse"
            else
              let* unPaddedExtractSlice :=
                buildExtractSliceTyped resultType source offsets sizes
                  strides in
              replaceOp collapseShapeOp unPaddedExtractSlice;;
              ret success
      | _ => ret (failure None)
      end
  | _ => ret (failure None)
  end.

(** Fold insert_slice(collapse_shape) ops that cancel itself out;
    templated over the insert kind [OpTy]. *)
Definition FoldInsertOfRankReducingInsert (OpTy : InsertKind)
    (insertSliceOp : Value) : Rewriter LogicalResult :=
  let* root := getOp insertSliceOp in
  match root with
  | InsertOp kind _ source dest offsets sizes strides =>
      if bool_decide (kind <> OpTy) then ret (failure None)
      else
        let* producer := getOp source in
        match producer with
        | CollapseShapeOp _ collapseSrc _ =>
            let* srcType := getType collapseSrc in
            let* destType := getType dest in
            let nonReducingInsertType :=
              RankedTensorType_get (getStatic sizes)
                (getElementType destType) in
            if bool_decide (nonReducingInsertType <> srcType)
            then ret (failure None)
            else
              replaceOpWithNewOp insertSliceOp
                (buildInsert OpTy collapseSrc dest offsets sizes strides);;
              ret success
        | _ => ret (failure None)
        end
  | _ => ret (failure None)
  end.

(** The in-place edit of [FoldPaddingExpandIntoInsert]:
    [insertSliceOp.getSourceMutable().assign(v)]. *)
Definition assignSource (v : Value) (op : Operation) : Operation :=
  match op with
  | InsertOp k t _ d o sz st => InsertOp k t v d o sz st
  | _ => op
  end.

(** Fold expand_shape which only adds static dimensions of size 1 into
    insert_slice; templated over the insert kind [OpTy]. *)
Definition FoldPaddingExpandIntoInsert (OpTy : InsertKind)
    (insertSliceOp : Value) : Rewriter LogicalResult :=
  let* root := getOp insertSliceOp in
  match root with
  | InsertOp kind _ source _ _ _ _ =>
      if bool_decide (kind <> OpTy) then ret (failure None)
      else
        let* producer := getOp source in
        match producer with
        | ExpandShapeOp expandResultType expandSrc _ _ =>
            let* expandSrcType := getType expandSrc in
            let res := isRankReducedType expandResultType expandSrcType in
            if bool_decide (res <> Success)
            then notifyMatchFailure "expected rank increasing expansion"
            else
              modifyOpInPlace insertSliceOp (assignSource expandSrc);;
              ret success
        | _ => ret (failure None)
        end
  | _ => ret (failure None)
  end.

(** *** Bubbling an expand_shape up through a parallel collapse_shape *)

(** The first loop: [zip_equal] requires ranges of the same length; the
    reshapes are parallel if no position has more than one index in both
    reassociations. *)
Definition areParallel (expandReInds collapseReInds
  : list ReassociationIndices) : option bool :=
  if bool_decide (length expandReInds = length collapseReInds)
  then Some (forallb
               (fun '(expandReassociation, collapseReassociation) =>
                  negb (bool_decide (length collapseReassociation <> 1%nat)
                        && bool_decide (length expandReassociation <> 1%nat)))
               (zip expandReInds collapseReInds))
  else None.

(** The local variables the second loop updates.  The counters are
    [int64_t]; they count dimensions and stay far from wrapping. *)
Record BubbleState := mkBubbleState {
  newExpandReInds : list ReassociationIndices;
  newCollapseReInds : list ReassociationIndices;
  newExpandSizes : list OpFoldResult;
  index : Z;
  expandIndex : Z;
  collapseIndex : Z
}.

Definition initialBubbleState : BubbleState :=
  mkBubbleState [] [] [] 0 0 0.

(** Inner loop of the branch [collapseReassociation.size() != 1]: each
    source dimension of the group passes through the new expand as a
    singleton group and is appended to the new collapse group. *)
Fixpoint collapseGroupLoop (n : nat) (collapseSizes : list OpFoldResult)
    (newCollapseReassociation : ReassociationIndices) (st : BubbleState)
  : option (ReassociationIndices * BubbleState) :=
  match n with
  | O => Some (newCollapseReassociation, st)
  | S n' =>
      sz ← subscript collapseSizes (collapseIndex st);
      collapseGroupLoop n' collapseSizes
        (newCollapseReassociation ++ [index st])
        (mkBubbleState
           (newExpandReInds st ++ [[index st]])
           (newCollapseReInds st)
           (newExpandSizes st ++ [sz])
           (index st + 1)
           (expandIndex st)
           (collapseIndex st + 1))
  end.

(** Inner loop of the other branch: each result dimension of the expand
    group is appended to the new expand group and becomes a singleton
    group of the new collapse. *)
Fixpoint expandGroupLoop (n : nat) (expandSizes : list OpFoldResult)
    (newExpandReassociation : ReassociationIndices) (st : BubbleState)
  : option (ReassociationIndices * BubbleState) :=
  match n with
  | O => Some (newExpandReassociation, st)
  | S n' =>
      sz ← subscript expandSizes (expandIndex st);
      expandGroupLoop n' expandSizes
        (newExpandReassociation ++ [index st])
        (mkBubbleState
           (newExpandReInds st)
           (newCollapseReInds st ++ [[index st]])
           (newExpandSizes st ++ [sz])
           (index st + 1)
           (expandIndex st + 1)
           (collapseIndex st))
  end.

(** One iteration of the loop over [llvm::enumerate(collapseReInds)]. *)
Definition bubbleStep (expandReInds : list ReassociationIndices)
    (collapseSizes expandSizes : list OpFoldResult)
    (idx : nat) (collapseReassociation : ReassociationIndices)
    (st : BubbleState) : option BubbleState :=
  if bool_decide (length collapseReassociation <> 1%nat) then
    '(newCollapseReassociation, st1) ←
      collapseGroupLoop (length collapseReassociation) collapseSizes [] st;
    Some (mkBubbleState
            (newExpandReInds st1)
            (newCollapseReInds st1 ++ [newCollapseReassociation])
            (newExpandSizes st1)
            (index st1)
            (expandIndex st1 + 1)
            (collapseIndex st1))
  else
    expandReassociation ← expandReInds !! idx;
    '(newExpandReassociation, st1) ←
      expandGroupLoop (length expandReassociation) expandSizes [] st;
    Some (mkBubbleState
            (newExpandReInds st1 ++ [newExpandReassociation])
            (newCollapseReInds st1)
            (newExpandSizes st1)
            (index st1)
            (expandIndex st1)
            (collapseIndex st1 + 1)).

Fixpoint bubbleLoop (expandReInds : list ReassociationIndices)
    (collapseSizes expandSizes : list OpFoldResult)
    (idx : nat) (collapseReInds : list ReassociationIndices)
    (st : BubbleState) : option BubbleState :=
  match collapseReInds with
  | [] => Some st
  | collapseReassociation :: rest =>
      st1 ← bubbleStep expandReInds collapseSizes expandSizes idx
              collapseReassociation st;
      bubbleLoop expandReInds collapseSizes expandSizes (S idx) rest st1
  end.

(** Pattern to bubble up a tensor.expand_shape op through a producer
    tensor.collapse_shape op that has non intersecting reassociations. *)
Definition BubbleUpExpandThroughParallelCollapse (expandOp : Value)
  : Rewriter LogicalResult :=
  let* root := getOp expandOp in
  match root with
  | ExpandShapeOp resultType src expandReInds outputShape =>
      let* producer := getOp src in
      match producer with
      | CollapseShapeOp _ collapseSrc collapseReInds =>
          let* parallel := liftOpt (areParallel expandReInds collapseReInds) in
          if negb parallel then ret (failure None)
          else
            let* collapseSizes := getMixedSizes collapseSrc in
            let expandSizes := outputShape in
            let* st := liftOpt (bubbleLoop expandReInds collapseSizes
                                  expandSizes 0%nat collapseReInds
                                  initialBubbleState) in
            let staticSizes := getStatic (newExpandSizes st) in
            let expandResultType := clone resultType staticSizes in
            let* newExpand :=
              buildExpandShape expandResultType collapseSrc
                (newExpandReInds st) (newExpandSizes st) in
            replaceOpWithNewOp expandOp
              (buildCollapseShape newExpand (newCollapseReInds st));;
            ret success
      | _ => ret (failure None)
      end
  | _ => ret (failure None)
  end.

(** ** Registration *)

Inductive Pattern :=
| PFoldExpandOfRankReducingExtract
| PFoldUnPaddingCollapseIntoExtract
| PFoldInsertOfRankReducingInsert (OpTy : InsertKind)
| PFoldPaddingExpandIntoInsert (OpTy : InsertKind)
| PBubbleUpExpandThroughParallelCollapse.

#[global] Instance Pattern_eq_dec : EqDecision Pattern.
Proof. solve_decision. Defined.

Definition populateReassociativeReshapeFoldingPatterns
    (patterns : list Pattern) : list Pattern :=
  patterns ++
  [ PFoldExpandOfRankReducingExtract;
    PFoldUnPaddingCollapseIntoExtract;
    PFoldInsertOfRankReducingInsert InsertSliceOp;
    PFoldInsertOfRankReducingInsert ParallelInsertSliceOp;
    PFoldPaddingExpandIntoInsert InsertSliceOp;
    PFoldPaddingExpandIntoInsert ParallelInsertSliceOp ].

Definition populateBubbleUpExpandShapePatterns (patterns : list Pattern)
  : list Pattern :=
  patterns ++ [ PBubbleUpExpandThroughParallelCollapse ].

(** [matchAndRewrite] of a registered pattern on a root operation. *)
Definition matchAndRewrite (p : Pattern) (op : Value)
  : Rewriter LogicalResult :=
  match p with
  | PFoldExpandOfRankReducingExtract => FoldExpandOfRankReducingExtract op
  | PFoldUnPaddingCollapseIntoExtract => FoldUnPaddingCollapseIntoExtract op
  | PFoldInsertOfRankReducingInsert k => FoldInsertOfRankReducingInsert k op
  | PFoldPaddingExpandIntoInsert k => FoldPaddingExpandIntoInsert k op
  | PBubbleUpExpandThroughParallelCollapse =>
      BubbleUpExpandThroughParallelCollapse op
  end.

(** ** The result of the bubble-up loop, position by position *)

(** These definitions follow the specification's description of the
    rewrite, one block of groups and sizes per position;
    [bubbleLoop_inv] relates them to the loop of the source. *)

(** A position pairs a collapse group with the expand group at the same
    place.  It starts at the first intermediate dimension not yet
    assigned, at the first output size of its expand group and at the
    first source dimension of its collapse group. *)
Record Position := mkPosition {
  posIndex : Z;
  posExpandIndex : Z;
  posCollapseIndex : Z;
  posCollapseSize : nat;
  posExpandSize : nat
}.

(** Number of intermediate dimensions a position contributes. *)
Definition posWidth (c e : nat) : nat :=
  if bool_decide (c <> 1%nat) then c else e.

Fixpoint positions (index expandIndex collapseIndex : Z)
    (groups : list (ReassociationIndices * ReassociationIndices))
  : list Position :=
  match groups with
  | [] => []
  | (collapseGroup, expandGroup) :: rest =>
      let c := length collapseGroup in
      let e := length expandGroup in
      mkPosition index expandIndex collapseIndex c e ::
      positions (index + Z.of_nat (posWidth c e))
        (expandIndex + Z.of_nat e) (collapseIndex + Z.of_nat c) rest
  end.

Definition singletons (l : list Z) : list ReassociationIndices :=
  map (fun i => [i]) l.

(** The intermediate dimensions of a position. *)
Definition posDims (p : Position) : list Z :=
  seqZ (posIndex p) (Z.of_nat (posWidth (posCollapseSize p) (posExpandSize p))).

(** Groups of the new expand at a position: one group of all the
    position's intermediate dimensions where the collapse group is a
    singleton, singleton groups otherwise. *)
Definition expandBlock (p : Position) : list ReassociationIndices :=
  if bool_decide (posCollapseSize p <> 1%nat)
  then singletons (posDims p) else [posDims p].

(** Groups of the new collapse at a position: the other way round. *)
Definition collapseBlock (p : Position) : list ReassociationIndices :=
  if bool_decide (posCollapseSize p <> 1%nat)
  then [posDims p] else singletons (posDims p).

(** Sizes of the intermediate dimensions of a position: the source's
    sizes of the collapse group, or the expand's output sizes of the
    expand group. *)
Definition sizesBlock (collapseSizes expandSizes : list OpFoldResult)
    (p : Position) : list OpFoldResult :=
  if bool_decide (posCollapseSize p <> 1%nat)
  then take (posCollapseSize p)
         (drop (Z.to_nat (posCollapseIndex p)) collapseSizes)
  else take (posExpandSize p)
         (drop (Z.to_nat (posExpandIndex p)) expandSizes).

(** The blocks are all there: no subscript ran off its vector. *)
Definition blockInRange (collapseSizes expandSizes : list OpFoldResult)
    (p : Position) : Prop :=
  length (sizesBlock collapseSizes expandSizes p)
  = posWidth (posCollapseSize p) (posExpandSize p).

(** The state the loop reaches from [st] over the given positions. *)
Definition bubbleResult (collapseSizes expandSizes : list OpFoldResult)
    (st : BubbleState) (ps : list Position) (st' : BubbleState) : Prop :=
  newExpandReInds st' = newExpandReInds st ++ concat (map expandBlock ps) /\
  newCollapseReInds st'
  = newCollapseReInds st ++ concat (map collapseBlock ps) /\
  newExpandSizes st'
  = newExpandSizes st
    ++ concat (map (sizesBlock collapseSizes expandSizes) ps) /\
  Forall (blockInRange collapseSizes expandSizes) ps.

(** The pairing the first loop accepts. *)
Definition parallelAt (g : ReassociationIndices * ReassociationIndices)
  : Prop :=
  length (fst g) = 1%nat \/ length (snd g) = 1%nat.

(** Number of intermediate dimensions of all positions. *)
Definition totalWidth
    (groups : list (ReassociationIndices * ReassociationIndices)) : nat :=
  sum_list (map (fun g => posWidth (length (fst g)) (length (snd g))) groups).

(** A well-formed reassociation of [n] dimensions: the groups, read in
    order, list [0, n) (covering, order-preserving); no group is empty;
    every group is a run of consecutive indices (contiguous). *)
Definition isReassociationOf (n : nat) (groups : list ReassociationIndices)
  : Prop :=
  concat groups = seqZ 0 (Z.of_nat n) /\
  Forall (fun g => g <> []) groups /\
  Forall (fun g => exists first, g = seqZ first (Z.of_nat (length g))) groups.

(** ** Sample programs *)

Definition f32 (shape : list Z) : RankedTensorType := mkTensorType shape F32.

Definition attrs (l : list Z) : list OpFoldResult := map Attr l.

(** A [tensor<8x1x8xf32>] sliced to [tensor<4x4xf32>] (rank-reducing)
    and expanded back to [tensor<4x1x4xf32>]; slot 3 uses the result. *)
Definition expandOfExtract : IR :=
  [ Some (BlockArgument (f32 [8; 1; 8]));
    Some (ExtractSliceOp (f32 [4; 4]) 0%nat
            (attrs [2; 0; 0]) (attrs [4; 1; 4]) (attrs [1; 1; 1]));
    Some (ExpandShapeOp (f32 [4; 1; 4]) 1%nat [[0; 1]; [2]]
            (attrs [4; 1; 4]));
    Some (OtherOp (f32 []) [2%nat]) ].

(** A slice [tensor<4x1x4xf32>] used once, by a collapse to
    [tensor<4x4xf32>]. *)
Definition collapseOfExtract : IR :=
  [ Some (BlockArgument (f32 [8; 8; 8]));
    Some (ExtractSliceOp (f32 [4; 1; 4]) 0%nat
            (attrs [2; 0; 0]) (attrs [4; 1; 4]) (attrs [1; 1; 1]));
    Some (CollapseShapeOp (f32 [4; 4]) 1%nat [[0; 1]; [2]]);
    Some (OtherOp (f32 []) [2%nat]) ].

(** The same with a second user of the slice. *)
Definition collapseOfSharedExtract : IR :=
  collapseOfExtract ++ [ Some (OtherOp (f32 []) [1%nat]) ].

(** A slice used once by a collapse that merges two non-unit
    dimensions. *)
Definition mergingCollapseOfExtract : IR :=
  [ Some (BlockArgument (f32 [8; 8; 8]));
    Some (ExtractSliceOp (f32 [4; 2; 4]) 0%nat
            (attrs [2; 0; 0]) (attrs [4; 2; 4]) (attrs [1; 1; 1]));
    Some (CollapseShapeOp (f32 [8; 4]) 1%nat [[0; 1]; [2]]);
    Some (OtherOp (f32 []) [2%nat]) ].

(** A [tensor<4x1x4xf32>] collapsed to [tensor<4x4xf32>] and inserted
    into a [tensor<8x1x8xf32>] with sizes [4, 1, 4]. *)
Definition insertOfCollapse (kind : InsertKind) : IR :=
  [ Some (BlockArgument (f32 [4; 1; 4]));
    Some (BlockArgument (f32 [8; 1; 8]));
    Some (CollapseShapeOp (f32 [4; 4]) 0%nat [[0; 1]; [2]]);
    Some (InsertOp kind (f32 [8; 1; 8]) 2%nat 1%nat
            (attrs [2; 0; 0]) (attrs [4; 1; 4]) (attrs [1; 1; 1]));
    Some (OtherOp (f32 []) [3%nat]) ].

(** A [tensor<4x4xf32>] expanded to [tensor<4x1x4xf32>] and inserted
    into a [tensor<8x1x8xf32>] with sizes [4, 1, 4]. *)
Definition insertOfExpand (kind : InsertKind) : IR :=
  [ Some (BlockArgument (f32 [4; 4]));
    Some (BlockArgument (f32 [8; 1; 8]));
    Some (ExpandShapeOp (f32 [4; 1; 4]) 0%nat [[0; 1]; [2]]
            (attrs [4; 1; 4]));
    Some (InsertOp kind (f32 [8; 1; 8]) 2%nat 1%nat
            (attrs [2; 0; 0]) (attrs [4; 1; 4]) (attrs [1; 1; 1]));
    Some (OtherOp (f32 []) [3%nat]) ].

(** A [tensor<4xf32>] expanded twice, to [tensor<4x1xf32>] and then to
    [tensor<1x4x1xf32>], and inserted into a [tensor<1x8x1xf32>]. *)
Definition insertOfExpandOfExpand : IR :=
  [ Some (BlockArgument (f32 [4]));
    Some (BlockArgument (f32 [1; 8; 1]));
    Some (ExpandShapeOp (f32 [4; 1]) 0%nat [[0; 1]] (attrs [4; 1]));
    Some (ExpandShapeOp (f32 [1; 4; 1]) 2%nat [[0; 1]; [2]]
            (attrs [1; 4; 1]));
    Some (InsertOp InsertSliceOp (f32 [1; 8; 1]) 3%nat 1%nat
            (attrs [0; 2; 0]) (attrs [1; 4; 1]) (attrs [1; 1; 1]));
    Some (OtherOp (f32 []) [4%nat]) ].

(** A [tensor<4x1x4xf32>] collapsed to its own type, then to
    [tensor<4x4xf32>], and inserted into a [tensor<8x1x8xf32>] with
    sizes [4, 1, 4]. *)
Definition insertOfCollapseOfCollapse : IR :=
  [ Some (BlockArgument (f32 [4; 1; 4]));
    Some (BlockArgument (f32 [8; 1; 8]));
    Some (CollapseShapeOp (f32 [4; 1; 4]) 0%nat [[0]; [1]; [2]]);
    Some (CollapseShapeOp (f32 [4; 4]) 2%nat [[0; 1]; [2]]);
    Some (InsertOp InsertSliceOp (f32 [8; 1; 8]) 3%nat 1%nat
            (attrs [2; 0; 0]) (attrs [4; 1; 4]) (attrs [1; 1; 1]));
    Some (OtherOp (f32 []) [4%nat]) ].

(** A [tensor<2x3x?xf32>] collapsed to [tensor<6x?xf32>] and expanded to
    [tensor<6x?x5xf32>]; slot 2 is the dynamic output size. *)
Definition expandOfParallelCollapse : IR :=
  [ Some (BlockArgument (f32 [2; 3; kDynamic]));
    Some (CollapseShapeOp (f32 [6; kDynamic]) 0%nat [[0; 1]; [2]]);
    Some (OtherOp indexType []);
    Some (ExpandShapeOp (f32 [6; kDynamic; 5]) 1%nat [[0]; [1; 2]]
            [Attr 6; Val 2%nat; Attr 5]);
    Some (OtherOp (f32 []) [3%nat]) ].

(** A [tensor<?x2x3x10xf32>] collapsed to [tensor<?x6x10xf32>] and
    expanded to [tensor<?x6x2x5xf32>]: at position 0 both groups are
    singletons and the size is dynamic; slot 2 is the expand's dynamic
    output size. *)
Definition expandOfSingletonPair : IR :=
  [ Some (BlockArgument (f32 [kDynamic; 2; 3; 10]));
    Some (CollapseShapeOp (f32 [kDynamic; 6; 10]) 0%nat [[0]; [1; 2]; [3]]);
    Some (OtherOp indexType []);
    Some (ExpandShapeOp (f32 [kDynamic; 6; 2; 5]) 1%nat [[0]; [1]; [2; 3]]
            [Val 2%nat; Attr 6; Attr 2; Attr 5]);
    Some (OtherOp (f32 []) [3%nat]) ].

(** A [tensor<2x3xf32>] collapsed to [tensor<6xf32>] and expanded to
    [tensor<3x2xf32>]: both groups at position 0 have two indices. *)
Definition expandOfCrossingCollapse : IR :=
  [ Some (BlockArgument (f32 [2; 3]));
    Some (CollapseShapeOp (f32 [6]) 0%nat [[0; 1]]);
    Some (ExpandShapeOp (f32 [3; 2]) 1%nat [[0; 1]] (attrs [3; 2]));
    Some (OtherOp (f32 []) [2%nat]) ].

(** A [tensor<1x1xf32>] collapsed to the 0-d [tensor<f32>] and expanded
    to [tensor<1x1x1xf32>]; both reassociations are empty. *)
Definition expandOfRankZeroCollapse : IR :=
  [ Some (BlockArgument (f32 [1; 1]));
    Some (CollapseShapeOp (f32 []) 0%nat []);
    Some (ExpandShapeOp (f32 [1; 1; 1]) 1%nat [] (attrs [1; 1; 1]));
    Some (OtherOp (f32 []) [2%nat]) ].

(** ** Vocabulary of the statements *)

Definition isExtractSlice (op : Operation) : bool :=
  match op with ExtractSliceOp _ _ _ _ _ => true | _ => false end.

Definition isCollapseShape (op : Operation) : bool :=
  match op with CollapseShapeOp _ _ _ => true | _ => false end.

Definition isExpandShape (op : Operation) : bool :=
  match op with ExpandShapeOp _ _ _ _ => true | _ => false end.

(** The program a successful run of a rewriter action leaves behind. *)
Definition programAfter {A} (m : Rewriter A) (ir : IR) : IR :=
  match m ir with Some (_, ir') => ir' | None => ir end.

Definition bubbledParallelCollapse : IR :=
  Eval vm_compute in
    programAfter (BubbleUpExpandThroughParallelCollapse 3%nat)
      expandOfParallelCollapse.

(** The operation a successful application leaves at the root's place:
    the in-place pattern keeps the root, the others create their
    replacement in the next free slot. *)
Definition producedOp (p : Pattern) (root : Value) (ir : IR) : Value :=
  match p with
  | PFoldPaddingExpandIntoInsert _ => root
  | _ => length ir
  end.

(** The source of the reshape that feeds the insert [insert]. *)
Definition reshapeSource (ir : IR) (insert : Value) : option Value :=
  match lookupOp ir insert with
  | Some (InsertOp _ _ source _ _ _ _) =>
      match lookupOp ir source with
      | Some (CollapseShapeOp _ x _) => Some x
      | Some (ExpandShapeOp _ x _ _) => Some x
      | _ => None
      end
  | _ => None
  end.

(** The reshape folded by an insert pattern is itself fed by a reshape
    the pattern folds as well: for [FoldInsertOfRankReducingInsert], a
    collapse whose source has the type of its result; for
    [FoldPaddingExpandIntoInsert], an expand that only adds dimensions of
    static size 1 (its result type rank-reduces to the type of its
    source). *)
Definition chainFoldable (p : Pattern) (root : Value) (ir : IR) : Prop :=
  match p with
  | PFoldInsertOfRankReducingInsert _ =>
      exists x t y reassociation yop,
        reshapeSource ir root = Some x /\
        lookupOp ir x = Some (CollapseShapeOp t y reassociation) /\
        lookupOp ir y = Some yop /\
        opResultType yop = t
  | PFoldPaddingExpandIntoInsert _ =>
      exists x t y reassociation outputShape yop,
        reshapeSource ir root = Some x /\
        lookupOp ir x = Some (ExpandShapeOp t y reassociation outputShape) /\
        lookupOp ir y = Some yop /\
        isRankReducedType t (opResultType yop) = Success
  | _ => False
  end.

Definition bubbledRankZeroCollapse : IR :=
  Eval vm_compute in
    programAfter (BubbleUpExpandThroughParallelCollapse 2%nat)
      expandOfRankZeroCollapse.

(** ** What the operations compute (static shapes) *)

(** A tensor value: its dimensions and its elements in row-major order.
    The element at a multi-index is the element at its linearised
    position. *)
Record Tensor := mkTensor {
  dims : list Z;
  elems : list Z
}.

#[global] Instance Tensor_eq_dec : EqDecision Tensor.
Proof. solve_decision. Defined.

Definition numElements (shape : list Z) : Z := fold_right Z.mul 1 shape.

(** Row-major position of a multi-index; [None] out of bounds. *)
Fixpoint linearize (shape idx : list Z) : option Z :=
  match shape, idx with
  | [], [] => Some 0
  | d :: shape', i :: idx' =>
      if (0 <=? i) && (i <? d)
      then (fun r => i * numElements shape' + r) <$> linearize shape' idx'
      else None
  | _, _ => None
  end.

(** All multi-indices of a shape, in row-major order. *)
Fixpoint indexSpace (sizes : list Z) : list (list Z) :=
  match sizes with
  | [] => [[]]
  | s :: sizes' =>
      flat_map (fun i => map (cons i) (indexSpace sizes')) (seqZ 0 s)
  end.

Definition elementAt (t : Tensor) (idx : list Z) : option Z :=
  p ← linearize (dims t) idx; elems t !! Z.to_nat p.

(** The index [offsets + idx * strides] a slice index addresses. *)
Definition sliceIndex (offsets strides idx : list Z) : list Z :=
  zip_with (fun o si => o + fst si * snd si) offsets (zip strides idx).

Definition staticList (l : list OpFoldResult) : option (list Z) :=
  mapM (fun o => match o with Attr z => Some z | Val _ => None end) l.

(** Modelled from the spec: [ExtractSlice] extracts the sub-region
    described by offsets, sizes and strides; the operation itself is
    defined in the dialect, outside this file.  The elements are listed
    in the row-major order of [sizes], so a rank-reduced result (unit
    dimensions dropped) has the same elements. *)
Definition extractSlice (x : Tensor) (offsets sizes strides : list Z)
  : option (list Z) :=
  mapM (fun idx => elementAt x (sliceIndex offsets strides idx))
    (indexSpace sizes).

(** Modelled from the spec: [InsertSlice] writes the source into the
    sub-region of the destination described by offsets, sizes and
    strides; the operation itself is defined in the dialect, outside
    this file. *)
Definition insertSlice (source : list Z) (dest : Tensor)
    (offsets sizes strides : list Z) : option (list Z) :=
  positions ← mapM (fun idx => linearize (dims dest)
                                 (sliceIndex offsets strides idx))
                (indexSpace sizes);
  if bool_decide (length positions = length source)
  then Some (fold_left (fun data pv => <[Z.to_nat (fst pv) := snd pv]> data)
               (zip positions source) (elems dest))
  else None.

(** Modelled from the spec: a reshape between an expanded and a collapsed
    shape is well formed when the groups, in order, list the expanded
    dimensions and every collapsed dimension is the product of its
    group (the verifier is part of the dialect, outside this file).  A
    0-d collapsed shape has no groups; the expanded dimensions are then
    all 1. *)
Definition reshapeValid (expanded collapsed : list Z)
    (reassociation : list ReassociationIndices) : bool :=
  (bool_decide (concat reassociation
                = seqZ 0 (Z.of_nat (length expanded))) ||
   (bool_decide (reassociation = []) &&
    forallb (fun d => bool_decide (d = 1)) expanded)) &&
  bool_decide (collapseShape expanded reassociation = Some collapsed).

Definition staticShape (t : RankedTensorType) : option (list Z) :=
  if existsb isDynamic (getShape t) then None else Some (getShape t).

(** Modelled from the spec: the value an SSA value denotes, given the
    values of the block arguments (the operations' meaning is the
    dialect's, outside this file).  Reshapes keep the elements in
    row-major order.  Only static shapes and static slice parameters are
    given a value, and only operations that satisfy their invariant: an
    extract whose result type is the addressed region or a rank
    reduction of it, an insert whose source type is, a reshape that is
    well formed.  [fuel] bounds the depth of the def-use chain
    followed. *)
Fixpoint eval (fuel : nat) (ir : IR) (args : Value -> option Tensor)
    (v : Value) : option Tensor :=
  match fuel with
  | O => None
  | S fuel' =>
      op ← lookupOp ir v;
      match op with
      | BlockArgument t =>
          x ← args v;
          if bool_decide (Some (dims x) = staticShape t)
             && bool_decide (Z.of_nat (length (elems x))
                             = numElements (dims x))
          then Some x else None
      | ExtractSliceOp t source offsets sizes strides =>
          x ← eval fuel' ir args source;
          shape ← staticShape t;
          offs ← staticList offsets;
          szs ← staticList sizes;
          strs ← staticList strides;
          if bool_decide (isRankReducedType
                            (mkTensorType szs (getElementType t)) t
                          = Success)
          then mkTensor shape <$> extractSlice x offs szs strs
          else None
      | InsertOp _ t source dest offsets sizes strides =>
          x ← eval fuel' ir args source;
          d ← eval fuel' ir args dest;
          sourceOp ← lookupOp ir source;
          offs ← staticList offsets;
          szs ← staticList sizes;
          strs ← staticList strides;
          shape ← staticShape t;
          if bool_decide (dims d = shape)
             && bool_decide (isRankReducedType
                               (RankedTensorType_get szs (getElementType t))
                               (opResultType sourceOp)
                             = Success)
          then mkTensor shape <$> insertSlice (elems x) d offs szs strs
          else None
      | ExpandShapeOp t src reassociation _ =>
          x ← eval fuel' ir args src;
          shape ← staticShape t;
          if reshapeValid shape (dims x) reassociation
          then Some (mkTensor shape (elems x)) else None
      | CollapseShapeOp t src reassociation =>
          x ← eval fuel' ir args src;
          shape ← staticShape t;
          if reshapeValid (dims x) shape reassociation
          then Some (mkTensor shape (elems x)) else None
      | DimOp _ _ => None
      | OtherOp _ _ => None
      end
  end.

(** The single-element [tensor<1x1xf32>] given to slot 0. *)
Definition oneElement (e : Z) (v : Value) : option Tensor :=
  if bool_decide (v = 0%nat) then Some (mkTensor [1; 1] [e]) else None.

(** Operations are listed after the operations that define their
    operands (SSA dominance within a block). *)
Definition definedBeforeUse (ir : IR) : Prop :=
  forall v op, lookupOp ir v = Some op ->
               Forall (fun u => (u < v)%nat) (getOperands op).

(** [UnitDropped original reduced]: [reduced] is [original] with some
    dimensions of static size 1 removed. *)
Inductive UnitDropped : list Z -> list Z -> Prop :=
| UnitDropped_nil : UnitDropped [] []
| UnitDropped_keep d original reduced :
    UnitDropped original reduced ->
    UnitDropped (d :: original) (d :: reduced)
| UnitDropped_drop original reduced :
    UnitDropped original reduced ->
    UnitDropped (1 :: original) reduced.

(** The static sizes of the intermediate dimensions of a position, read
    off the source shape [xs] or the expand's result shape [rs]. *)
Definition shapeBlock (xs rs : list Z) (p : Position) : list Z :=
  if bool_decide (posCollapseSize p <> 1%nat)
  then take (posCollapseSize p) (drop (Z.to_nat (posCollapseIndex p)) xs)
  else take (posExpandSize p) (drop (Z.to_nat (posExpandIndex p)) rs).

Definition isStatic (d : Z) : Prop := d <> kDynamic.

(** ** Sample programs with static parallel reshapes *)

(** A [tensor<2x3x4xf32>] collapsed to [tensor<6x4xf32>] and expanded to
    [tensor<6x2x2xf32>]. *)
Definition expandOfStaticParallelCollapse : IR :=
  [ Some (BlockArgument (f32 [2; 3; 4]));
    Some (CollapseShapeOp (f32 [6; 4]) 0%nat [[0; 1]; [2]]);
    Some (ExpandShapeOp (f32 [6; 2; 2]) 1%nat [[0]; [1; 2]]
            (attrs [6; 2; 2]));
    Some (OtherOp (f32 []) [2%nat]) ].

(** The elements [0, 1, ..., n - 1] in a tensor of the given shape,
    given to slot 0. *)
Definition iota (shape : list Z) (v : Value) : option Tensor :=
  if bool_decide (v = 0%nat)
  then Some (mkTensor shape (seqZ 0 (numElements shape)))
  else None.

(** The elements [0, 1, ..., n - 1] in a tensor of the [v]-th shape,
    given to slot [v]. *)
Definition iotas (shapes : list (list Z)) (v : Value) : option Tensor :=
  shape ← shapes !! v;
  Some (mkTensor shape (seqZ 0 (numElements shape))).

(** ** Well-formedness of the operation graph *)

(** A value is live when its slot holds an operation. *)
Definition live (ir : IR) (v : Value) : Prop := is_Some (lookupOp ir v).

(** No operation uses an erased or undefined value. *)
Definition closedIR (ir : IR) : Prop :=
  forall v op, lookupOp ir v = Some op -> Forall (live ir) (getOperands op).

(** ** The invariants of the slice operations *)

(** Modelled from the spec: the invariant of a slice operation, checked
    by the operation's verifier (part of the dialect, outside this
    file).  An extract's result type is the non-reducing slice type or
    that type with dimensions of static size 1 removed; an insert has
    its destination's type, and its source's type is the type of the
    addressed region, possibly with dimensions of static size 1
    removed. *)
Definition sliceInvariant (ir : IR) (op : Operation) : Prop :=
  match op with
  | ExtractSliceOp t source offsets sizes strides =>
      exists sourceOp,
        lookupOp ir source = Some sourceOp /\
        isRankReducedType
          (inferResultType (opResultType sourceOp) (getStatic offsets)
             (getStatic sizes) (getStatic strides)) t = Success
  | InsertOp _ t source dest offsets sizes strides =>
      exists sourceOp destOp,
        lookupOp ir source = Some sourceOp /\
        lookupOp ir dest = Some destOp /\
        t = opResultType destOp /\
        isRankReducedType
          (RankedTensorType_get (getStatic sizes)
             (getElementType (opResultType destOp)))
          (opResultType sourceOp) = Success
  | _ => True
  end.

(** Every slice operation of the program satisfies its invariant. *)
Definition slicesVerified (ir : IR) : Prop :=
  forall v op, lookupOp ir v = Some op -> sliceInvariant ir op.

(** The operand a pattern looks through: the source of a reshape, the
    source of an insert. *)
Definition matchedSource (op : Operation) : option Value :=
  match op with
  | ExpandShapeOp _ src _ _ => Some src
  | CollapseShapeOp _ src _ => Some src
  | InsertOp _ _ source _ _ _ _ => Some source
  | _ => None
  end.

(** ** The invariants of the reshape operations *)

(** Modelled from the spec: the invariant of a reshape, checked by the
    operation's verifier (part of the dialect, outside this file).  The
    reassociation is well formed between the expanded and the collapsed
    type, the element type is kept, and an expand's static output shape
    is the shape of its result type. *)
Definition reshapeInvariant (ir : IR) (op : Operation) : Prop :=
  match op with
  | ExpandShapeOp t src reassociation outputShape =>
      exists srcOp,
        lookupOp ir src = Some srcOp /\
        reshapeValid (getShape t) (getShape (opResultType srcOp))
          reassociation = true /\
        getStatic outputShape = getShape t /\
        getElementType t = getElementType (opResultType srcOp)
  | CollapseShapeOp t src reassociation =>
      exists srcOp,
        lookupOp ir src = Some srcOp /\
        reshapeValid (getShape (opResultType srcOp)) (getShape t)
          reassociation = true /\
        getElementType t = getElementType (opResultType srcOp)
  | _ => True
  end.

Definition opInvariant (ir : IR) (op : Operation) : Prop :=
  sliceInvariant ir op /\ reshapeInvariant ir op.

(** Every slice and every reshape of the program satisfies its
    invariant. *)
Definition verifiedIR (ir : IR) : Prop :=
  forall v op, lookupOp ir v = Some op -> opInvariant ir op.

(** ** Reasoning about rewriter actions *)

Lemma bind_Some {A B} (m : Rewriter A) (k : A -> Rewriter B) ir b ir2 :
  bind m k ir = Some (b, ir2) <->
  exists a ir1, m ir = Some (a, ir1) /\ k a ir1 = Some (b, ir2).
Proof.
  unfold bind. split.
  - destruct (m ir) as [[a ir1]|]; [eauto | discriminate].
  - intros (a & ir1 & -> & H). exact H.
Qed.

Lemma getOp_Some v ir op ir' :
  getOp v ir = Some (op, ir') <-> lookupOp ir v = Some op /\ ir' = ir.
Proof.
  unfold getOp, liftOpt. destruct (lookupOp ir v); split.
  - intros H. simplify_eq. auto.
  - intros [H ->]. simplify_eq. reflexivity.
  - discriminate.
  - intros [H _]. discriminate.
Qed.

Lemma getType_Some v ir t ir' :
  getType v ir = Some (t, ir') <->
  exists op, lookupOp ir v = Some op /\ t = opResultType op /\ ir' = ir.
Proof.
  unfold getType, ret. rewrite bind_Some. split.
  - intros (op & ir1 & H1 & H2). apply getOp_Some in H1 as [H1 ->].
    simplify_eq. eauto.
  - intros (op & H1 & -> & ->). exists op, ir. rewrite getOp_Some. auto.
Qed.

Lemma liftOpt_Some {A} (o : option A) ir a ir' :
  liftOpt o ir = Some (a, ir') <-> o = Some a /\ ir' = ir.
Proof.
  unfold liftOpt. destruct o; split.
  - intros H. simplify_eq. auto.
  - intros [H ->]. simplify_eq. reflexivity.
  - discriminate.
  - intros [H _]. discriminate.
Qed.

Lemma getOp_run v ir op :
  lookupOp ir v = Some op -> getOp v ir = Some (op, ir).
Proof. intros H. apply getOp_Some. auto. Qed.

Lemma getType_run v ir op :
  lookupOp ir v = Some op -> getType v ir = Some (opResultType op, ir).
Proof. intros H. apply getType_Some. eauto. Qed.

Ltac rw_inv :=
  repeat match goal with
    | H : bind _ _ _ = Some _ |- _ =>
        apply bind_Some in H as (? & ? & ? & H)
    | H : getOp _ _ = Some _ |- _ => apply getOp_Some in H as [H ->]
    | H : getType _ _ = Some _ |- _ =>
        apply getType_Some in H as (? & H & -> & ->)
    | H : liftOpt _ _ = Some _ |- _ => apply liftOpt_Some in H as [H ->]
    | H : ret _ _ = Some _ |- _ => unfold ret in H; simplify_eq
    | H : hasOneUse _ _ = Some _ |- _ => unfold hasOneUse in H; simplify_eq
    | H : notifyMatchFailure _ _ = Some _ |- _ =>
        unfold notifyMatchFailure, ret in H; simplify_eq
    | H : match ?x with _ => _ end _ = Some _ |- _ => destruct x eqn:?
    | H : (if ?x then _ else _) _ = Some _ |- _ => destruct x eqn:?
    end.

(** ** The loops of the bubble-up pattern *)

Lemma subscript_of_nat {A} (l : list A) (i : Z) :
  0 <= i -> subscript l i = l !! Z.to_nat i.
Proof. intros H. unfold subscript. destruct (Z.ltb_spec i 0); [lia | done]. Qed.

Lemma collapseGroupLoop_inv n collapseSizes acc st acc' st' :
  0 <= collapseIndex st ->
  collapseGroupLoop n collapseSizes acc st = Some (acc', st') ->
  acc' = acc ++ seqZ (index st) (Z.of_nat n) /\
  length (take n (drop (Z.to_nat (collapseIndex st)) collapseSizes)) = n /\
  st' = mkBubbleState
          (newExpandReInds st ++ singletons (seqZ (index st) (Z.of_nat n)))
          (newCollapseReInds st)
          (newExpandSizes st
             ++ take n (drop (Z.to_nat (collapseIndex st)) collapseSizes))
          (index st + Z.of_nat n)
          (expandIndex st)
          (collapseIndex st + Z.of_nat n).
Proof.
  revert acc st. induction n as [|n IH]; intros acc st Hci H.
  - simpl in H. simplify_eq. rewrite seqZ_nil by lia. simpl.
    rewrite !app_nil_r, !Z.add_0_r. destruct st'; auto.
  - simpl in H. rewrite subscript_of_nat in H by done.
    destruct (collapseSizes !! Z.to_nat (collapseIndex st)) as [sz|] eqn:Hsz;
      [|discriminate].
    simpl in H. apply IH in H as (-> & Hlen & ->); simpl in *; [|lia].
    replace (Z.to_nat (collapseIndex st + 1))
      with (S (Z.to_nat (collapseIndex st))) in * by lia.
    rewrite (drop_S _ _ _ Hsz). simpl.
    rewrite (seqZ_cons _ (Z.of_nat (S n))) by lia.
    replace (Z.pred (Z.of_nat (S n))) with (Z.of_nat n) by lia.
    replace (Z.succ (index st)) with (index st + 1) by lia.
    simpl. rewrite <- !app_assoc. simpl.
    split; [done|]. split; [lia|]. f_equal; lia.
Qed.

Lemma expandGroupLoop_inv n expandSizes acc st acc' st' :
  0 <= expandIndex st ->
  expandGroupLoop n expandSizes acc st = Some (acc', st') ->
  acc' = acc ++ seqZ (index st) (Z.of_nat n) /\
  length (take n (drop (Z.to_nat (expandIndex st)) expandSizes)) = n /\
  st' = mkBubbleState
          (newExpandReInds st)
          (newCollapseReInds st ++ singletons (seqZ (index st) (Z.of_nat n)))
          (newExpandSizes st
             ++ take n (drop (Z.to_nat (expandIndex st)) expandSizes))
          (index st + Z.of_nat n)
          (expandIndex st + Z.of_nat n)
          (collapseIndex st).
Proof.
  revert acc st. induction n as [|n IH]; intros acc st Hci H.
  - simpl in H. simplify_eq. rewrite seqZ_nil by lia. simpl.
    rewrite !app_nil_r, !Z.add_0_r. destruct st'; auto.
  - simpl in H. rewrite subscript_of_nat in H by done.
    destruct (expandSizes !! Z.to_nat (expandIndex st)) as [sz|] eqn:Hsz;
      [|discriminate].
    simpl in H. apply IH in H as (-> & Hlen & ->); simpl in *; [|lia].
    replace (Z.to_nat (expandIndex st + 1))
      with (S (Z.to_nat (expandIndex st))) in * by lia.
    rewrite (drop_S _ _ _ Hsz). simpl.
    rewrite (seqZ_cons _ (Z.of_nat (S n))) by lia.
    replace (Z.pred (Z.of_nat (S n))) with (Z.of_nat n) by lia.
    replace (Z.succ (index st)) with (index st + 1) by lia.
    simpl. rewrite <- !app_assoc. simpl.
    split; [done|]. split; [lia|]. f_equal; lia.
Qed.

(** ** Rank reduction drops unit dimensions only *)

Lemma dropsOnlyUnitDims_cons d original reduced :
  dropsOnlyUnitDims (d :: original) reduced
  = match reduced with
    | r :: reduced' =>
        if bool_decide (d = r) then dropsOnlyUnitDims original reduced'
        else bool_decide (d = 1) && dropsOnlyUnitDims original reduced
    | [] => bool_decide (d = 1) && dropsOnlyUnitDims original []
    end.
Proof. by destruct reduced. Qed.

Lemma dropsOnlyUnitDims_unmatch original :
  forall reduced,
  dropsOnlyUnitDims original (1 :: reduced) = true ->
  dropsOnlyUnitDims original reduced = true.
Proof.
  induction original as [|d original IH]; intros reduced H;
    [discriminate|].
  rewrite dropsOnlyUnitDims_cons in H.
  destruct (decide (d = 1)) as [->|Hd].
  - rewrite bool_decide_eq_true_2 in H by done.
    rewrite dropsOnlyUnitDims_cons.
    destruct reduced as [|r reduced].
    + rewrite H. by rewrite bool_decide_eq_true_2.
    + destruct (decide (1 = r)) as [<-|Hr].
      * rewrite bool_decide_eq_true_2 by done. by apply IH.
      * rewrite (bool_decide_eq_false_2 _ Hr), H.
        by rewrite bool_decide_eq_true_2.
  - rewrite !(bool_decide_eq_false_2 _ Hd) in H. done.
Qed.

Lemma dropsOnlyUnitDims_spec original reduced :
  dropsOnlyUnitDims original reduced = true <-> UnitDropped original reduced.
Proof.
  split.
  - revert reduced.
    induction original as [|d original IH]; intros reduced H.
    + destruct reduced; [constructor | discriminate].
    + rewrite dropsOnlyUnitDims_cons in H.
      destruct reduced as [|r reduced].
      * apply andb_prop in H as [Hd H]. apply bool_decide_eq_true in Hd.
        subst d. constructor. by apply IH.
      * destruct (decide (d = r)) as [->|Hr].
        -- rewrite bool_decide_eq_true_2 in H by done.
           constructor. by apply IH.
        -- rewrite (bool_decide_eq_false_2 _ Hr) in H.
           apply andb_prop in H as [Hd H]. apply bool_decide_eq_true in Hd.
           subst d. constructor. by apply IH.
  - induction 1 as [|d original reduced _ IH|original reduced _ IH].
    + done.
    + rewrite dropsOnlyUnitDims_cons. by rewrite bool_decide_eq_true_2.
    + rewrite dropsOnlyUnitDims_cons.
      destruct reduced as [|r reduced].
      * rewrite IH. by rewrite bool_decide_eq_true_2.
      * destruct (decide (1 = r)) as [<-|Hr].
        -- rewrite bool_decide_eq_true_2 by done.
           by apply dropsOnlyUnitDims_unmatch.
        -- rewrite (bool_decide_eq_false_2 _ Hr), IH.
           by rewrite bool_decide_eq_true_2.
Qed.

Lemma UnitDropped_refl shape : UnitDropped shape shape.
Proof. induction shape; by constructor. Qed.

Lemma UnitDropped_length original reduced :
  UnitDropped original reduced -> (length reduced <= length original)%nat.
Proof. induction 1; simpl; lia. Qed.

Lemma UnitDropped_trans a b c :
  UnitDropped a b -> UnitDropped b c -> UnitDropped a c.
Proof.
  intros Hab. revert c.
  induction Hab as [|d a b _ IH|a b _ IH]; intros c Hbc.
  - done.
  - inversion Hbc; subst; constructor; auto.
  - constructor. auto.
Qed.

Lemma isRankReducedType_Success original candidate :
  isRankReducedType original candidate = Success <->
  UnitDropped (getShape original) (getShape candidate) /\
  getElementType original = getElementType candidate.
Proof.
  unfold isRankReducedType. case_bool_decide as Heq.
  { subst. split; [|done]. intros _. split; [apply UnitDropped_refl|done]. }
  destruct (Nat.ltb_spec (getRank original) (getRank candidate)) as [Hr|Hr].
  { split; [done|]. intros [Hd _]. apply UnitDropped_length in Hd.
    unfold getRank in Hr. lia. }
  destruct (dropsOnlyUnitDims (getShape original) (getShape candidate))
    eqn:Hd; simpl.
  - apply dropsOnlyUnitDims_spec in Hd.
    destruct (decide (getElementType original = getElementType candidate))
      as [He|He].
    + rewrite bool_decide_eq_false_2 by (intros Hne; by apply Hne).
      by split.
    + rewrite bool_decide_eq_true_2 by done.
      split; [done | intros [_ ?]; done].
  - split; [done|]. intros [Hu _]. apply dropsOnlyUnitDims_spec in Hu.
    congruence.
Qed.

Lemma isRankReducedType_trans a b c :
  isRankReducedType a b = Success -> isRankReducedType b c = Success ->
  isRankReducedType a c = Success.
Proof.
  rewrite !isRankReducedType_Success. intros [Hab Eab] [Hbc Ebc].
  split; [by eapply UnitDropped_trans | congruence].
Qed.


Lemma collapseGroupLoop_run n collapseSizes acc st :
  0 <= collapseIndex st ->
  length (take n (drop (Z.to_nat (collapseIndex st)) collapseSizes)) = n ->
  is_Some (collapseGroupLoop n collapseSizes acc st).
Proof.
  revert acc st. induction n as [|n IH]; intros acc st Hci Hlen; [by eexists|].
  simpl. rewrite subscript_of_nat by done.
  destruct (collapseSizes !! Z.to_nat (collapseIndex st)) as [sz|] eqn:Hsz.
  - simpl. apply IH; simpl; [lia|].
    rewrite (drop_S _ _ _ Hsz) in Hlen. simpl in Hlen.
    replace (Z.to_nat (collapseIndex st + 1))
      with (S (Z.to_nat (collapseIndex st))) by lia. lia.
  - apply lookup_ge_None in Hsz. rewrite drop_ge in Hlen by done.
    rewrite take_nil in Hlen. discriminate.
Qed.

Lemma expandGroupLoop_run n expandSizes acc st :
  0 <= expandIndex st ->
  length (take n (drop (Z.to_nat (expandIndex st)) expandSizes)) = n ->
  is_Some (expandGroupLoop n expandSizes acc st).
Proof.
  revert acc st. induction n as [|n IH]; intros acc st Hci Hlen; [by eexists|].
  simpl. rewrite subscript_of_nat by done.
  destruct (expandSizes !! Z.to_nat (expandIndex st)) as [sz|] eqn:Hsz.
  - simpl. apply IH; simpl; [lia|].
    rewrite (drop_S _ _ _ Hsz) in Hlen. simpl in Hlen.
    replace (Z.to_nat (expandIndex st + 1))
      with (S (Z.to_nat (expandIndex st))) by lia. lia.
  - apply lookup_ge_None in Hsz. rewrite drop_ge in Hlen by done.
    rewrite take_nil in Hlen. discriminate.
Qed.

Lemma bubbleLoop_inv expandReInds collapseSizes expandSizes collapseReInds :
  forall idx st st',
  0 <= expandIndex st -> 0 <= collapseIndex st ->
  length expandReInds = (idx + length collapseReInds)%nat ->
  Forall parallelAt (zip collapseReInds (drop idx expandReInds)) ->
  bubbleLoop expandReInds collapseSizes expandSizes idx collapseReInds st
  = Some st' ->
  bubbleResult collapseSizes expandSizes st
    (positions (index st) (expandIndex st) (collapseIndex st)
       (zip collapseReInds (drop idx expandReInds)))
    st'.
Proof.
  induction collapseReInds as [|c cs IH]; intros idx st st' Hei Hci Hlen Hpar H.
  - simpl in H. simplify_eq. unfold bubbleResult. simpl.
    rewrite !app_nil_r. auto.
  - simpl in H, Hlen.
    destruct (expandReInds !! idx) as [e|] eqn:He;
      [|apply lookup_ge_None in He; lia].
    rewrite (drop_S _ _ _ He) in Hpar |- *. simpl.
    apply Forall_cons in Hpar as [Hce Hpar]. unfold parallelAt in Hce.
    simpl in Hce.
    destruct (bubbleStep expandReInds collapseSizes expandSizes idx c st)
      as [st1|] eqn:Hstep; [|discriminate].
    simpl in H. unfold bubbleStep in Hstep.
    destruct (bool_decide (length c <> 1%nat)) eqn:Hc.
    + apply bool_decide_eq_true in Hc as Hc'.
      assert (length e = 1%nat) as He1 by lia.
      destruct (collapseGroupLoop (length c) collapseSizes [] st)
        as [[g st2]|] eqn:Hloop; [|discriminate].
      simpl in Hstep. simplify_eq.
      apply collapseGroupLoop_inv in Hloop as (-> & Hin & ->); [|done].
      apply IH in H; simpl; [|lia|lia|lia|done].
      simpl in H. unfold posWidth. rewrite Hc, He1.
      destruct H as (HE & HC & HS & HR).
      unfold bubbleResult. simpl.
      unfold expandBlock, collapseBlock, sizesBlock, blockInRange, posDims,
        posWidth; simpl. rewrite Hc. simpl.
      rewrite HE, HC, HS. simpl. rewrite <- ?app_assoc. simpl.
      repeat split; try done. constructor; [|done].
      unfold sizesBlock, posWidth. simpl. rewrite Hc. done.
    + apply bool_decide_eq_false in Hc as Hc'.
      assert (length c = 1%nat) as Hc1 by lia.
      rewrite He in Hstep. simpl in Hstep.
      destruct (expandGroupLoop (length e) expandSizes [] st)
        as [[g st2]|] eqn:Hloop; [|discriminate].
      simpl in Hstep. simplify_eq.
      apply expandGroupLoop_inv in Hloop as (-> & Hin & ->); [|done].
      apply IH in H; simpl; [|lia|lia|lia|done].
      simpl in H. unfold posWidth. rewrite Hc, Hc1.
      destruct H as (HE & HC & HS & HR).
      unfold bubbleResult. simpl.
      unfold expandBlock, collapseBlock, sizesBlock, blockInRange, posDims,
        posWidth; simpl.
      rewrite HE, HC, HS. simpl. rewrite <- ?app_assoc. simpl.
      repeat split; try done. constructor; [|done].
      unfold sizesBlock, posWidth. simpl. done.
Qed.

Lemma bubbleLoop_run expandReInds collapseSizes expandSizes collapseReInds :
  forall idx st,
  0 <= expandIndex st -> 0 <= collapseIndex st ->
  length expandReInds = (idx + length collapseReInds)%nat ->
  Forall parallelAt (zip collapseReInds (drop idx expandReInds)) ->
  Forall (blockInRange collapseSizes expandSizes)
    (positions (index st) (expandIndex st) (collapseIndex st)
       (zip collapseReInds (drop idx expandReInds))) ->
  is_Some (bubbleLoop expandReInds collapseSizes expandSizes idx
             collapseReInds st).
Proof.
  induction collapseReInds as [|c cs IH]; intros idx st Hei Hci Hlen Hpar HR;
    [by eexists|].
  simpl in Hlen |- *.
  destruct (expandReInds !! idx) as [e|] eqn:He;
    [|apply lookup_ge_None in He; lia].
  rewrite (drop_S _ _ _ He) in HR, Hpar. simpl in HR.
  apply Forall_cons in HR as [Hin HR].
  apply Forall_cons in Hpar as [Hce Hpar]. unfold parallelAt in Hce.
  simpl in Hce.
  unfold blockInRange, sizesBlock, posWidth in Hin. simpl in Hin.
  unfold bubbleStep. unfold posWidth in HR.
  destruct (bool_decide (length c <> 1%nat)) eqn:Hc.
  - apply bool_decide_eq_true in Hc as Hc'.
    assert (length e = 1%nat) as He1 by lia. rewrite He1 in HR.
    destruct (collapseGroupLoop_run (length c) collapseSizes [] st Hci Hin)
      as [[g st2] Hloop].
    rewrite Hloop. simpl.
    apply collapseGroupLoop_inv in Hloop as (-> & _ & ->); [|done].
    apply IH; simpl; [lia|lia|lia|done|done].
  - apply bool_decide_eq_false in Hc as Hc'.
    assert (length c = 1%nat) as Hc1 by lia. rewrite Hc1 in HR.
    destruct (expandGroupLoop_run (length e) expandSizes [] st Hei Hin)
      as [[g st2] Hloop].
    rewrite He. simpl. rewrite Hloop. simpl.
    apply expandGroupLoop_inv in Hloop as (-> & _ & ->); [|done].
    apply IH; simpl; [lia|lia|lia|done|done].
Qed.

(** ** The new reassociations are ordered partitions *)

Lemma concat_singletons (l : list Z) : concat (singletons l) = l.
Proof. induction l as [|x l IH]; simpl; [done | by rewrite IH]. Qed.

Lemma singletons_nonempty (l : list Z) :
  Forall (fun g => g <> []) (singletons l).
Proof. induction l; simpl; constructor; done. Qed.

Lemma concat_expandBlock p : concat (expandBlock p) = posDims p.
Proof.
  unfold expandBlock. case_bool_decide; simpl.
  - apply concat_singletons.
  - apply app_nil_r.
Qed.

Lemma concat_collapseBlock p : concat (collapseBlock p) = posDims p.
Proof.
  unfold collapseBlock. case_bool_decide; simpl.
  - apply app_nil_r.
  - apply concat_singletons.
Qed.

Lemma positions_dims groups :
  forall s ei ci,
  concat (map posDims (positions s ei ci groups))
  = seqZ s (Z.of_nat (totalWidth groups)).
Proof.
  induction groups as [|[c e] gs IH]; intros s ei ci; simpl.
  - by rewrite seqZ_nil.
  - rewrite IH. unfold totalWidth. simpl. fold (totalWidth gs).
    rewrite Nat2Z.inj_add, seqZ_app by lia. done.
Qed.

Lemma concat_concat_map {A B} (f : A -> list (list B)) (g : A -> list B)
    (l : list A) :
  (forall a, concat (f a) = g a) ->
  concat (concat (map f l)) = concat (map g l).
Proof.
  intros Hfg. induction l as [|a l IH]; simpl; [done|].
  by rewrite concat_app, Hfg, IH.
Qed.

Lemma positions_expand_cover groups s ei ci :
  concat (concat (map expandBlock (positions s ei ci groups)))
  = seqZ s (Z.of_nat (totalWidth groups)).
Proof.
  rewrite (concat_concat_map _ posDims) by apply concat_expandBlock.
  apply positions_dims.
Qed.

Lemma positions_collapse_cover groups s ei ci :
  concat (concat (map collapseBlock (positions s ei ci groups)))
  = seqZ s (Z.of_nat (totalWidth groups)).
Proof.
  rewrite (concat_concat_map _ posDims) by apply concat_collapseBlock.
  apply positions_dims.
Qed.

Lemma seqZ_nonempty s (n : nat) : n <> O -> seqZ s (Z.of_nat n) <> [].
Proof.
  intros Hn Hnil. apply (f_equal length) in Hnil.
  rewrite length_seqZ in Hnil. simpl in Hnil. lia.
Qed.

Lemma positions_nonempty groups :
  Forall (fun g => fst g <> [] /\ snd g <> []) groups ->
  forall s ei ci,
  Forall (fun g => g <> [])
    (concat (map expandBlock (positions s ei ci groups))) /\
  Forall (fun g => g <> [])
    (concat (map collapseBlock (positions s ei ci groups))).
Proof.
  induction 1 as [|[c e] gs [Hc He] _ IH]; intros s ei ci; simpl;
    [split; constructor|].
  simpl in Hc, He.
  destruct (IH (s + Z.of_nat (posWidth (length c) (length e)))
              (ei + Z.of_nat (length e)) (ci + Z.of_nat (length c)))
    as [IHe IHc].
  assert (length c <> O) by (destruct c; simpl; [done | lia]).
  assert (length e <> O) by (destruct e; simpl; [done | lia]).
  unfold expandBlock, collapseBlock, posDims, posWidth. simpl.
  split; apply Forall_app; split; try done;
    case_bool_decide; auto using singletons_nonempty;
    constructor; auto using seqZ_nonempty.
Qed.

Lemma concat_seqZ_contiguous (groups : list (list Z)) :
  forall first (n : nat),
  concat groups = seqZ first (Z.of_nat n) ->
  Forall (fun g => exists a, g = seqZ a (Z.of_nat (length g))) groups.
Proof.
  induction groups as [|g gs IH]; intros first n H; [constructor|].
  simpl in H.
  assert (length g + length (concat gs) = n)%nat as Hlen.
  { apply (f_equal length) in H.
    rewrite length_app, length_seqZ in H. lia. }
  replace (Z.of_nat n)
    with (Z.of_nat (length g) + Z.of_nat (length (concat gs))) in H by lia.
  rewrite seqZ_app in H by lia.
  apply app_inj_1 in H as [Hg Hgs]; [|by rewrite length_seqZ; lia].
  constructor; [by eexists|]. by eapply IH.
Qed.

Lemma positions_sizes_length collapseSizes expandSizes ps :
  Forall (blockInRange collapseSizes expandSizes) ps ->
  length (concat (map (sizesBlock collapseSizes expandSizes) ps))
  = sum_list (map (fun p => posWidth (posCollapseSize p) (posExpandSize p))
                ps).
Proof.
  induction 1 as [|p ps Hp _ IH]; simpl; [done|].
  rewrite length_app, IH. unfold blockInRange in Hp. lia.
Qed.

Lemma positions_widths groups :
  forall s ei ci,
  sum_list (map (fun p => posWidth (posCollapseSize p) (posExpandSize p))
              (positions s ei ci groups))
  = totalWidth groups.
Proof.
  induction groups as [|[c e] gs IH]; intros s ei ci; simpl; [done|].
  rewrite IH. done.
Qed.

Lemma positions_reassociations collapseSizes expandSizes groups :
  Forall (fun g => fst g <> [] /\ snd g <> []) groups ->
  let ps := positions 0 0 0 groups in
  Forall (blockInRange collapseSizes expandSizes) ps ->
  let n := length (concat (map (sizesBlock collapseSizes expandSizes) ps)) in
  isReassociationOf n (concat (map expandBlock ps)) /\
  isReassociationOf n (concat (map collapseBlock ps)).
Proof.
  intros Hne ps Hin n.
  assert (n = totalWidth groups) as ->.
  { unfold n. rewrite positions_sizes_length by done.
    apply positions_widths. }
  destruct (positions_nonempty groups Hne 0 0 0) as [He Hc].
  unfold isReassociationOf. fold ps in He, Hc.
  pose proof (positions_expand_cover groups 0 0 0) as HE.
  pose proof (positions_collapse_cover groups 0 0 0) as HC.
  fold ps in HE, HC.
  repeat split; try done; eapply concat_seqZ_contiguous; eauto.
Qed.

(** ** What each pattern computes on its pattern of operations *)

Lemma lookupOp_app_new (ir : IR) (op : Operation) :
  lookupOp (ir ++ [Some op]) (length ir) = Some op.
Proof.
  unfold lookupOp. rewrite lookup_app_r by lia.
  by rewrite Nat.sub_diag.
Qed.

Lemma lookupOp_app_old (ir extra : IR) (v : Value) (op : Operation) :
  lookupOp ir v = Some op -> lookupOp (ir ++ extra) v = Some op.
Proof.
  unfold lookupOp. intros H.
  destruct (ir !! v) as [o|] eqn:Hv; [|discriminate].
  by rewrite (lookup_app_l_Some _ _ _ _ Hv).
Qed.

Lemma FoldExpandOfRankReducingExtract_eq ir expandShapeOp resultType src
    reassociation outputShape extractType source offsets sizes strides
    sourceOp :
  lookupOp ir expandShapeOp
  = Some (ExpandShapeOp resultType src reassociation outputShape) ->
  lookupOp ir src
  = Some (ExtractSliceOp extractType source offsets sizes strides) ->
  lookupOp ir source = Some sourceOp ->
  let nonReducingExtractType :=
    inferResultType (opResultType sourceOp) (getStatic offsets)
      (getStatic sizes) (getStatic strides) in
  FoldExpandOfRankReducingExtract expandShapeOp ir
  = if bool_decide (nonReducingExtractType = resultType)
    then
      match replaceOp expandShapeOp (length ir)
              (ir ++ [Some (ExtractSliceOp nonReducingExtractType source
                              offsets sizes strides)]) with
      | Some (_, ir') => Some (success, ir')
      | None => None
      end
    else Some (failure None, ir).
Proof.
  intros Hroot Hsrc Hsource T.
  unfold FoldExpandOfRankReducingExtract, bind.
  rewrite (getOp_run _ _ _ Hroot), (getOp_run _ _ _ Hsrc),
    (getType_run _ _ _ Hsource).
  fold T. destruct (decide (T = resultType)) as [Heq|Hne].
  - rewrite (bool_decide_eq_false_2 (T <> resultType)) by auto.
    rewrite (bool_decide_eq_true_2 _ Heq).
    unfold replaceOpWithNewOp, buildExtractSlice, bind.
    rewrite (getType_run _ _ _ Hsource). fold T. done.
  - rewrite (bool_decide_eq_true_2 _ Hne).
    by rewrite (bool_decide_eq_false_2 _ Hne).
Qed.

Lemma FoldUnPaddingCollapseIntoExtract_eq ir collapseShapeOp resultType src
    reassociation extractType source offsets sizes strides :
  lookupOp ir collapseShapeOp
  = Some (CollapseShapeOp resultType src reassociation) ->
  lookupOp ir src
  = Some (ExtractSliceOp extractType source offsets sizes strides) ->
  FoldUnPaddingCollapseIntoExtract collapseShapeOp ir
  = if bool_decide (countUses ir src = 1%nat)
    then
      if bool_decide (isRankReducedType extractType resultType = Success)
      then
        match replaceOp collapseShapeOp (length ir)
                (ir ++ [Some (ExtractSliceOp resultType source offsets sizes
                                strides)]) with
        | Some (_, ir') => Some (success, ir')
        | None => None
        end
      else Some (failure (Some "expected unpadding collapse"%string), ir)
    else Some (failure None, ir).
Proof.
  intros Hroot Hsrc.
  unfold FoldUnPaddingCollapseIntoExtract, bind.
  rewrite (getOp_run _ _ _ Hroot), (getOp_run _ _ _ Hsrc).
  unfold hasOneUse.
  destruct (bool_decide (countUses ir src = 1%nat)); simpl; [|done].
  destruct (decide (isRankReducedType extractType resultType = Success))
    as [Heq|Hne].
  - rewrite (bool_decide_eq_false_2
               (isRankReducedType extractType resultType <> Success))
      by auto.
    by rewrite (bool_decide_eq_true_2 _ Heq).
  - rewrite (bool_decide_eq_true_2 _ Hne).
    by rewrite (bool_decide_eq_false_2 _ Hne).
Qed.

Lemma FoldInsertOfRankReducingInsert_eq OpTy ir insertSliceOp resultType
    source dest offsets sizes strides collapseType collapseSrc reassociation
    collapseSrcOp destOp :
  lookupOp ir insertSliceOp
  = Some (InsertOp OpTy resultType source dest offsets sizes strides) ->
  lookupOp ir source
  = Some (CollapseShapeOp collapseType collapseSrc reassociation) ->
  lookupOp ir collapseSrc = Some collapseSrcOp ->
  lookupOp ir dest = Some destOp ->
  let nonReducingInsertType :=
    RankedTensorType_get (getStatic sizes)
      (getElementType (opResultType destOp)) in
  FoldInsertOfRankReducingInsert OpTy insertSliceOp ir
  = if bool_decide (nonReducingInsertType = opResultType collapseSrcOp)
    then
      match replaceOp insertSliceOp (length ir)
              (ir ++ [Some (InsertOp OpTy (opResultType destOp) collapseSrc
                              dest offsets sizes strides)]) with
      | Some (_, ir') => Some (success, ir')
      | None => None
      end
    else Some (failure None, ir).
Proof.
  intros Hroot Hsrc Hcsrc Hdest T.
  unfold FoldInsertOfRankReducingInsert, bind.
  rewrite (getOp_run _ _ _ Hroot).
  rewrite (bool_decide_eq_false_2 (OpTy <> OpTy)) by auto.
  rewrite (getOp_run _ _ _ Hsrc), (getType_run _ _ _ Hcsrc),
    (getType_run _ _ _ Hdest).
  fold T. destruct (decide (T = opResultType collapseSrcOp)) as [Heq|Hne].
  - rewrite (bool_decide_eq_false_2 (T <> opResultType collapseSrcOp))
      by auto.
    rewrite (bool_decide_eq_true_2 _ Heq).
    unfold replaceOpWithNewOp, buildInsert, bind.
    by rewrite (getType_run _ _ _ Hdest).
  - rewrite (bool_decide_eq_true_2 _ Hne).
    by rewrite (bool_decide_eq_false_2 _ Hne).
Qed.

Lemma FoldPaddingExpandIntoInsert_eq OpTy ir insertSliceOp resultType
    source dest offsets sizes strides expandType expandSrc reassociation
    outputShape expandSrcOp :
  lookupOp ir insertSliceOp
  = Some (InsertOp OpTy resultType source dest offsets sizes strides) ->
  lookupOp ir source
  = Some (ExpandShapeOp expandType expandSrc reassociation outputShape) ->
  lookupOp ir expandSrc = Some expandSrcOp ->
  FoldPaddingExpandIntoInsert OpTy insertSliceOp ir
  = if bool_decide
         (isRankReducedType expandType (opResultType expandSrcOp) = Success)
    then Some (success,
               <[insertSliceOp :=
                   Some (InsertOp OpTy resultType expandSrc dest offsets
                           sizes strides)]> ir)
    else Some (failure (Some "expected rank increasing expansion"%string),
               ir).
Proof.
  intros Hroot Hsrc Hesrc.
  unfold FoldPaddingExpandIntoInsert, bind.
  rewrite (getOp_run _ _ _ Hroot).
  rewrite (bool_decide_eq_false_2 (OpTy <> OpTy)) by auto.
  rewrite (getOp_run _ _ _ Hsrc), (getType_run _ _ _ Hesrc).
  destruct (decide (isRankReducedType expandType (opResultType expandSrcOp)
                    = Success)) as [Heq|Hne].
  - rewrite (bool_decide_eq_false_2
               (isRankReducedType expandType (opResultType expandSrcOp)
                <> Success)) by auto.
    rewrite (bool_decide_eq_true_2 _ Heq).
    unfold modifyOpInPlace. rewrite Hroot. done.
  - rewrite (bool_decide_eq_true_2 _ Hne).
    by rewrite (bool_decide_eq_false_2 _ Hne).
Qed.

Lemma getMixedSizesFrom_spec value shape :
  forall i ir, exists sizes dims,
    getMixedSizesFrom value shape i ir = Some (sizes, ir ++ dims) /\
    getStatic sizes = shape /\
    Forall (fun o => exists j, o = Some (DimOp value j)) dims.
Proof.
  induction shape as [|d shape IH]; intros i ir.
  - exists [], []. simpl. unfold ret. by rewrite app_nil_r.
  - simpl. unfold bind at 1. unfold isDynamic.
    destruct (decide (d = kDynamic)) as [Hd|Hd].
    + rewrite (bool_decide_eq_true_2 _ Hd). unfold bind at 1, create, ret.
      destruct (IH (i + 1) (ir ++ [Some (DimOp value i)]))
        as (sizes & dims & Hrun & Hst & Hdims).
      exists (Val (length ir) :: sizes), (Some (DimOp value i) :: dims).
      unfold bind. rewrite Hrun. rewrite <- app_assoc. simpl.
      repeat split; [by rewrite Hst, Hd|].
      constructor; eauto.
    + rewrite (bool_decide_eq_false_2 _ Hd). unfold ret at 1.
      destruct (IH (i + 1) ir) as (sizes & dims & Hrun & Hst & Hdims).
      exists (Attr d :: sizes), dims.
      unfold bind. rewrite Hrun. unfold ret. simpl.
      repeat split; [by rewrite Hst | done].
Qed.

Lemma getMixedSizes_spec value ir op :
  lookupOp ir value = Some op ->
  exists sizes dims,
    getMixedSizes value ir = Some (sizes, ir ++ dims) /\
    getStatic sizes = getShape (opResultType op) /\
    Forall (fun o => exists j, o = Some (DimOp value j)) dims.
Proof.
  intros H. unfold getMixedSizes, bind.
  rewrite (getType_run _ _ _ H). apply getMixedSizesFrom_spec.
Qed.

Lemma areParallel_true expandReInds collapseReInds :
  areParallel expandReInds collapseReInds = Some true <->
  length expandReInds = length collapseReInds /\
  Forall parallelAt (zip collapseReInds expandReInds).
Proof.
  unfold areParallel. case_bool_decide as Hlen;
    [|split; [discriminate | intros [? _]; done]].
  split.
  - intros H. split; [done|]. apply (inj Some) in H. revert H.
    clear Hlen. revert collapseReInds.
    induction expandReInds as [|e es IH]; intros [|c cs] H; simpl in *;
      try constructor.
    + apply andb_prop in H as [H1 _]. apply negb_true_iff in H1.
      apply andb_false_iff in H1. unfold parallelAt. simpl.
      destruct H1 as [H1|H1]; apply bool_decide_eq_false in H1; lia.
    + apply andb_prop in H as [_ H2]. by apply IH.
  - intros [_ H]. f_equal. clear Hlen. revert collapseReInds H.
    induction expandReInds as [|e es IH]; intros [|c cs] H; simpl in *;
      try done.
    apply Forall_cons in H as [Hce H]. rewrite IH by done.
    rewrite andb_true_r. apply negb_true_iff, andb_false_iff.
    unfold parallelAt in Hce. simpl in Hce.
    destruct Hce as [Hc|He]; [left|right]; apply bool_decide_eq_false; lia.
Qed.

Lemma areParallel_false expandReInds collapseReInds :
  areParallel expandReInds collapseReInds = Some false <->
  length expandReInds = length collapseReInds /\
  exists j c e, collapseReInds !! j = Some c /\ expandReInds !! j = Some e /\
                length c <> 1%nat /\ length e <> 1%nat.
Proof.
  destruct (areParallel expandReInds collapseReInds) as [[|]|] eqn:Hp.
  - apply areParallel_true in Hp as [Hlen Hall]. split; [done|].
    intros (_ & j & c & e & Hc & He & Hc1 & He1).
    rewrite Forall_forall in Hall.
    assert ((c, e) ∈ zip collapseReInds expandReInds) as Hin.
    { apply list_elem_of_lookup. exists j.
      apply lookup_zip_with_Some. eauto. }
    apply Hall in Hin. unfold parallelAt in Hin. simpl in Hin. lia.
  - split; [intros _|done].
    unfold areParallel in Hp. case_bool_decide as Hlen; [|done].
    split; [done|]. apply (inj Some) in Hp. revert collapseReInds Hlen Hp.
    induction expandReInds as [|e es IH]; intros [|c cs] Hlen H;
      simpl in *; try done.
    apply andb_false_iff in H as [H|H].
    + exists O, c, e. simpl. apply negb_false_iff, andb_prop in H as [Hc He].
      apply bool_decide_eq_true in Hc, He. done.
    + destruct (IH cs) as (j & c' & e' & ?); [lia|done|].
      exists (S j), c', e'. done.
  - split; [done|]. intros [Hlen _]. unfold areParallel in Hp.
    by rewrite bool_decide_eq_true_2 in Hp.
Qed.

Lemma BubbleUpExpandThroughParallelCollapse_eq ir expandOp resultType src
    expandReInds outputShape collapseType collapseSrc collapseReInds :
  lookupOp ir expandOp
  = Some (ExpandShapeOp resultType src expandReInds outputShape) ->
  lookupOp ir src
  = Some (CollapseShapeOp collapseType collapseSrc collapseReInds) ->
  BubbleUpExpandThroughParallelCollapse expandOp ir
  = match areParallel expandReInds collapseReInds with
    | None => None
    | Some false => Some (failure None, ir)
    | Some true =>
        match getMixedSizes collapseSrc ir with
        | None => None
        | Some (collapseSizes, ir1) =>
            match bubbleLoop expandReInds collapseSizes outputShape 0%nat
                    collapseReInds initialBubbleState with
            | None => None
            | Some st =>
                let expandResultType :=
                  clone resultType (getStatic (newExpandSizes st)) in
                match inferCollapsedType expandResultType
                        (newCollapseReInds st) with
                | None => None
                | Some collapsedType =>
                    match
                      replaceOp expandOp (S (length ir1))
                        (ir1 ++
                         [Some (ExpandShapeOp expandResultType collapseSrc
                                  (newExpandReInds st) (newExpandSizes st));
                          Some (CollapseShapeOp collapsedType (length ir1)
                                  (newCollapseReInds st))])
                    with
                    | Some (_, ir') => Some (success, ir')
                    | None => None
                    end
                end
            end
        end
    end.
Proof.
  intros Hroot Hsrc.
  unfold BubbleUpExpandThroughParallelCollapse, bind.
  rewrite (getOp_run _ _ _ Hroot), (getOp_run _ _ _ Hsrc).
  unfold liftOpt at 1.
  destruct (areParallel expandReInds collapseReInds) as [[|]|]; try done.
  simpl.
  destruct (getMixedSizes collapseSrc ir) as [[collapseSizes ir1]|]; [|done].
  unfold liftOpt at 1.
  destruct (bubbleLoop _ _ _ _ _ _) as [st|]; [|done].
  unfold buildExpandShape, create, replaceOpWithNewOp, buildCollapseShape,
    bind.
  rewrite (getType_run _ _ _ (lookupOp_app_new ir1 _)). simpl.
  unfold liftOpt.
  destruct (inferCollapsedType _ _) as [collapsedType|]; [|done].
  unfold create, replaceOp, ret.
  rewrite length_app. simpl. rewrite Nat.add_1_r.
  rewrite <- app_assoc. done.
Qed.

(** ** The contracts of the folding patterns *)

(** C2.  Expand-after-extract: on an [ExpandShapeOp] fed by an
    [ExtractSliceOp], the pattern succeeds if and only if the
    non-reducing slice type inferred from the slice's source type and
    static offsets, sizes and strides is the expand's result type; on
    success the expand is replaced by one new [ExtractSliceOp] of that
    type on the original source, with the same mixed offsets, sizes and
    strides; otherwise the program is unchanged. *)
Theorem FoldExpandOfRankReducingExtract_contract
    (ir : IR) (expandShapeOp : Value) (resultType : RankedTensorType)
    (src : Value) (reassociation : list ReassociationIndices)
    (outputShape : list OpFoldResult) (extractType : RankedTensorType)
    (source : Value) (offsets sizes strides : list OpFoldResult)
    (sourceOp : Operation) :
  lookupOp ir expandShapeOp
  = Some (ExpandShapeOp resultType src reassociation outputShape) ->
  lookupOp ir src
  = Some (ExtractSliceOp extractType source offsets sizes strides) ->
  lookupOp ir source = Some sourceOp ->
  let nonReducingExtractType :=
    inferResultType (opResultType sourceOp) (getStatic offsets)
      (getStatic sizes) (getStatic strides) in
  let newExtract :=
    ExtractSliceOp nonReducingExtractType source offsets sizes strides in
  exists r ir',
    FoldExpandOfRankReducingExtract expandShapeOp ir = Some (r, ir') /\
    (r = success <-> nonReducingExtractType = resultType) /\
    (r = success ->
     replaceOp expandShapeOp (length ir) (ir ++ [Some newExtract])
     = Some (tt, ir') /\
     opResultType newExtract = resultType) /\
    (r <> success -> r = failure None /\ ir' = ir).
Proof.
  intros Hroot Hsrc Hsource T newExtract.
  rewrite (FoldExpandOfRankReducingExtract_eq _ _ _ _ _ _ _ _ _ _ _ _
             Hroot Hsrc Hsource).
  fold T. case_bool_decide as HT.
  - eexists success, _. unfold replaceOp. split; [reflexivity|].
    repeat split; try done.
  - eexists (failure None), ir. split; [reflexivity|].
    repeat split; try done.
Qed.

Lemma FoldExpandOfRankReducingExtract_contract_witness :
  exists r ir',
    FoldExpandOfRankReducingExtract 2%nat expandOfExtract = Some (r, ir') /\
    (r = success <-> f32 [4; 1; 4] = f32 [4; 1; 4]) /\
    (r = success ->
     replaceOp 2%nat 4%nat
       (expandOfExtract ++
        [Some (ExtractSliceOp (f32 [4; 1; 4]) 0%nat (attrs [2; 0; 0])
                 (attrs [4; 1; 4]) (attrs [1; 1; 1]))])
     = Some (tt, ir') /\
     f32 [4; 1; 4] = f32 [4; 1; 4]) /\
    (r <> success -> r = failure None /\ ir' = expandOfExtract).
Proof.
  exact (FoldExpandOfRankReducingExtract_contract expandOfExtract 2%nat
           (f32 [4; 1; 4]) 1%nat [[0; 1]; [2]] (attrs [4; 1; 4])
           (f32 [4; 4]) 0%nat (attrs [2; 0; 0]) (attrs [4; 1; 4])
           (attrs [1; 1; 1]) (BlockArgument (f32 [8; 1; 8]))
           eq_refl eq_refl eq_refl).
Defined.

(** C3.  Collapse-into-insert, for either insert kind [OpTy]: on an
    insert of kind [OpTy] fed by a [CollapseShapeOp], the pattern
    succeeds if and only if the tensor type built from the insert's
    static sizes and the destination's element type is the collapse's
    source type; on success the insert is replaced by a new insert of
    the same kind whose source is the collapse's source, with the same
    destination, offsets, sizes and strides; otherwise the program is
    unchanged.  Both instantiations are registered. *)
Theorem FoldInsertOfRankReducingInsert_contract
    (OpTy : InsertKind) (ir : IR) (insertSliceOp : Value)
    (resultType : RankedTensorType) (source dest : Value)
    (offsets sizes strides : list OpFoldResult)
    (collapseType : RankedTensorType) (collapseSrc : Value)
    (reassociation : list ReassociationIndices)
    (collapseSrcOp destOp : Operation) :
  lookupOp ir insertSliceOp
  = Some (InsertOp OpTy resultType source dest offsets sizes strides) ->
  lookupOp ir source
  = Some (CollapseShapeOp collapseType collapseSrc reassociation) ->
  lookupOp ir collapseSrc = Some collapseSrcOp ->
  lookupOp ir dest = Some destOp ->
  let nonReducingInsertType :=
    RankedTensorType_get (getStatic sizes)
      (getElementType (opResultType destOp)) in
  let newInsert :=
    InsertOp OpTy (opResultType destOp) collapseSrc dest offsets sizes
      strides in
  (exists r ir',
     FoldInsertOfRankReducingInsert OpTy insertSliceOp ir = Some (r, ir') /\
     (r = success <-> nonReducingInsertType = opResultType collapseSrcOp) /\
     (r = success ->
      replaceOp insertSliceOp (length ir) (ir ++ [Some newInsert])
      = Some (tt, ir')) /\
     (r <> success -> r = failure None /\ ir' = ir)) /\
  In (PFoldInsertOfRankReducingInsert InsertSliceOp)
    (populateReassociativeReshapeFoldingPatterns []) /\
  In (PFoldInsertOfRankReducingInsert ParallelInsertSliceOp)
    (populateReassociativeReshapeFoldingPatterns []).
Proof.
  intros Hroot Hsrc Hcsrc Hdest T newInsert. split.
  - rewrite (FoldInsertOfRankReducingInsert_eq _ _ _ _ _ _ _ _ _ _ _ _ _ _
               Hroot Hsrc Hcsrc Hdest).
    fold T. case_bool_decide as HT.
    + eexists success, _. unfold replaceOp. split; [reflexivity|].
      repeat split; try done.
    + eexists (failure None), ir. split; [reflexivity|].
      repeat split; try done.
  - simpl. auto 10.
Qed.

Lemma FoldInsertOfRankReducingInsert_contract_witness :
  (exists r ir',
     FoldInsertOfRankReducingInsert ParallelInsertSliceOp 3%nat
       (insertOfCollapse ParallelInsertSliceOp) = Some (r, ir') /\
     (r = success <-> f32 [4; 1; 4] = f32 [4; 1; 4]) /\
     (r = success ->
      replaceOp 3%nat 5%nat
        (insertOfCollapse ParallelInsertSliceOp ++
         [Some (InsertOp ParallelInsertSliceOp (f32 [8; 1; 8]) 0%nat 1%nat
                  (attrs [2; 0; 0]) (attrs [4; 1; 4]) (attrs [1; 1; 1]))])
      = Some (tt, ir')) /\
     (r <> success ->
      r = failure None /\ ir' = insertOfCollapse ParallelInsertSliceOp)) /\
  In (PFoldInsertOfRankReducingInsert InsertSliceOp)
    (populateReassociativeReshapeFoldingPatterns []) /\
  In (PFoldInsertOfRankReducingInsert ParallelInsertSliceOp)
    (populateReassociativeReshapeFoldingPatterns []).
Proof.
  exact (FoldInsertOfRankReducingInsert_contract ParallelInsertSliceOp
           (insertOfCollapse ParallelInsertSliceOp) 3%nat (f32 [8; 1; 8])
           2%nat 1%nat (attrs [2; 0; 0]) (attrs [4; 1; 4]) (attrs [1; 1; 1])
           (f32 [4; 4]) 0%nat [[0; 1]; [2]] (BlockArgument (f32 [4; 1; 4]))
           (BlockArgument (f32 [8; 1; 8])) eq_refl eq_refl eq_refl eq_refl).
Defined.

Lemma lookupOp_insert_eq (ir : IR) (v : Value) (op : Operation) :
  (v < length ir)%nat -> lookupOp (<[v := Some op]> ir) v = Some op.
Proof.
  intros Hv. unfold lookupOp. by rewrite list_lookup_insert_eq.
Qed.

Lemma lookupOp_lt (ir : IR) (v : Value) (op : Operation) :
  lookupOp ir v = Some op -> (v < length ir)%nat.
Proof.
  unfold lookupOp. intros H. apply lookup_lt_is_Some.
  destruct (ir !! v); [by eexists | discriminate].
Qed.

(** C4.  Expand-into-insert: when the pattern succeeds on an insert, the
    insert's source is produced by an [ExpandShapeOp] whose result type
    rank-reduces to its source type (the source shape is the result shape
    with dimensions of static size 1 removed);
    the insert's slot then holds the same operation with only the source
    operand reassigned to the expand's source (kind, result type,
    destination, offsets, sizes and strides as before), and every other
    slot of the program is as it was. *)
Theorem FoldPaddingExpandIntoInsert_frame
    (OpTy : InsertKind) (ir ir' : IR) (insertSliceOp : Value)
    (kind : InsertKind) (resultType : RankedTensorType)
    (source dest : Value) (offsets sizes strides : list OpFoldResult) :
  lookupOp ir insertSliceOp
  = Some (InsertOp kind resultType source dest offsets sizes strides) ->
  FoldPaddingExpandIntoInsert OpTy insertSliceOp ir = Some (success, ir') ->
  exists expandType expandSrc reassociation outputShape expandSrcOp,
    lookupOp ir source
    = Some (ExpandShapeOp expandType expandSrc reassociation outputShape) /\
    lookupOp ir expandSrc = Some expandSrcOp /\
    isRankReducedType expandType (opResultType expandSrcOp) = Success /\
    UnitDropped (getShape expandType) (getShape (opResultType expandSrcOp)) /\
    kind = OpTy /\
    lookupOp ir' insertSliceOp
    = Some (InsertOp kind resultType expandSrc dest offsets sizes strides) /\
    length ir' = length ir /\
    forall v, v <> insertSliceOp -> ir' !! v = ir !! v.
Proof.
  intros Hroot H. unfold FoldPaddingExpandIntoInsert in H.
  apply bind_Some in H as (root & ir0 & Hget & H).
  apply getOp_Some in Hget as [Hget ->]. rewrite Hroot in Hget.
  injection Hget as <-.
  case_bool_decide as Hkind; [unfold ret in H; discriminate|].
  assert (kind = OpTy) as -> by (destruct (decide (kind = OpTy)); tauto).
  apply bind_Some in H as (producer & ir0 & Hget & H).
  apply getOp_Some in Hget as [Hsrc ->].
  destruct producer; try (unfold ret in H; discriminate).
  apply bind_Some in H as (t & ir0 & Hty & H).
  apply getType_Some in Hty as (expandSrcOp & Hesrc & -> & ->).
  case_bool_decide as Hres;
    [unfold notifyMatchFailure, ret in H; discriminate|].
  apply bind_Some in H as ([] & ir1 & Hmod & H).
  unfold ret in H. injection H as ->.
  unfold modifyOpInPlace in Hmod. rewrite Hroot in Hmod.
  injection Hmod as <-. simpl.
  eexists _, _, _, _, _. split; [exact Hsrc|]. split; [exact Hesrc|].
  split; [exact Hres|].
  split; [by apply isRankReducedType_Success in Hres as [? _]|].
  split; [done|].
  split; [apply lookupOp_insert_eq; by eapply lookupOp_lt|].
  split; [apply length_insert|].
  intros v Hv. by apply list_lookup_insert_ne.
Qed.

Lemma FoldPaddingExpandIntoInsert_frame_witness :
  exists expandType expandSrc reassociation outputShape expandSrcOp,
    lookupOp (insertOfExpand InsertSliceOp) 2%nat
    = Some (ExpandShapeOp expandType expandSrc reassociation outputShape) /\
    lookupOp (insertOfExpand InsertSliceOp) expandSrc = Some expandSrcOp /\
    isRankReducedType expandType (opResultType expandSrcOp) = Success /\
    UnitDropped (getShape expandType) (getShape (opResultType expandSrcOp)) /\
    InsertSliceOp = InsertSliceOp /\
    lookupOp
      (<[3%nat := Some (InsertOp InsertSliceOp (f32 [8; 1; 8]) 0%nat 1%nat
                          (attrs [2; 0; 0]) (attrs [4; 1; 4])
                          (attrs [1; 1; 1]))]>
         (insertOfExpand InsertSliceOp)) 3%nat
    = Some (InsertOp InsertSliceOp (f32 [8; 1; 8]) expandSrc 1%nat
              (attrs [2; 0; 0]) (attrs [4; 1; 4]) (attrs [1; 1; 1])) /\
    length
      (<[3%nat := Some (InsertOp InsertSliceOp (f32 [8; 1; 8]) 0%nat 1%nat
                          (attrs [2; 0; 0]) (attrs [4; 1; 4])
                          (attrs [1; 1; 1]))]>
         (insertOfExpand InsertSliceOp))
    = length (insertOfExpand InsertSliceOp) /\
    forall v, v <> 3%nat ->
      <[3%nat := Some (InsertOp InsertSliceOp (f32 [8; 1; 8]) 0%nat 1%nat
                         (attrs [2; 0; 0]) (attrs [4; 1; 4])
                         (attrs [1; 1; 1]))]>
        (insertOfExpand InsertSliceOp) !! v
      = insertOfExpand InsertSliceOp !! v.
Proof.
  exact (FoldPaddingExpandIntoInsert_frame InsertSliceOp
           (insertOfExpand InsertSliceOp) _ 3%nat InsertSliceOp
           (f32 [8; 1; 8]) 2%nat 1%nat (attrs [2; 0; 0]) (attrs [4; 1; 4])
           (attrs [1; 1; 1]) eq_refl eq_refl).
Defined.

(** ** When the bubble-up pattern matches *)

Lemma parallelAt_lookup (collapseReInds expandReInds
    : list ReassociationIndices) :
  Forall parallelAt (zip collapseReInds expandReInds) <->
  forall j c e, collapseReInds !! j = Some c -> expandReInds !! j = Some e ->
                length c = 1%nat \/ length e = 1%nat.
Proof.
  rewrite Forall_lookup. split.
  - intros H j c e Hc He. apply (H j (c, e)).
    apply lookup_zip_with_Some. eauto.
  - intros H j [c e] Hj. apply lookup_zip_with_Some in Hj
      as (c' & e' & Heq & Hc & He). simplify_eq.
    unfold parallelAt. simpl. eauto.
Qed.

Lemma zip_sums (collapseReInds expandReInds : list ReassociationIndices) :
  length expandReInds = length collapseReInds ->
  sum_list (map (fun g => length (fst g)) (zip collapseReInds expandReInds))
  = sum_list (map length collapseReInds) /\
  sum_list (map (fun g => length (snd g)) (zip collapseReInds expandReInds))
  = sum_list (map length expandReInds).
Proof.
  revert expandReInds.
  induction collapseReInds as [|c cs IH]; intros [|e es] Hlen;
    simpl in *; try done.
  destruct (IH es) as [-> ->]; [lia | done].
Qed.

Lemma positions_in_range collapseSizes expandSizes groups :
  forall s ei ci,
  0 <= ei -> 0 <= ci ->
  (Z.to_nat ei + sum_list (map (fun g => length (snd g)) groups)
   <= length expandSizes)%nat ->
  (Z.to_nat ci + sum_list (map (fun g => length (fst g)) groups)
   <= length collapseSizes)%nat ->
  Forall (blockInRange collapseSizes expandSizes)
    (positions s ei ci groups).
Proof.
  induction groups as [|[c e] gs IH]; intros s ei ci Hei Hci He Hc;
    simpl in *; constructor.
  - unfold blockInRange, sizesBlock, posWidth. simpl.
    case_bool_decide; rewrite length_take, length_drop; lia.
  - apply IH; lia.
Qed.

Lemma inferCollapsedType_is_Some (t : RankedTensorType)
    (groups : list ReassociationIndices) :
  concat groups = seqZ 0 (Z.of_nat (getRank t)) ->
  is_Some (inferCollapsedType t groups).
Proof.
  intros Hcover. unfold inferCollapsedType.
  assert (is_Some (collapseShape (getShape t) groups)) as [shape ->];
    [|by eexists].
  unfold collapseShape.
  apply mapM_is_Some_2, Forall_forall. intros g Hg. simpl.
  apply fmap_is_Some, mapM_is_Some_2, Forall_forall. intros i Hi. simpl.
  assert (i ∈ concat groups) as Hin.
  { apply list_elem_of_In, in_concat. exists g.
    split; by apply list_elem_of_In. }
  rewrite Hcover in Hin. apply elem_of_seqZ in Hin.
  rewrite subscript_of_nat by lia.
  apply lookup_lt_is_Some. unfold getRank in Hin. lia.
Qed.

Lemma getStatic_length (l : list OpFoldResult) :
  length (getStatic l) = length l.
Proof. apply length_map. Qed.

(** The bubble-up loop on a parallel pair of reshapes whose vectors have
    the sizes the operations' invariants give them. *)
Lemma bubbleLoop_parallel expandReInds collapseReInds collapseSizes
    expandSizes :
  length expandReInds = length collapseReInds ->
  Forall parallelAt (zip collapseReInds expandReInds) ->
  length expandSizes = sum_list (map length expandReInds) ->
  length collapseSizes = sum_list (map length collapseReInds) ->
  exists st,
    bubbleLoop expandReInds collapseSizes expandSizes 0%nat collapseReInds
      initialBubbleState = Some st /\
    bubbleResult collapseSizes expandSizes initialBubbleState
      (positions 0 0 0 (zip collapseReInds expandReInds)) st.
Proof.
  intros Hlen Hpar He Hc.
  destruct (zip_sums _ _ Hlen) as [Hsc Hse].
  destruct (bubbleLoop_run expandReInds collapseSizes expandSizes
              collapseReInds 0%nat initialBubbleState) as [st Hst];
    try done.
  { change (drop 0 expandReInds) with expandReInds.
    apply positions_in_range; rewrite ?Hsc, ?Hse; simpl; lia. }
  exists st. split; [done|].
  by apply (bubbleLoop_inv _ _ _ _ 0%nat initialBubbleState st).
Qed.

Lemma bubbleResult_collapse_cover collapseSizes expandSizes groups st
    (t : RankedTensorType) :
  bubbleResult collapseSizes expandSizes initialBubbleState
    (positions 0 0 0 groups) st ->
  is_Some (inferCollapsedType (clone t (getStatic (newExpandSizes st)))
             (newCollapseReInds st)).
Proof.
  intros (_ & HC & HS & HR). simpl in HC, HS.
  apply inferCollapsedType_is_Some.
  unfold getRank, clone. simpl.
  rewrite getStatic_length, HS, HC, positions_sizes_length by done.
  rewrite positions_widths. apply positions_collapse_cover.
Qed.

(** C5.  Bubble-up: on an [ExpandShapeOp] fed by a [CollapseShapeOp]
    (reassociations of the same length, output sizes and source rank as
    the operations' invariants give them), the pattern succeeds if and
    only if at every position [j] the collapse's [j]-th group or the
    expand's [j]-th group has exactly one index; it reports no-match,
    leaving the program as it was, exactly when some position has both
    groups of a size other than 1, in particular whenever both sizes are
    greater than 1. *)
Theorem BubbleUp_matches_iff_parallel
    (ir : IR) (expandOp : Value) (resultType : RankedTensorType)
    (src : Value) (expandReInds : list ReassociationIndices)
    (outputShape : list OpFoldResult) (collapseType : RankedTensorType)
    (collapseSrc : Value) (collapseReInds : list ReassociationIndices)
    (collapseSrcOp : Operation) :
  lookupOp ir expandOp
  = Some (ExpandShapeOp resultType src expandReInds outputShape) ->
  lookupOp ir src
  = Some (CollapseShapeOp collapseType collapseSrc collapseReInds) ->
  lookupOp ir collapseSrc = Some collapseSrcOp ->
  length expandReInds = length collapseReInds ->
  length outputShape = sum_list (map length expandReInds) ->
  getRank (opResultType collapseSrcOp)
  = sum_list (map length collapseReInds) ->
  ((exists ir',
      BubbleUpExpandThroughParallelCollapse expandOp ir
      = Some (success, ir')) <->
   (forall j c e,
      collapseReInds !! j = Some c -> expandReInds !! j = Some e ->
      length c = 1%nat \/ length e = 1%nat)) /\
  (BubbleUpExpandThroughParallelCollapse expandOp ir
   = Some (failure None, ir) <->
   (exists j c e,
      collapseReInds !! j = Some c /\ expandReInds !! j = Some e /\
      length c <> 1%nat /\ length e <> 1%nat)) /\
  ((exists j c e,
      collapseReInds !! j = Some c /\ expandReInds !! j = Some e /\
      (1 < length c)%nat /\ (1 < length e)%nat) ->
   BubbleUpExpandThroughParallelCollapse expandOp ir
   = Some (failure None, ir)).
Proof.
  intros Hroot Hsrc Hcsrc Hlen Hos Hrank.
  rewrite (BubbleUpExpandThroughParallelCollapse_eq _ _ _ _ _ _ _ _ _
             Hroot Hsrc).
  destruct (areParallel expandReInds collapseReInds) as [[|]|] eqn:Hp.
  - apply areParallel_true in Hp as [_ Hpar].
    destruct (getMixedSizes_spec _ _ _ Hcsrc)
      as (collapseSizes & dims & -> & Hstatic & _).
    assert (length collapseSizes = sum_list (map length collapseReInds))
      as Hcs.
    { rewrite <- Hrank. unfold getRank. rewrite <- Hstatic.
      by rewrite getStatic_length. }
    destruct (bubbleLoop_parallel _ _ _ _ Hlen Hpar Hos Hcs)
      as (st & -> & Hres).
    cbv zeta.
    destruct (bubbleResult_collapse_cover _ _ _ _ resultType Hres)
      as [collapsedType ->].
    unfold replaceOp.
    pose proof (proj1 (parallelAt_lookup _ _) Hpar) as Hall.
    clear Hpar. rename Hall into Hpar.
    split; [split; [done | by eexists]|].
    split.
    + split; [discriminate|].
      intros (j & c & e & Hc & He & Hc1 & He1).
      destruct (Hpar j c e Hc He); lia.
    + intros (j & c & e & Hc & He & Hc1 & He1).
      destruct (Hpar j c e Hc He); lia.
  - apply areParallel_false in Hp as [_ Hex].
    split; [|split; [done|done]].
    split; [intros [ir' H]; discriminate|].
    intros Hpar. destruct Hex as (j & c & e & Hc & He & Hc1 & He1).
    destruct (Hpar j c e Hc He); lia.
  - unfold areParallel in Hp. by rewrite bool_decide_eq_true_2 in Hp.
Qed.

Lemma BubbleUp_matches_iff_parallel_witness :
  ((exists ir',
      BubbleUpExpandThroughParallelCollapse 3%nat expandOfParallelCollapse
      = Some (success, ir')) <->
   (forall j c e,
      [[0; 1]; [2]] !! j = Some c -> [[0]; [1; 2]] !! j = Some e ->
      length c = 1%nat \/ length e = 1%nat)) /\
  (BubbleUpExpandThroughParallelCollapse 3%nat expandOfParallelCollapse
   = Some (failure None, expandOfParallelCollapse) <->
   (exists j c e,
      [[0; 1]; [2]] !! j = Some c /\ [[0]; [1; 2]] !! j = Some e /\
      length c <> 1%nat /\ length e <> 1%nat)) /\
  ((exists j c e,
      [[0; 1]; [2]] !! j = Some c /\ [[0]; [1; 2]] !! j = Some e /\
      (1 < length c)%nat /\ (1 < length e)%nat) ->
   BubbleUpExpandThroughParallelCollapse 3%nat expandOfParallelCollapse
   = Some (failure None, expandOfParallelCollapse)).
Proof.
  exact (BubbleUp_matches_iff_parallel expandOfParallelCollapse 3%nat
           (f32 [6; kDynamic; 5]) 1%nat [[0]; [1; 2]]
           [Attr 6; Val 2%nat; Attr 5] (f32 [6; kDynamic]) 0%nat
           [[0; 1]; [2]] (BlockArgument (f32 [2; 3; kDynamic]))
           eq_refl eq_refl eq_refl eq_refl eq_refl eq_refl).
Defined.

(** ** The reassociations the bubble-up pattern builds *)

Lemma zip_nonempty (collapseReInds expandReInds : list ReassociationIndices) :
  Forall (fun g => g <> []) collapseReInds ->
  Forall (fun g => g <> []) expandReInds ->
  Forall (fun g => fst g <> [] /\ snd g <> [])
    (zip collapseReInds expandReInds).
Proof.
  intros Hc. revert expandReInds.
  induction Hc as [|c cs Hc1 _ IH]; intros es He; simpl; [constructor|].
  destruct He as [|e es He1 He]; constructor; auto.
Qed.

Lemma positions_sizes (collapseReInds expandReInds
    : list ReassociationIndices) :
  length expandReInds = length collapseReInds ->
  forall s ei ci,
  map posCollapseSize
    (positions s ei ci (zip collapseReInds expandReInds))
  = map length collapseReInds /\
  map posExpandSize
    (positions s ei ci (zip collapseReInds expandReInds))
  = map length expandReInds.
Proof.
  revert expandReInds.
  induction collapseReInds as [|c cs IH]; intros [|e es] Hlen s ei ci;
    simpl in *; try done.
  destruct (IH es ltac:(lia)
              (s + Z.of_nat (posWidth (length c) (length e)))
              (ei + Z.of_nat (length e)) (ci + Z.of_nat (length c)))
    as [-> ->].
  done.
Qed.

Lemma positions_parallel groups :
  Forall parallelAt groups ->
  forall s ei ci,
  Forall (fun p => posCollapseSize p = 1%nat \/ posExpandSize p = 1%nat)
    (positions s ei ci groups).
Proof.
  induction 1 as [|[c e] gs Hce _ IH]; intros s ei ci; simpl;
    constructor; auto.
Qed.

(** C6 (as amended).  Bubble-up rewrite: when the pattern succeeds (on
    reassociations
    without empty groups), the positions are the collapse groups paired
    with the expand groups in their original order, and intermediate
    dimensions are numbered consecutively from 0 across the positions.
    The new expand and the new collapse are created with the groups
    [expandBlock] and [collapseBlock] of each position in order, and
    both reassociations are covering, order-preserving partitions of the
    intermediate index range into non-empty contiguous groups.  At a
    position with a singleton collapse group and an expand group of [k]
    indices the new expand has one group of [k] intermediate dimensions,
    sized by the expand's output sizes of that group, and the new
    collapse has [k] singleton groups; at a position with a collapse
    group of [m <> 1] indices the expand group is a singleton, the new
    expand has [m] singleton groups, sized by the source's own sizes
    (whose static part is the source's shape), and the new collapse has
    one group of [m].  Where both groups are singletons the first case
    applies: the size is the expand's output size. *)
Theorem BubbleUp_new_reassociations
    (ir ir' : IR) (expandOp : Value) (resultType : RankedTensorType)
    (src : Value) (expandReInds : list ReassociationIndices)
    (outputShape : list OpFoldResult) (collapseType : RankedTensorType)
    (collapseSrc : Value) (collapseReInds : list ReassociationIndices)
    (collapseSrcOp : Operation) :
  lookupOp ir expandOp
  = Some (ExpandShapeOp resultType src expandReInds outputShape) ->
  lookupOp ir src
  = Some (CollapseShapeOp collapseType collapseSrc collapseReInds) ->
  lookupOp ir collapseSrc = Some collapseSrcOp ->
  Forall (fun g => g <> []) expandReInds ->
  Forall (fun g => g <> []) collapseReInds ->
  BubbleUpExpandThroughParallelCollapse expandOp ir = Some (success, ir') ->
  exists collapseSizes dims collapsedType,
    let ps := positions 0 0 0 (zip collapseReInds expandReInds) in
    let newExpandReInds := concat (map expandBlock ps) in
    let newCollapseReInds := concat (map collapseBlock ps) in
    let newExpandSizes :=
      concat (map (sizesBlock collapseSizes outputShape) ps) in
    let newExpand := length (ir ++ dims) in
    getMixedSizes collapseSrc ir = Some (collapseSizes, ir ++ dims) /\
    getStatic collapseSizes = getShape (opResultType collapseSrcOp) /\
    replaceOp expandOp (S newExpand)
      ((ir ++ dims) ++
       [Some (ExpandShapeOp (clone resultType (getStatic newExpandSizes))
                collapseSrc newExpandReInds newExpandSizes);
        Some (CollapseShapeOp collapsedType newExpand newCollapseReInds)])
    = Some (tt, ir') /\
    map posCollapseSize ps = map length collapseReInds /\
    map posExpandSize ps = map length expandReInds /\
    concat (map posDims ps) = seqZ 0 (Z.of_nat (length newExpandSizes)) /\
    isReassociationOf (length newExpandSizes) newExpandReInds /\
    isReassociationOf (length newExpandSizes) newCollapseReInds /\
    Forall (fun p =>
      let k := posExpandSize p in
      let m := posCollapseSize p in
      (m = 1%nat ->
       expandBlock p = [seqZ (posIndex p) (Z.of_nat k)] /\
       collapseBlock p = singletons (seqZ (posIndex p) (Z.of_nat k)) /\
       sizesBlock collapseSizes outputShape p
       = take k (drop (Z.to_nat (posExpandIndex p)) outputShape) /\
       length (sizesBlock collapseSizes outputShape p) = k) /\
      (m <> 1%nat ->
       k = 1%nat /\
       expandBlock p = singletons (seqZ (posIndex p) (Z.of_nat m)) /\
       collapseBlock p = [seqZ (posIndex p) (Z.of_nat m)] /\
       sizesBlock collapseSizes outputShape p
       = take m (drop (Z.to_nat (posCollapseIndex p)) collapseSizes) /\
       length (sizesBlock collapseSizes outputShape p) = m)) ps.
Proof.
  intros Hroot Hsrc Hcsrc Hne_e Hne_c H.
  rewrite (BubbleUpExpandThroughParallelCollapse_eq _ _ _ _ _ _ _ _ _
             Hroot Hsrc) in H.
  destruct (areParallel expandReInds collapseReInds) as [[|]|] eqn:Hp;
    try discriminate.
  apply areParallel_true in Hp as [Hlen Hpar].
  destruct (getMixedSizes_spec _ _ _ Hcsrc)
    as (collapseSizes & dims & Hsizes & Hstatic & _).
  rewrite Hsizes in H.
  destruct (bubbleLoop _ _ _ _ _ _) as [st|] eqn:Hloop; [|discriminate].
  cbv zeta in H.
  destruct (inferCollapsedType _ _) as [collapsedType|]; [|discriminate].
  apply bubbleLoop_inv in Hloop; simpl; try done.
  change (drop 0 expandReInds) with expandReInds in Hloop. simpl in Hloop.
  destruct Hloop as (HE & HC & HS & HR). simpl in HE, HC, HS.
  rewrite HE, HC, HS in H.
  destruct (replaceOp _ _ _) as [[[] irx]|] eqn:Hrep; [|discriminate].
  injection H as ->.
  exists collapseSizes, dims, collapsedType. cbv zeta.
  split; [done|]. split; [done|]. split; [done|].
  destruct (positions_sizes _ _ Hlen 0 0 0) as [HpsC HpsE].
  destruct (positions_reassociations collapseSizes outputShape _
              (zip_nonempty _ _ Hne_c Hne_e) HR) as [HpE HpC].
  split; [done|]. split; [done|].
  split; [|split; [done|split; [done|]]].
  - rewrite positions_dims, positions_sizes_length by done.
    by rewrite positions_widths.
  - pose proof (positions_parallel _ Hpar 0 0 0) as Hpp.
    rewrite Forall_forall in HR, Hpp. apply Forall_forall.
    intros p Hp. specialize (HR p Hp). specialize (Hpp p Hp).
    unfold blockInRange in HR.
    unfold expandBlock, collapseBlock, sizesBlock, posDims, posWidth in *.
    cbv zeta. split; intros Hm.
    + rewrite bool_decide_eq_false_2 in * by lia. done.
    + rewrite bool_decide_eq_true_2 in * by done.
      repeat split; try done. lia.
Qed.

Lemma BubbleUp_new_reassociations_witness :
    BubbleUpExpandThroughParallelCollapse 3%nat expandOfParallelCollapse
    = Some (success, bubbledParallelCollapse) /\
    exists collapseSizes dims collapsedType,
      let outputShape := [Attr 6; Val 2%nat; Attr 5] in
      let ps := positions 0 0 0 (zip [[0; 1]; [2]] [[0]; [1; 2]]) in
      let newExpandReInds := concat (map expandBlock ps) in
      let newCollapseReInds := concat (map collapseBlock ps) in
      let newExpandSizes :=
        concat (map (sizesBlock collapseSizes outputShape) ps) in
      let newExpand := length (expandOfParallelCollapse ++ dims) in
      getMixedSizes 0%nat expandOfParallelCollapse
      = Some (collapseSizes, expandOfParallelCollapse ++ dims) /\
      getStatic collapseSizes = [2; 3; kDynamic] /\
      replaceOp 3%nat (S newExpand)
        ((expandOfParallelCollapse ++ dims) ++
         [Some (ExpandShapeOp
                  (clone (f32 [6; kDynamic; 5]) (getStatic newExpandSizes))
                  0%nat newExpandReInds newExpandSizes);
          Some (CollapseShapeOp collapsedType newExpand newCollapseReInds)])
      = Some (tt, bubbledParallelCollapse) /\
      map posCollapseSize ps = map length [[0; 1]; [2]] /\
      map posExpandSize ps = map length [[0]; [1; 2]] /\
      concat (map posDims ps) = seqZ 0 (Z.of_nat (length newExpandSizes)) /\
      isReassociationOf (length newExpandSizes) newExpandReInds /\
      isReassociationOf (length newExpandSizes) newCollapseReInds /\
      Forall (fun p =>
        let k := posExpandSize p in
        let m := posCollapseSize p in
        (m = 1%nat ->
         expandBlock p = [seqZ (posIndex p) (Z.of_nat k)] /\
         collapseBlock p = singletons (seqZ (posIndex p) (Z.of_nat k)) /\
         sizesBlock collapseSizes outputShape p
         = take k (drop (Z.to_nat (posExpandIndex p)) outputShape) /\
         length (sizesBlock collapseSizes outputShape p) = k) /\
        (m <> 1%nat ->
         k = 1%nat /\
         expandBlock p = singletons (seqZ (posIndex p) (Z.of_nat m)) /\
         collapseBlock p = [seqZ (posIndex p) (Z.of_nat m)] /\
         sizesBlock collapseSizes outputShape p
         = take m (drop (Z.to_nat (posCollapseIndex p)) collapseSizes) /\
         length (sizesBlock collapseSizes outputShape p) = m)) ps.
Proof.
  split; [vm_compute; reflexivity|].
  apply (BubbleUp_new_reassociations expandOfParallelCollapse _ 3%nat
           (f32 [6; kDynamic; 5]) 1%nat [[0]; [1; 2]]
           [Attr 6; Val 2%nat; Attr 5] (f32 [6; kDynamic]) 0%nat
           [[0; 1]; [2]] (BlockArgument (f32 [2; 3; kDynamic])));
    [reflexivity | reflexivity | reflexivity
    | repeat constructor; discriminate
    | repeat constructor; discriminate
    | vm_compute; reflexivity].
Defined.

(** C6 (counterexample).  Where the collapse group and the expand group
    are both singletons, the new expand does not take the size from the
    source: on [expandOfSingletonPair] the size of intermediate
    dimension 0 is the old expand's output size (value 2), not the
    source's own size (the [tensor.dim] created in slot 5).  So the
    sizes are not the source's at every position whose expand group is
    a singleton. *)
Lemma BubbleUp_singleton_pair_size_from_output :
  ~ (forall ir ir' root resultType src expandReInds outputShape collapseType
            collapseSrc collapseReInds collapseSizes dims,
       lookupOp ir root
       = Some (ExpandShapeOp resultType src expandReInds outputShape) ->
       lookupOp ir src
       = Some (CollapseShapeOp collapseType collapseSrc collapseReInds) ->
       getMixedSizes collapseSrc ir = Some (collapseSizes, ir ++ dims) ->
       BubbleUpExpandThroughParallelCollapse root ir = Some (success, ir') ->
       exists expandResultType newExpandReInds newExpandSizes,
         lookupOp ir' (length (ir ++ dims))
         = Some (ExpandShapeOp expandResultType collapseSrc newExpandReInds
                   newExpandSizes) /\
         Forall (fun p =>
                   posExpandSize p = 1%nat ->
                   take (posCollapseSize p)
                     (drop (Z.to_nat (posIndex p)) newExpandSizes)
                   = take (posCollapseSize p)
                       (drop (Z.to_nat (posCollapseIndex p)) collapseSizes))
           (positions 0 0 0 (zip collapseReInds expandReInds))).
Proof.
  intros H.
  destruct (H expandOfSingletonPair
              (programAfter (BubbleUpExpandThroughParallelCollapse 3%nat)
                 expandOfSingletonPair)
              3%nat (f32 [kDynamic; 6; 2; 5]) 1%nat [[0]; [1]; [2; 3]]
              [Val 2%nat; Attr 6; Attr 2; Attr 5] (f32 [kDynamic; 6; 10])
              0%nat [[0]; [1; 2]; [3]]
              [Val 5%nat; Attr 2; Attr 3; Attr 10] [Some (DimOp 0%nat 0)]
              eq_refl eq_refl eq_refl eq_refl)
    as (t & newE & newSizes & Hnew & Hsizes).
  vm_compute in Hnew. injection Hnew as _ _ <-.
  apply Forall_cons in Hsizes as [Hfirst _].
  specialize (Hfirst eq_refl). vm_compute in Hfirst. discriminate.
Qed.

(** ** Failure of the collapse-into-extract pattern *)

Lemma countUses_pos (ir : IR) (user v : Value) (op : Operation) :
  lookupOp ir user = Some op -> In v (getOperands op) ->
  (1 <= countUses ir v)%nat.
Proof.
  intros Hop Hin. unfold countUses.
  assert (v ∈ filter (fun u => u = v)
                (flat_map (fun o => match o with
                                    | Some op => getOperands op
                                    | None => []
                                    end) ir)) as Hmem.
  { apply list_elem_of_filter. split; [done|].
    apply list_elem_of_In, in_flat_map. exists (Some op). split; [|done].
    unfold lookupOp in Hop. destruct (ir !! user) as [o|] eqn:Hu;
      [|discriminate].
    simpl in Hop. subst o. apply list_elem_of_In, list_elem_of_lookup. eauto. }
  destruct (filter _ _); [by apply not_elem_of_nil in Hmem | simpl; lia].
Qed.

(** C7 (as amended).  Collapse-into-extract on a [CollapseShapeOp]: the
    pattern fails exactly when the collapse's source is not produced by
    an [ExtractSliceOp], or the slice has more than one use, or the
    collapse's source type does not rank-reduce to its result type (a
    removed dimension is not static 1).  Only the last failure carries a
    reason, "expected unpadding collapse"; a missing producer and a
    shared slice give a plain failure with no reason.  Every failure
    leaves the program as it was. *)
Theorem FoldUnPaddingCollapseIntoExtract_failure
    (ir : IR) (collapseShapeOp : Value) (resultType : RankedTensorType)
    (src : Value) (reassociation : list ReassociationIndices)
    (producer : Operation) :
  lookupOp ir collapseShapeOp
  = Some (CollapseShapeOp resultType src reassociation) ->
  lookupOp ir src = Some producer ->
  let notUnpadding :=
    isRankReducedType (opResultType producer) resultType <> Success in
  exists r ir',
    FoldUnPaddingCollapseIntoExtract collapseShapeOp ir = Some (r, ir') /\
    (failed r = true <->
     isExtractSlice producer = false \/ (1 < countUses ir src)%nat \/
     notUnpadding) /\
    (isExtractSlice producer = false \/ (1 < countUses ir src)%nat ->
     r = failure None) /\
    (r = failure (Some "expected unpadding collapse"%string) <->
     isExtractSlice producer = true /\ countUses ir src = 1%nat /\
     notUnpadding) /\
    (notUnpadding <->
     ~ (UnitDropped (getShape (opResultType producer)) (getShape resultType)
        /\ getElementType (opResultType producer)
           = getElementType resultType)) /\
    (failed r = true -> ir' = ir).
Proof.
  intros Hroot Hsrc notUnpadding.
  assert (notUnpadding <->
          ~ (UnitDropped (getShape (opResultType producer))
               (getShape resultType)
             /\ getElementType (opResultType producer)
                = getElementType resultType)) as Hdecl.
  { unfold notUnpadding. by rewrite isRankReducedType_Success. }
  assert (1 <= countUses ir src)%nat as Huse.
  { eapply countUses_pos; [exact Hroot | simpl; auto]. }
  destruct (isExtractSlice producer) eqn:Hext.
  - destruct producer; try discriminate. simpl in notUnpadding, Hdecl.
    rewrite (FoldUnPaddingCollapseIntoExtract_eq _ _ _ _ _ _ _ _ _ _
               Hroot Hsrc).
    case_bool_decide as Hone; [case_bool_decide as Hred|].
    + eexists success, _. unfold replaceOp. split; [reflexivity|].
      split; [|split; [|split; [|split; [exact Hdecl | done]]]].
      * split; [done|]. intros [?|[?|?]]; [done | lia | done].
      * intros [?|?]; [done | lia].
      * split; [done|]. intros (_ & _ & ?). done.
    + eexists _, ir. split; [reflexivity|].
      split; [|split; [|split; [|split; [exact Hdecl | done]]]].
      * split; [auto | done].
      * intros [?|?]; [done | lia].
      * split; [auto | done].
    + eexists _, ir. split; [reflexivity|].
      split; [|split; [|split; [|split; [exact Hdecl | done]]]].
      * split; [intros _; right; left; lia | done].
      * done.
      * split; [done|]. intros (_ & ? & _). done.
  - exists (failure None), ir.
    assert (FoldUnPaddingCollapseIntoExtract collapseShapeOp ir
            = Some (failure None, ir)) as ->.
    { unfold FoldUnPaddingCollapseIntoExtract, bind.
      rewrite (getOp_run _ _ _ Hroot), (getOp_run _ _ _ Hsrc).
      destruct producer; try done. }
    split; [reflexivity|].
    split; [|split; [|split; [|split; [exact Hdecl | done]]]].
    + split; [auto | done].
    + done.
    + split; [done|]. intros (? & _). done.
Qed.

Lemma FoldUnPaddingCollapseIntoExtract_failure_witness :
  exists r ir',
    FoldUnPaddingCollapseIntoExtract 2%nat mergingCollapseOfExtract
    = Some (r, ir') /\
    (failed r = true <->
     true = false \/ (1 < countUses mergingCollapseOfExtract 1%nat)%nat \/
     isRankReducedType (f32 [4; 2; 4]) (f32 [8; 4]) <> Success) /\
    (true = false \/ (1 < countUses mergingCollapseOfExtract 1%nat)%nat ->
     r = failure None) /\
    (r = failure (Some "expected unpadding collapse"%string) <->
     true = true /\ countUses mergingCollapseOfExtract 1%nat = 1%nat /\
     isRankReducedType (f32 [4; 2; 4]) (f32 [8; 4]) <> Success) /\
    (isRankReducedType (f32 [4; 2; 4]) (f32 [8; 4]) <> Success <->
     ~ (UnitDropped [4; 2; 4] [8; 4] /\ F32 = F32)) /\
    (failed r = true -> ir' = mergingCollapseOfExtract).
Proof.
  exact (FoldUnPaddingCollapseIntoExtract_failure mergingCollapseOfExtract
           2%nat (f32 [8; 4]) 1%nat [[0; 1]; [2]]
           (ExtractSliceOp (f32 [4; 2; 4]) 0%nat (attrs [2; 0; 0])
              (attrs [4; 2; 4]) (attrs [1; 1; 1]))
           eq_refl eq_refl).
Defined.

(** C7 (counterexample).  A slice with two uses makes the pattern fail
    without any reason attached: the claim that the multi-use failure is
    reported with a diagnostic does not hold. *)
Lemma FoldUnPaddingCollapseIntoExtract_shared_no_reason :
  ~ (forall ir collapseShapeOp resultType src reassociation extractType
            source offsets sizes strides,
       lookupOp ir collapseShapeOp
       = Some (CollapseShapeOp resultType src reassociation) ->
       lookupOp ir src
       = Some (ExtractSliceOp extractType source offsets sizes strides) ->
       (1 < countUses ir src)%nat ->
       exists msg ir',
         FoldUnPaddingCollapseIntoExtract collapseShapeOp ir
         = Some (failure (Some msg), ir')).
Proof.
  intros H.
  assert (countUses collapseOfSharedExtract 1%nat = 2%nat) as Huses
    by reflexivity.
  destruct (H collapseOfSharedExtract 2%nat (f32 [4; 4]) 1%nat
              [[0; 1]; [2]] (f32 [4; 1; 4]) 0%nat (attrs [2; 0; 0])
              (attrs [4; 1; 4]) (attrs [1; 1; 1]) eq_refl eq_refl
              ltac:(rewrite Huses; lia)) as (msg & ir' & Heq).
  vm_compute in Heq. discriminate.
Qed.

(** ** Running a folding pattern again *)

Lemma lookupOp_replaceOp (ir ir' : IR) (old new v : Value) :
  replaceOp old new ir = Some (tt, ir') ->
  v <> old ->
  lookupOp ir' v = substOperands old new <$> lookupOp ir v.
Proof.
  unfold replaceOp. intros H Hv. injection H as <-.
  unfold lookupOp. rewrite list_lookup_insert_ne by done.
  rewrite list_lookup_fmap. by destruct (ir !! v) as [[op|]|].
Qed.

Lemma substOperands_kind old new op :
  isExtractSlice (substOperands old new op) = isExtractSlice op /\
  isCollapseShape (substOperands old new op) = isCollapseShape op /\
  isExpandShape (substOperands old new op) = isExpandShape op.
Proof. by destruct op. Qed.

(** C8 (counterexample).  Expand-into-insert matches again on its own
    output when the folded expand is itself fed by a unit-adding expand:
    one application consumes one expand of the chain. *)
Lemma FoldPaddingExpandIntoInsert_matches_again :
  ~ (forall OpTy insertSliceOp ir ir',
       FoldPaddingExpandIntoInsert OpTy insertSliceOp ir
       = Some (success, ir') ->
       forall r ir'',
         FoldPaddingExpandIntoInsert OpTy insertSliceOp ir' = Some (r, ir'') ->
         r <> success).
Proof.
  intros H.
  pose (ir1 := <[4%nat := Some (InsertOp InsertSliceOp (f32 [1; 8; 1])
                                 2%nat 1%nat (attrs [0; 2; 0])
                                 (attrs [1; 4; 1]) (attrs [1; 1; 1]))]>
                 insertOfExpandOfExpand).
  pose (ir2 := <[4%nat := Some (InsertOp InsertSliceOp (f32 [1; 8; 1])
                                 0%nat 1%nat (attrs [0; 2; 0])
                                 (attrs [1; 4; 1]) (attrs [1; 1; 1]))]>
                 insertOfExpandOfExpand).
  apply (H InsertSliceOp 4%nat insertOfExpandOfExpand ir1 eq_refl
           success ir2 eq_refl eq_refl).
Qed.

(** Collapse-into-insert matches again on the insert it created when the
    folded collapse is itself fed by a collapse that keeps the type. *)
Lemma FoldInsertOfRankReducingInsert_matches_again :
  ~ (forall OpTy insertSliceOp ir ir',
       FoldInsertOfRankReducingInsert OpTy insertSliceOp ir
       = Some (success, ir') ->
       forall r ir'',
         FoldInsertOfRankReducingInsert OpTy (length ir) ir' = Some (r, ir'') ->
         r <> success).
Proof.
  intros H.
  set (once := programAfter (FoldInsertOfRankReducingInsert InsertSliceOp
                               4%nat) insertOfCollapseOfCollapse).
  assert (FoldInsertOfRankReducingInsert InsertSliceOp 4%nat
            insertOfCollapseOfCollapse = Some (success, once)) as H1
    by reflexivity.
  assert (FoldInsertOfRankReducingInsert InsertSliceOp 6%nat once
          = Some (success,
                  programAfter (FoldInsertOfRankReducingInsert InsertSliceOp
                                  6%nat) once)) as H2
    by reflexivity.
  exact (H _ _ _ _ H1 _ _ H2 eq_refl).
Qed.

Lemma FoldExpandOfRankReducingExtract_success ir ir' root :
  FoldExpandOfRankReducingExtract root ir = Some (success, ir') ->
  exists resultType src reassociation outputShape extractType source offsets
         sizes strides sourceOp,
    lookupOp ir root
    = Some (ExpandShapeOp resultType src reassociation outputShape) /\
    lookupOp ir src
    = Some (ExtractSliceOp extractType source offsets sizes strides) /\
    lookupOp ir source = Some sourceOp /\
    inferResultType (opResultType sourceOp) (getStatic offsets)
      (getStatic sizes) (getStatic strides) = resultType /\
    replaceOp root (length ir)
      (ir ++ [Some (ExtractSliceOp resultType source offsets sizes strides)])
    = Some (tt, ir').
Proof.
  intros H. pose proof H as H0. unfold FoldExpandOfRankReducingExtract in H0.
  apply bind_Some in H0 as (rootOp & ir0 & Hroot & H0).
  apply getOp_Some in Hroot as [Hroot ->].
  destruct rootOp; try (unfold ret in H0; discriminate).
  apply bind_Some in H0 as (producer & ir0 & Hsrc & H0).
  apply getOp_Some in Hsrc as [Hsrc ->].
  destruct producer; try (unfold ret in H0; discriminate).
  apply bind_Some in H0 as (t & ir0 & Hty & _).
  apply getType_Some in Hty as (sourceOp & Hsource & -> & ->).
  rewrite (FoldExpandOfRankReducingExtract_eq _ _ _ _ _ _ _ _ _ _ _ _
             Hroot Hsrc Hsource) in H.
  cbv zeta in H. case_bool_decide as HT; [|discriminate].
  rewrite HT in H. unfold replaceOp in H |- *. injection H as <-.
  eexists _, _, _, _, _, _, _, _, _, _. eauto.
Qed.

Lemma FoldUnPaddingCollapseIntoExtract_success ir ir' root :
  FoldUnPaddingCollapseIntoExtract root ir = Some (success, ir') ->
  exists resultType src reassociation extractType source offsets sizes
         strides,
    lookupOp ir root = Some (CollapseShapeOp resultType src reassociation) /\
    lookupOp ir src
    = Some (ExtractSliceOp extractType source offsets sizes strides) /\
    countUses ir src = 1%nat /\
    isRankReducedType extractType resultType = Success /\
    replaceOp root (length ir)
      (ir ++ [Some (ExtractSliceOp resultType source offsets sizes strides)])
    = Some (tt, ir').
Proof.
  intros H. pose proof H as H0. unfold FoldUnPaddingCollapseIntoExtract in H0.
  apply bind_Some in H0 as (rootOp & ir0 & Hroot & H0).
  apply getOp_Some in Hroot as [Hroot ->].
  destruct rootOp; try (unfold ret in H0; discriminate).
  apply bind_Some in H0 as (producer & ir0 & Hsrc & H0).
  apply getOp_Some in Hsrc as [Hsrc ->].
  destruct producer; try (unfold ret in H0; discriminate).
  clear H0.
  rewrite (FoldUnPaddingCollapseIntoExtract_eq _ _ _ _ _ _ _ _ _ _
             Hroot Hsrc) in H.
  case_bool_decide as Hone; [|discriminate].
  case_bool_decide as Hred; [|discriminate].
  unfold replaceOp in H |- *. injection H as <-.
  eexists _, _, _, _, _, _, _, _. eauto.
Qed.

Lemma FoldInsertOfRankReducingInsert_success OpTy ir ir' root :
  FoldInsertOfRankReducingInsert OpTy root ir = Some (success, ir') ->
  exists resultType source dest offsets sizes strides collapseType
         collapseSrc reassociation collapseSrcOp destOp,
    lookupOp ir root
    = Some (InsertOp OpTy resultType source dest offsets sizes strides) /\
    lookupOp ir source
    = Some (CollapseShapeOp collapseType collapseSrc reassociation) /\
    lookupOp ir collapseSrc = Some collapseSrcOp /\
    lookupOp ir dest = Some destOp /\
    RankedTensorType_get (getStatic sizes)
      (getElementType (opResultType destOp)) = opResultType collapseSrcOp /\
    replaceOp root (length ir)
      (ir ++ [Some (InsertOp OpTy (opResultType destOp) collapseSrc dest
                      offsets sizes strides)])
    = Some (tt, ir').
Proof.
  intros H. pose proof H as H0. unfold FoldInsertOfRankReducingInsert in H0.
  apply bind_Some in H0 as (rootOp & ir0 & Hroot & H0).
  apply getOp_Some in Hroot as [Hroot ->].
  destruct rootOp; try (unfold ret in H0; discriminate).
  case_bool_decide as Hkind; [unfold ret in H0; discriminate|].
  assert (kind = OpTy) as -> by (destruct (decide (kind = OpTy)); tauto).
  apply bind_Some in H0 as (producer & ir0 & Hsrc & H0).
  apply getOp_Some in Hsrc as [Hsrc ->].
  destruct producer; try (unfold ret in H0; discriminate).
  apply bind_Some in H0 as (t & ir0 & Hty & H0).
  apply getType_Some in Hty as (collapseSrcOp & Hcsrc & -> & ->).
  apply bind_Some in H0 as (t & ir0 & Hty & _).
  apply getType_Some in Hty as (destOp & Hdest & -> & ->).
  rewrite (FoldInsertOfRankReducingInsert_eq _ _ _ _ _ _ _ _ _ _ _ _ _ _
             Hroot Hsrc Hcsrc Hdest) in H.
  cbv zeta in H. case_bool_decide as HT; [|discriminate].
  unfold replaceOp in H |- *. injection H as <-.
  eexists _, _, _, _, _, _, _, _, _, _, _. eauto 10.
Qed.

Lemma FoldPaddingExpandIntoInsert_success OpTy ir ir' root :
  FoldPaddingExpandIntoInsert OpTy root ir = Some (success, ir') ->
  exists resultType source dest offsets sizes strides expandType expandSrc
         reassociation outputShape expandSrcOp,
    lookupOp ir root
    = Some (InsertOp OpTy resultType source dest offsets sizes strides) /\
    lookupOp ir source
    = Some (ExpandShapeOp expandType expandSrc reassociation outputShape) /\
    lookupOp ir expandSrc = Some expandSrcOp /\
    isRankReducedType expandType (opResultType expandSrcOp) = Success /\
    ir' = <[root := Some (InsertOp OpTy resultType expandSrc dest offsets
                            sizes strides)]> ir.
Proof.
  intros H. pose proof H as H0. unfold FoldPaddingExpandIntoInsert in H0.
  apply bind_Some in H0 as (rootOp & ir0 & Hroot & H0).
  apply getOp_Some in Hroot as [Hroot ->].
  destruct rootOp; try (unfold ret in H0; discriminate).
  case_bool_decide as Hkind; [unfold ret in H0; discriminate|].
  assert (kind = OpTy) as -> by (destruct (decide (kind = OpTy)); tauto).
  apply bind_Some in H0 as (producer & ir0 & Hsrc & H0).
  apply getOp_Some in Hsrc as [Hsrc ->].
  destruct producer; try (unfold ret in H0; discriminate).
  apply bind_Some in H0 as (t & ir0 & Hty & _).
  apply getType_Some in Hty as (expandSrcOp & Hesrc & -> & ->).
  rewrite (FoldPaddingExpandIntoInsert_eq _ _ _ _ _ _ _ _ _ _ _ _ _ _
             Hroot Hsrc Hesrc) in H.
  case_bool_decide as Hred; [|discriminate].
  injection H as <-.
  eexists _, _, _, _, _, _, _, _, _, _, _. eauto 10.
Qed.

Lemma FoldExpandOfRankReducingExtract_other_root ir v op :
  lookupOp ir v = Some op -> isExpandShape op = false ->
  FoldExpandOfRankReducingExtract v ir = Some (failure None, ir).
Proof.
  intros Hv Hop. unfold FoldExpandOfRankReducingExtract, bind.
  rewrite (getOp_run _ _ _ Hv). by destruct op.
Qed.

Lemma FoldUnPaddingCollapseIntoExtract_other_root ir v op :
  lookupOp ir v = Some op -> isCollapseShape op = false ->
  FoldUnPaddingCollapseIntoExtract v ir = Some (failure None, ir).
Proof.
  intros Hv Hop. unfold FoldUnPaddingCollapseIntoExtract, bind.
  rewrite (getOp_run _ _ _ Hv). by destruct op.
Qed.

Lemma FoldInsertOfRankReducingInsert_other_producer OpTy ir v kind resultType
    source dest offsets sizes strides producer :
  lookupOp ir v
  = Some (InsertOp kind resultType source dest offsets sizes strides) ->
  lookupOp ir source = Some producer -> isCollapseShape producer = false ->
  FoldInsertOfRankReducingInsert OpTy v ir = Some (failure None, ir).
Proof.
  intros Hv Hsrc Hop. unfold FoldInsertOfRankReducingInsert, bind.
  rewrite (getOp_run _ _ _ Hv). case_bool_decide; [done|].
  rewrite (getOp_run _ _ _ Hsrc). by destruct producer.
Qed.

Lemma FoldPaddingExpandIntoInsert_other_producer OpTy ir v kind resultType
    source dest offsets sizes strides producer :
  lookupOp ir v
  = Some (InsertOp kind resultType source dest offsets sizes strides) ->
  lookupOp ir source = Some producer -> isExpandShape producer = false ->
  FoldPaddingExpandIntoInsert OpTy v ir = Some (failure None, ir).
Proof.
  intros Hv Hsrc Hop. unfold FoldPaddingExpandIntoInsert, bind.
  rewrite (getOp_run _ _ _ Hv). case_bool_decide; [done|].
  rewrite (getOp_run _ _ _ Hsrc). by destruct producer.
Qed.

Lemma lookupOp_replaceOp_new ir ir' old op :
  lookupOp ir old <> None ->
  replaceOp old (length ir) (ir ++ [Some op]) = Some (tt, ir') ->
  lookupOp ir' (length ir) = Some (substOperands old (length ir) op).
Proof.
  intros Hold Hrep.
  assert (old < length ir)%nat as Hlt.
  { destruct (lookupOp ir old) eqn:Hl; [|done]. by eapply lookupOp_lt. }
  rewrite (lookupOp_replaceOp _ _ _ _ _ Hrep) by lia.
  by rewrite lookupOp_app_new.
Qed.

Lemma lookupOp_replaceOp_old ir ir' old new extra v op :
  replaceOp old new (ir ++ extra) = Some (tt, ir') ->
  v <> old -> lookupOp ir v = Some op ->
  lookupOp ir' v = Some (substOperands old new op).
Proof.
  intros Hrep Hv Hop.
  rewrite (lookupOp_replaceOp _ _ _ _ _ Hrep) by done.
  by rewrite (lookupOp_app_old _ _ _ _ Hop).
Qed.

(** ** Failure is atomic *)

(** C9.  Whenever a pattern of the file returns no-match on a root
    operation, with or without a reason, the program it returns is the
    program it was given: nothing was created, replaced, erased or
    modified. *)
Theorem failure_leaves_program_unchanged
    (p : Pattern) (op : Value) (ir ir' : IR) (reason : option string) :
  matchAndRewrite p op ir = Some (failure reason, ir') -> ir' = ir.
Proof.
  destruct p; simpl;
    [ unfold FoldExpandOfRankReducingExtract
    | unfold FoldUnPaddingCollapseIntoExtract
    | unfold FoldInsertOfRankReducingInsert
    | unfold FoldPaddingExpandIntoInsert
    | unfold BubbleUpExpandThroughParallelCollapse ];
    intros H; rw_inv; try reflexivity; try discriminate.
Qed.

Lemma failure_leaves_program_unchanged_witness :
  matchAndRewrite PBubbleUpExpandThroughParallelCollapse 2%nat
    expandOfCrossingCollapse
  = Some (failure None, expandOfCrossingCollapse) /\
  expandOfCrossingCollapse = expandOfCrossingCollapse.
Proof.
  split; [reflexivity|].
  apply (failure_leaves_program_unchanged
           PBubbleUpExpandThroughParallelCollapse 2%nat
           expandOfCrossingCollapse expandOfCrossingCollapse None).
  reflexivity.
Defined.

(** ** The 0-d case of the bubble-up pattern *)

(** C10 (the code at the failing input).  On a [tensor<1x1xf32>]
    collapsed to the 0-d [tensor<f32>] and expanded to
    [tensor<1x1x1xf32>], both reassociations are empty, so the parallel
    check passes and both loops do nothing: the pattern succeeds, and the
    user of the expand, which consumed a [tensor<1x1x1xf32>], is handed a
    new collapse of type [tensor<f32>]. *)
Theorem BubbleUp_rank_zero_changes_type :
  BubbleUpExpandThroughParallelCollapse 2%nat expandOfRankZeroCollapse
  = Some (success, bubbledRankZeroCollapse) /\
  opResultType <$> lookupOp expandOfRankZeroCollapse 2%nat
  = Some (f32 [1; 1; 1]) /\
  getOperands <$> lookupOp expandOfRankZeroCollapse 3%nat = Some [2%nat] /\
  getOperands <$> lookupOp bubbledRankZeroCollapse 3%nat = Some [5%nat] /\
  lookupOp bubbledRankZeroCollapse 5%nat
  = Some (CollapseShapeOp (f32 []) 4%nat []) /\
  opResultType <$> lookupOp bubbledRankZeroCollapse 5%nat
  <> Some (f32 [1; 1; 1]).
Proof. repeat split; try reflexivity. discriminate. Qed.

(** ** The folding patterns preserve what the program computes *)

Lemma staticList_getStatic (l : list OpFoldResult) (zs : list Z) :
  staticList l = Some zs -> getStatic l = zs.
Proof.
  unfold staticList. intros H. apply mapM_Some_1 in H.
  induction H as [|o z l zs Hoz _ IH]; simpl; [done|].
  destruct o; [injection Hoz as ->|discriminate]. simpl. by rewrite IH.
Qed.

Lemma substOFR_id old new (l : list OpFoldResult) :
  Forall (fun u => u <> old) (dynamicOf l) -> map (substOFR old new) l = l.
Proof.
  induction l as [|o l IH]; simpl; intros H; [done|].
  destruct o as [z|v]; simpl in *.
  - by rewrite IH.
  - apply Forall_cons in H as [Hv H]. rewrite IH by done.
    unfold substValue. by rewrite bool_decide_eq_false_2.
Qed.

Lemma substValue_id old new v : v <> old -> substValue old new v = v.
Proof. intros H. unfold substValue. by rewrite bool_decide_eq_false_2. Qed.

Lemma substOperands_id old new op :
  Forall (fun u => u <> old) (getOperands op) ->
  substOperands old new op = op.
Proof.
  destruct op; simpl; intros H; try done.
  - apply Forall_cons in H as [Hs H].
    apply Forall_app in H as [Ho H]. apply Forall_app in H as [Hsz Hst].
    by rewrite substValue_id, !substOFR_id.
  - apply Forall_cons in H as [Hs H]. apply Forall_cons in H as [Hd H].
    apply Forall_app in H as [Ho H]. apply Forall_app in H as [Hsz Hst].
    by rewrite !substValue_id, !substOFR_id.
  - apply Forall_cons in H as [Hs H].
    by rewrite substValue_id, substOFR_id.
  - apply Forall_cons in H as [Hs _]. by rewrite substValue_id.
  - apply Forall_cons in H as [Hs _]. by rewrite substValue_id.
  - f_equal. induction operands as [|u us IH]; simpl; [done|].
    apply Forall_cons in H as [Hu H]. by rewrite substValue_id, IH.
Qed.

(** Values defined before a bound denote the same in two programs that
    agree below the bound. *)
Lemma eval_agree (ir ir' : IR) (args : Value -> option Tensor)
    (bound : nat) :
  definedBeforeUse ir ->
  (forall v, (v < bound)%nat -> lookupOp ir' v = lookupOp ir v) ->
  forall fuel v, (v < bound)%nat ->
                 eval fuel ir' args v = eval fuel ir args v.
Proof.
  intros Hord Hsame. induction fuel as [|fuel IH]; intros v Hv; [done|].
  simpl. rewrite (Hsame v Hv).
  destruct (lookupOp ir v) as [op|] eqn:Hop; [|done]. simpl.
  pose proof (Hord v op Hop) as Hops.
  destruct op; simpl in Hops; try done.
  - apply Forall_cons in Hops as [Hs _]. rewrite IH by lia. done.
  - apply Forall_cons in Hops as [Hs Hops].
    apply Forall_cons in Hops as [Hd _]. rewrite !IH by lia.
    rewrite (Hsame source) by lia. done.
  - apply Forall_cons in Hops as [Hs _]. rewrite IH by lia. done.
  - apply Forall_cons in Hops as [Hs _]. rewrite IH by lia. done.
Qed.

Lemma replaceOp_below (ir extra ir' : IR) (old new : Value) :
  definedBeforeUse ir -> (old < length ir)%nat ->
  replaceOp old new (ir ++ extra) = Some (tt, ir') ->
  forall v, (v < old)%nat -> lookupOp ir' v = lookupOp ir v.
Proof.
  intros Hord Hold Hrep v Hv.
  rewrite (lookupOp_replaceOp _ _ _ _ _ Hrep) by lia.
  assert (lookupOp (ir ++ extra) v = lookupOp ir v) as ->.
  { unfold lookupOp. by rewrite lookup_app_l by lia. }
  destruct (lookupOp ir v) as [op|] eqn:Hop; [|done]. simpl.
  rewrite substOperands_id; [done|].
  eapply Forall_impl; [exact (Hord v op Hop)|]. simpl. lia.
Qed.

Lemma insert_below (ir : IR) (root : Value) (o : option Operation) :
  forall v, (v < root)%nat -> lookupOp (<[root := o]> ir) v = lookupOp ir v.
Proof.
  intros v Hv. unfold lookupOp. by rewrite list_lookup_insert_ne by lia.
Qed.

Ltac opt_inv H :=
  repeat (simpl in H;
          match type of H with
          | (?x ≫= _) = Some _ =>
              let E := fresh "E" in
              destruct x eqn:E; simpl in H; [|discriminate H]
          | (_ <$> ?x) = Some _ =>
              let E := fresh "E" in
              destruct x eqn:E; simpl in H; [|discriminate H]
          | (if ?b then _ else _) = Some _ =>
              let E := fresh "E" in
              destruct b eqn:E; [|discriminate H]
          end).

Lemma staticShape_Some t shape :
  staticShape t = Some shape -> shape = getShape t.
Proof.
  unfold staticShape. destruct (existsb isDynamic (getShape t)); [done|].
  by intros [= <-].
Qed.

Lemma eval_dims fuel ir args v op t :
  lookupOp ir v = Some op -> eval fuel ir args v = Some t ->
  dims t = getShape (opResultType op).
Proof.
  intros Hop H. destruct fuel as [|fuel]; [done|].
  simpl in H. rewrite Hop in H. simpl in H.
  destruct op; opt_inv H; try discriminate; injection H as <-; simpl;
    try (by apply staticShape_Some).
  match goal with E : _ && _ = true |- _ =>
    apply andb_prop in E as [E _]; apply bool_decide_eq_true in E;
    symmetry in E; by apply staticShape_Some in E end.
Qed.

Lemma eval_mono ir args :
  forall fuel v t,
  eval fuel ir args v = Some t -> eval (S fuel) ir args v = Some t.
Proof.
  induction fuel as [|fuel IH]; intros v t H; [done|].
  remember (S fuel) as n eqn:Hn. simpl. rewrite Hn in H. simpl in H.
  destruct (lookupOp ir v) as [op|]; [|done]. simpl in H |- *.
  destruct op; try done.
  - destruct (eval fuel ir args source) as [x|] eqn:Hx; [|done].
    apply IH in Hx. by rewrite Hx.
  - destruct (eval fuel ir args source) as [x|] eqn:Hx; [|done].
    apply IH in Hx. rewrite Hx. simpl in H |- *.
    destruct (eval fuel ir args dest) as [d|] eqn:Hd; [|done].
    apply IH in Hd. by rewrite Hd.
  - destruct (eval fuel ir args src) as [x|] eqn:Hx; [|done].
    apply IH in Hx. by rewrite Hx.
  - destruct (eval fuel ir args src) as [x|] eqn:Hx; [|done].
    apply IH in Hx. by rewrite Hx.
Qed.

Lemma staticShape_same t t' shape :
  staticShape t = Some shape -> getShape t' = shape ->
  staticShape t' = Some shape.
Proof.
  intros Hs Ht. pose proof (staticShape_Some _ _ Hs) as ->.
  unfold staticShape in *. rewrite Ht.
  by destruct (existsb isDynamic (getShape t)).
Qed.

Lemma isRankReducedType_refl t : isRankReducedType t t = Success.
Proof. unfold isRankReducedType. by rewrite bool_decide_eq_true_2. Qed.

Lemma operand_below ir v op u :
  definedBeforeUse ir -> lookupOp ir v = Some op -> In u (getOperands op) ->
  (u < v)%nat.
Proof.
  intros Hord Hop Hu. specialize (Hord v op Hop).
  rewrite Forall_forall in Hord. by apply Hord, list_elem_of_In.
Qed.

Lemma substOperands_below ir v op old new :
  definedBeforeUse ir -> lookupOp ir v = Some op -> (v <= old)%nat ->
  substOperands old new op = op.
Proof.
  intros Hord Hop Hv. apply substOperands_id.
  eapply Forall_impl; [exact (Hord v op Hop)|]. simpl. lia.
Qed.

Lemma FoldExpandOfRankReducingExtract_sound ir ir' root args fuel t :
  definedBeforeUse ir ->
  FoldExpandOfRankReducingExtract root ir = Some (success, ir') ->
  eval fuel ir args root = Some t ->
  exists fuel', eval fuel' ir' args (length ir) = Some t.
Proof.
  intros Hord H Hpre.
  apply FoldExpandOfRankReducingExtract_success in H
    as (rt & src & re & os & et & source & offsets & sizes & strides
        & sourceOp & Hroot & Hsrc & Hsource & HT & Hrep).
  assert (src < root)%nat as Hsr
    by (eapply operand_below; [done | exact Hroot | simpl; auto]).
  assert (source < src)%nat as Hss
    by (eapply operand_below; [done | exact Hsrc | simpl; auto]).
  pose proof (lookupOp_lt _ _ _ Hroot) as Hlt.
  destruct fuel as [|fuel]; [done|]. simpl in Hpre.
  rewrite Hroot in Hpre. opt_inv Hpre. injection Hpre as <-.
  rename E into Hx. destruct fuel as [|fuel]; [done|]. simpl in Hx.
  rewrite Hsrc in Hx. opt_inv Hx. injection Hx as <-. simpl.
  exists (S fuel). simpl.
  assert (lookupOp ir' (length ir)
          = Some (ExtractSliceOp rt source offsets sizes strides)) as ->.
  { rewrite (lookupOp_replaceOp_new _ _ _ _ ltac:(by rewrite Hroot) Hrep).
    f_equal. apply substOperands_id.
    eapply Forall_impl; [exact (Hord src _ Hsrc)|]. simpl. lia. }
  simpl.
  rewrite (eval_agree ir ir' args root Hord
             (replaceOp_below _ _ _ _ _ Hord Hlt Hrep)) by lia.
  match goal with H : eval fuel ir args source = Some _ |- _ =>
    rewrite H end.
  simpl.
  repeat match goal with H : staticShape _ = Some _ |- _ =>
    rewrite H; clear H end.
  repeat match goal with H : staticList _ = Some _ |- _ =>
    rewrite H; simpl end.
  match goal with Hs : staticList sizes = Some ?szs |- _ =>
    assert (mkTensorType szs (getElementType rt) = rt) as ->
      by (rewrite <- HT; unfold inferResultType, RankedTensorType_get;
          simpl; by rewrite (staticList_getStatic sizes szs))
  end.
  rewrite isRankReducedType_refl. rewrite bool_decide_eq_true_2 by done.
  match goal with H : extractSlice _ _ _ _ = Some _ |- _ =>
    rewrite H end.
  done.
Qed.

Lemma FoldInsertOfRankReducingInsert_sound OpTy ir ir' root args fuel t :
  definedBeforeUse ir ->
  FoldInsertOfRankReducingInsert OpTy root ir = Some (success, ir') ->
  eval fuel ir args root = Some t ->
  exists fuel', eval fuel' ir' args (length ir) = Some t.
Proof.
  intros Hord H Hpre.
  apply FoldInsertOfRankReducingInsert_success in H
    as (rt & source & dest & offsets & sizes & strides & ct & x & re & xop
        & destOp & Hroot & Hsrc & Hx & Hdest & HT & Hrep).
  assert (source < root)%nat as Hsr
    by (eapply operand_below; [done | exact Hroot | simpl; auto]).
  assert (dest < root)%nat as Hdr
    by (eapply operand_below; [done | exact Hroot | simpl; auto]).
  assert (x < source)%nat as Hxs
    by (eapply operand_below; [done | exact Hsrc | simpl; auto]).
  pose proof (lookupOp_lt _ _ _ Hroot) as Hlt.
  destruct fuel as [|fuel]; [done|]. simpl in Hpre.
  rewrite Hroot in Hpre. simpl in Hpre.
  destruct (eval fuel ir args source) as [c|] eqn:Hc; [|done].
  destruct (eval fuel ir args dest) as [d|] eqn:Hd; [|done].
  simpl in Hpre.
  destruct fuel as [|fuel]; [done|]. simpl in Hc.
  rewrite Hsrc in Hc. opt_inv Hc. injection Hc as <-. simpl in Hpre.
  rename E into Hy. apply eval_mono in Hy.
  exists (S (S fuel)).
  remember (S fuel) as n eqn:Hn. simpl.
  assert (lookupOp ir' (length ir)
          = Some (InsertOp OpTy (opResultType destOp) x dest offsets sizes
                    strides)) as ->.
  { rewrite (lookupOp_replaceOp_new _ _ _ _ ltac:(by rewrite Hroot) Hrep).
    f_equal. apply substOperands_id. simpl.
    pose proof (Hord root _ Hroot) as Hops. simpl in Hops.
    apply Forall_cons in Hops as [_ Hops].
    constructor; [lia|]. eapply Forall_impl; [exact Hops|]. simpl. lia. }
  simpl.
  rewrite !(eval_agree ir ir' args root Hord
              (replaceOp_below _ _ _ _ _ Hord Hlt Hrep)) by lia.
  rewrite (replaceOp_below _ _ _ _ _ Hord Hlt Hrep x) by lia.
  rewrite Hy, Hd, Hx. simpl.
  rewrite Hsrc in Hpre. opt_inv Hpre. injection Hpre as <-.
  simpl.
  match goal with
  | Hs : staticShape rt = Some ?s,
    Hsz : staticList sizes = Some ?szs,
    Hb : bool_decide (dims d = ?s) && _ = true |- _ =>
      apply andb_prop in Hb as [Hb _];
      apply bool_decide_eq_true in Hb;
      assert (staticShape (opResultType destOp) = Some s) as ->
        by (eapply staticShape_same;
            [exact Hs
            | by rewrite <- (eval_dims _ _ _ _ _ _ Hdest Hd)]);
      simpl; rewrite (bool_decide_eq_true_2 _ Hb);
      (* the pattern's test: the collapse's source has the type of the
         addressed region *)
      rewrite <- HT, (staticList_getStatic sizes szs Hsz),
        isRankReducedType_refl
  end.
  simpl.
  match goal with H : insertSlice _ _ _ _ _ = Some _ |- _ =>
    rewrite H end.
  done.
Qed.

Lemma FoldPaddingExpandIntoInsert_sound OpTy ir ir' root args fuel t :
  definedBeforeUse ir ->
  FoldPaddingExpandIntoInsert OpTy root ir = Some (success, ir') ->
  eval fuel ir args root = Some t ->
  exists fuel', eval fuel' ir' args root = Some t.
Proof.
  intros Hord H Hpre.
  apply FoldPaddingExpandIntoInsert_success in H
    as (rt & source & dest & offsets & sizes & strides & et & x & re & os
        & xop & Hroot & Hsrc & Hx & Hred & ->).
  assert (source < root)%nat as Hsr
    by (eapply operand_below; [done | exact Hroot | simpl; auto]).
  assert (dest < root)%nat as Hdr
    by (eapply operand_below; [done | exact Hroot | simpl; auto]).
  assert (x < source)%nat as Hxs
    by (eapply operand_below; [done | exact Hsrc | simpl; auto]).
  pose proof (lookupOp_lt _ _ _ Hroot) as Hlt.
  destruct fuel as [|fuel]; [done|]. simpl in Hpre.
  rewrite Hroot in Hpre. simpl in Hpre.
  destruct (eval fuel ir args source) as [c|] eqn:Hc; [|done].
  destruct (eval fuel ir args dest) as [d|] eqn:Hd; [|done].
  simpl in Hpre.
  destruct fuel as [|fuel]; [done|]. simpl in Hc.
  rewrite Hsrc in Hc. opt_inv Hc. injection Hc as <-. simpl in Hpre.
  rename E into Hy. apply eval_mono in Hy.
  exists (S (S fuel)).
  remember (S fuel) as n eqn:Hn. simpl.
  rewrite lookupOp_insert_eq by done. simpl.
  rewrite !(eval_agree ir _ args root Hord (insert_below ir root _))
    by lia.
  rewrite (insert_below ir root _ x) by lia.
  rewrite Hy, Hd, Hx. simpl.
  rewrite Hsrc in Hpre. opt_inv Hpre. injection Hpre as <-.
  simpl.
  match goal with
  | Hb : bool_decide (dims d = ?s) && bool_decide (?red = Success) = true
    |- _ =>
      apply andb_prop in Hb as [Hb Hc];
      apply bool_decide_eq_true in Hc;
      rewrite Hb;
      (* the pattern's test: the expand only adds unit dimensions, so
         the rank reduction of the region to the expand's type goes on
         to the type of the expand's source *)
      rewrite (bool_decide_eq_true_2 _
                 (isRankReducedType_trans _ _ _ Hc Hred))
  end.
  simpl.
  match goal with H : insertSlice _ _ _ _ _ = Some _ |- _ =>
    rewrite H end.
  done.
Qed.

(** ** Running a folding pattern on its own product *)

Lemma reshapeSource_collapse ir root kind t source dest offsets sizes strides
    ct x reassociation :
  lookupOp ir root = Some (InsertOp kind t source dest offsets sizes strides) ->
  lookupOp ir source = Some (CollapseShapeOp ct x reassociation) ->
  reshapeSource ir root = Some x.
Proof. intros Hroot Hsrc. unfold reshapeSource. by rewrite Hroot, Hsrc. Qed.

Lemma reshapeSource_expand ir root kind t source dest offsets sizes strides
    et x reassociation outputShape :
  lookupOp ir root = Some (InsertOp kind t source dest offsets sizes strides) ->
  lookupOp ir source = Some (ExpandShapeOp et x reassociation outputShape) ->
  reshapeSource ir root = Some x.
Proof. intros Hroot Hsrc. unfold reshapeSource. by rewrite Hroot, Hsrc. Qed.

(** Collapse-into-insert on the insert it created: it matches again
    exactly when the source of the folded collapse is produced by a
    collapse whose source has the type of its result. *)
Lemma FoldInsertOfRankReducingInsert_again OpTy ir ir' root :
  definedBeforeUse ir -> closedIR ir ->
  FoldInsertOfRankReducingInsert OpTy root ir = Some (success, ir') ->
  let p := PFoldInsertOfRankReducingInsert OpTy in
  ((exists ir'',
      FoldInsertOfRankReducingInsert OpTy (length ir) ir'
      = Some (success, ir'')) <->
   chainFoldable p root ir) /\
  (~ chainFoldable p root ir ->
   FoldInsertOfRankReducingInsert OpTy (length ir) ir'
   = Some (failure None, ir')).
Proof.
  intros Hord Hclosed H p.
  apply FoldInsertOfRankReducingInsert_success in H
    as (rt & source & dest & offs & sizes & strides & ct & x & re & xop
        & destOp & Hroot & Hsrc & Hx & Hdest & HT & Hrep).
  assert (source < root)%nat as Hsr
    by (eapply operand_below; [done | exact Hroot | simpl; auto]).
  assert (dest < root)%nat as Hdr
    by (eapply operand_below; [done | exact Hroot | simpl; auto]).
  assert (x < source)%nat as Hxs
    by (eapply operand_below; [done | exact Hsrc | simpl; auto]).
  pose proof (lookupOp_lt _ _ _ Hroot) as Hlt.
  pose proof (reshapeSource_collapse _ _ _ _ _ _ _ _ _ _ _ _ Hroot Hsrc)
    as Hrs.
  pose proof (replaceOp_below _ _ _ _ _ Hord Hlt Hrep) as Hbelow.
  assert (lookupOp ir' (length ir)
          = Some (InsertOp OpTy (opResultType destOp) x dest offs sizes
                    strides)) as Hnew.
  { rewrite (lookupOp_replaceOp_new _ _ _ _ ltac:(by rewrite Hroot) Hrep).
    f_equal. apply substOperands_id. simpl.
    pose proof (Hord root _ Hroot) as Hops. simpl in Hops.
    apply Forall_cons in Hops as [_ Hops].
    constructor; [lia|]. eapply Forall_impl; [exact Hops|]. simpl. lia. }
  assert (lookupOp ir' x = Some xop) as Hx'
    by (rewrite Hbelow by lia; exact Hx).
  assert (lookupOp ir' dest = Some destOp) as Hdest'
    by (rewrite Hbelow by lia; exact Hdest).
  destruct (isCollapseShape xop) eqn:Hkind.
  - destruct xop as [| | |  |t y re2| |]; try discriminate.
    assert (y < x)%nat as Hyx
      by (eapply operand_below; [done | exact Hx | simpl; auto]).
    pose proof (Hclosed _ _ Hx) as Hlive. simpl in Hlive.
    apply Forall_cons in Hlive as [[yop Hy] _].
    assert (lookupOp ir' y = Some yop) as Hy'
      by (rewrite Hbelow by lia; exact Hy).
    pose proof (FoldInsertOfRankReducingInsert_eq OpTy ir' (length ir)
                  _ _ _ _ _ _ _ _ _ _ _ Hnew Hx' Hy' Hdest') as Heq.
    cbv zeta in Heq. rewrite HT in Heq. simpl in Heq.
    unfold replaceOp in Heq.
    destruct (decide (t = opResultType yop)) as [Ht|Ht].
    + rewrite (bool_decide_eq_true_2 _ Ht) in Heq.
      assert (chainFoldable p root ir) as Hchain
        by (exists x, t, y, re2, yop; auto).
      split; [split|]; [done | intros _; eexists; exact Heq | done].
    + rewrite (bool_decide_eq_false_2 _ Ht) in Heq.
      assert (~ chainFoldable p root ir) as Hno.
      { intros (x0 & t0 & y0 & re0 & yop0 & Hrs0 & Hx0 & Hy0 & Hty).
        rewrite Hrs in Hrs0. injection Hrs0 as <-.
        rewrite Hx in Hx0. injection Hx0 as <- <- <-.
        rewrite Hy in Hy0. injection Hy0 as <-. by apply Ht. }
      split; [split|]; [|done|done].
      intros [ir'' Hs]. rewrite Heq in Hs. discriminate.
  - pose proof (FoldInsertOfRankReducingInsert_other_producer OpTy ir'
                  _ _ _ _ _ _ _ _ _ Hnew Hx' Hkind) as Heq.
    assert (~ chainFoldable p root ir) as Hno.
    { intros (x0 & t0 & y0 & re0 & yop0 & Hrs0 & Hx0 & _).
      rewrite Hrs in Hrs0. injection Hrs0 as <-.
      rewrite Hx in Hx0. injection Hx0 as ->. discriminate. }
    split; [split|]; [|done|done].
    intros [ir'' Hs]. rewrite Heq in Hs. discriminate.
Qed.

(** Expand-into-insert on the insert it modified: it matches again
    exactly when the source of the folded expand is produced by an
    expand that only adds unit dimensions. *)
Lemma FoldPaddingExpandIntoInsert_again OpTy ir ir' root :
  definedBeforeUse ir -> closedIR ir ->
  FoldPaddingExpandIntoInsert OpTy root ir = Some (success, ir') ->
  let p := PFoldPaddingExpandIntoInsert OpTy in
  ((exists ir'',
      FoldPaddingExpandIntoInsert OpTy root ir' = Some (success, ir'')) <->
   chainFoldable p root ir) /\
  (~ chainFoldable p root ir ->
   exists reason,
     FoldPaddingExpandIntoInsert OpTy root ir' = Some (failure reason, ir')).
Proof.
  intros Hord Hclosed H p.
  apply FoldPaddingExpandIntoInsert_success in H
    as (rt & source & dest & offs & sizes & strides & et & x & re & os
        & xop & Hroot & Hsrc & Hx & _ & ->).
  assert (source < root)%nat as Hsr
    by (eapply operand_below; [done | exact Hroot | simpl; auto]).
  assert (x < source)%nat as Hxs
    by (eapply operand_below; [done | exact Hsrc | simpl; auto]).
  pose proof (lookupOp_lt _ _ _ Hroot) as Hlt.
  pose proof (reshapeSource_expand _ _ _ _ _ _ _ _ _ _ _ _ _ Hroot Hsrc)
    as Hrs.
  set (ir' := <[root := _]> ir).
  assert (forall v, (v < root)%nat -> lookupOp ir' v = lookupOp ir v)
    as Hbelow by (intros v Hv; apply insert_below; exact Hv).
  assert (lookupOp ir' root
          = Some (InsertOp OpTy rt x dest offs sizes strides)) as Hnew
    by (by apply lookupOp_insert_eq).
  assert (lookupOp ir' x = Some xop) as Hx'
    by (rewrite Hbelow by lia; exact Hx).
  destruct (isExpandShape xop) eqn:Hkind.
  - destruct xop as [| | |t y re2 os2| | |]; try discriminate.
    assert (y < x)%nat as Hyx
      by (eapply operand_below; [done | exact Hx | simpl; auto]).
    pose proof (Hclosed _ _ Hx) as Hlive. simpl in Hlive.
    apply Forall_cons in Hlive as [[yop Hy] _].
    assert (lookupOp ir' y = Some yop) as Hy'
      by (rewrite Hbelow by lia; exact Hy).
    pose proof (FoldPaddingExpandIntoInsert_eq OpTy ir' root
                  _ _ _ _ _ _ _ _ _ _ _ Hnew Hx' Hy') as Heq.
    destruct (decide (isRankReducedType t (opResultType yop) = Success))
      as [Ht|Ht].
    + rewrite (bool_decide_eq_true_2 _ Ht) in Heq.
      assert (chainFoldable p root ir) as Hchain
        by (exists x, t, y, re2, os2, yop; auto).
      split; [split|]; [done | intros _; eexists; exact Heq | done].
    + rewrite (bool_decide_eq_false_2 _ Ht) in Heq.
      assert (~ chainFoldable p root ir) as Hno.
      { intros (x0 & t0 & y0 & re0 & os0 & yop0 & Hrs0 & Hx0 & Hy0 & Hty).
        rewrite Hrs in Hrs0. injection Hrs0 as <-.
        rewrite Hx in Hx0. injection Hx0 as <- <- <- <-.
        rewrite Hy in Hy0. injection Hy0 as <-. by apply Ht. }
      split; [split|]; [|done|intros _; eexists; exact Heq].
      intros [ir'' Hs]. rewrite Heq in Hs. discriminate.
  - pose proof (FoldPaddingExpandIntoInsert_other_producer OpTy ir'
                  _ _ _ _ _ _ _ _ _ Hnew Hx' Hkind) as Heq.
    assert (~ chainFoldable p root ir) as Hno.
    { intros (x0 & t0 & y0 & re0 & os0 & yop0 & Hrs0 & Hx0 & _).
      rewrite Hrs in Hrs0. injection Hrs0 as <-.
      rewrite Hx in Hx0. injection Hx0 as ->. discriminate. }
    split; [split|]; [|done|intros _; eexists; exact Heq].
    intros [ir'' Hs]. rewrite Heq in Hs. discriminate.
Qed.

(** C8 (as amended).  For the two slice patterns, after one successful
    application the pattern run on the operation that application
    produced never matches (the product is an [ExtractSliceOp], which is
    never their root).  For the two insert patterns, the pattern run on
    the insert it produced (4.3) or modified (4.4) matches again exactly
    when the reshape it folded is itself fed by a reshape it folds: for
    4.3 a collapse whose source has the type of its result, for 4.4 an
    expand that only adds dimensions of static size 1.  In every other
    case the second run reports no-match and leaves the program
    unchanged.  (Programs whose operations are listed after their
    operands and use no erased value.)  [FoldPaddingExpandIntoInsert_matches_again]
    and [FoldInsertOfRankReducingInsert_matches_again] are two programs
    on which the second run matches. *)
Theorem folding_pattern_consumed
    (p : Pattern) (root : Value) (ir ir' : IR) :
  In p (populateReassociativeReshapeFoldingPatterns []) ->
  definedBeforeUse ir -> closedIR ir ->
  matchAndRewrite p root ir = Some (success, ir') ->
  ((exists ir'',
      matchAndRewrite p (producedOp p root ir) ir' = Some (success, ir'')) <->
   chainFoldable p root ir) /\
  (~ chainFoldable p root ir ->
   exists reason,
     matchAndRewrite p (producedOp p root ir) ir'
     = Some (failure reason, ir')).
Proof.
  intros Hp Hord Hclosed H. destruct p as [| |OpTy|OpTy|]; simpl in *.
  - apply FoldExpandOfRankReducingExtract_success in H
      as (? & ? & ? & ? & ? & ? & ? & ? & ? & ? & Hroot & _ & _ & _ & Hrep).
    assert (FoldExpandOfRankReducingExtract (length ir) ir'
            = Some (failure None, ir')) as Heq.
    { eapply FoldExpandOfRankReducingExtract_other_root;
        [eapply lookupOp_replaceOp_new; [|exact Hrep]; by rewrite Hroot
        |done]. }
    rewrite Heq. split; [split|]; [|done|by eexists].
    intros [ir'' Hs]. discriminate.
  - apply FoldUnPaddingCollapseIntoExtract_success in H
      as (? & ? & ? & ? & ? & ? & ? & ? & Hroot & _ & _ & _ & Hrep).
    assert (FoldUnPaddingCollapseIntoExtract (length ir) ir'
            = Some (failure None, ir')) as Heq.
    { eapply FoldUnPaddingCollapseIntoExtract_other_root;
        [eapply lookupOp_replaceOp_new; [|exact Hrep]; by rewrite Hroot
        |done]. }
    rewrite Heq. split; [split|]; [|done|by eexists].
    intros [ir'' Hs]. discriminate.
  - destruct (FoldInsertOfRankReducingInsert_again OpTy ir ir' root
                Hord Hclosed H) as [Hiff Hfail].
    split; [exact Hiff|]. intros Hno. exists None. by apply Hfail.
  - exact (FoldPaddingExpandIntoInsert_again OpTy ir ir' root
             Hord Hclosed H).
  - intuition discriminate.
Qed.

Lemma insertOfCollapse_definedBeforeUse kind :
  definedBeforeUse (insertOfCollapse kind).
Proof.
  intros v op H. unfold insertOfCollapse in H.
  destruct v as [|[|[|[|[|v]]]]]; simpl in H; try discriminate;
    injection H as <-; simpl; repeat constructor.
Qed.

Lemma insertOfCollapse_closedIR kind : closedIR (insertOfCollapse kind).
Proof.
  intros v op H. unfold insertOfCollapse in H.
  destruct v as [|[|[|[|[|v]]]]]; simpl in H; try discriminate;
    injection H as <-; simpl; repeat constructor; by eexists.
Qed.

Lemma folding_pattern_consumed_witness :
  let p := PFoldInsertOfRankReducingInsert ParallelInsertSliceOp in
  let ir := insertOfCollapse ParallelInsertSliceOp in
  let ir' := programAfter (matchAndRewrite p 3%nat) ir in
  ((exists ir'',
      matchAndRewrite p (producedOp p 3%nat ir) ir' = Some (success, ir'')) <->
   chainFoldable p 3%nat ir) /\
  (~ chainFoldable p 3%nat ir ->
   exists reason,
     matchAndRewrite p (producedOp p 3%nat ir) ir'
     = Some (failure reason, ir')).
Proof.
  apply (folding_pattern_consumed
           (PFoldInsertOfRankReducingInsert ParallelInsertSliceOp) 3%nat
           (insertOfCollapse ParallelInsertSliceOp)).
  - simpl. auto 10.
  - apply insertOfCollapse_definedBeforeUse.
  - apply insertOfCollapse_closedIR.
  - reflexivity.
Defined.

Lemma FoldUnPaddingCollapseIntoExtract_sound ir ir' root args fuel t :
  definedBeforeUse ir ->
  FoldUnPaddingCollapseIntoExtract root ir = Some (success, ir') ->
  eval fuel ir args root = Some t ->
  exists fuel', eval fuel' ir' args (length ir) = Some t.
Proof.
  intros Hord H Hpre.
  apply FoldUnPaddingCollapseIntoExtract_success in H
    as (rt & src & re & et & source & offsets & sizes & strides
        & Hroot & Hsrc & _ & Hred & Hrep).
  assert (src < root)%nat as Hsr
    by (eapply operand_below; [done | exact Hroot | simpl; auto]).
  assert (source < src)%nat as Hss
    by (eapply operand_below; [done | exact Hsrc | simpl; auto]).
  pose proof (lookupOp_lt _ _ _ Hroot) as Hlt.
  destruct fuel as [|fuel]; [done|]. simpl in Hpre.
  rewrite Hroot in Hpre. opt_inv Hpre. injection Hpre as <-.
  rename E into Hx. destruct fuel as [|fuel]; [done|]. simpl in Hx.
  rewrite Hsrc in Hx. opt_inv Hx. injection Hx as <-. simpl.
  exists (S fuel). simpl.
  assert (lookupOp ir' (length ir)
          = Some (ExtractSliceOp rt source offsets sizes strides)) as ->.
  { rewrite (lookupOp_replaceOp_new _ _ _ _ ltac:(by rewrite Hroot) Hrep).
    f_equal. apply substOperands_id.
    eapply Forall_impl; [exact (Hord src _ Hsrc)|]. simpl. lia. }
  simpl.
  rewrite (eval_agree ir ir' args root Hord
             (replaceOp_below _ _ _ _ _ Hord Hlt Hrep)) by lia.
  match goal with H : eval fuel ir args source = Some _ |- _ =>
    rewrite H end.
  simpl.
  repeat match goal with H : staticShape _ = Some _ |- _ =>
    rewrite H; clear H end.
  repeat match goal with H : staticList _ = Some _ |- _ =>
    rewrite H; simpl end.
  match goal with
  | Hc : bool_decide (isRankReducedType ?full et = Success) = true |- _ =>
      apply bool_decide_eq_true in Hc;
      pose proof (isRankReducedType_trans _ _ _ Hc Hred) as Htr;
      apply isRankReducedType_Success in Htr as [Hu He];
      apply isRankReducedType_Success in Hred as [_ He2]
  end.
  rewrite bool_decide_eq_true_2.
  - match goal with H : extractSlice _ _ _ _ = Some _ |- _ =>
      rewrite H end.
    done.
  - apply isRankReducedType_Success. simpl in *. split; [done|congruence].
Qed.

(** X1.  Each folding pattern leaves the value at the root unchanged: if
    the root denotes a tensor before a successful application (static
    shapes, operations listed after their operands), the operation the
    application produced denotes the same tensor afterwards. *)
Theorem folding_patterns_preserve_value
    (p : Pattern) (root : Value) (ir ir' : IR)
    (args : Value -> option Tensor) (fuel : nat) (t : Tensor) :
  In p (populateReassociativeReshapeFoldingPatterns []) ->
  definedBeforeUse ir ->
  matchAndRewrite p root ir = Some (success, ir') ->
  eval fuel ir args root = Some t ->
  exists fuel', eval fuel' ir' args (producedOp p root ir) = Some t.
Proof.
  intros Hp Hord H Hpre. destruct p as [| |OpTy|OpTy|]; simpl in *.
  - by eapply FoldExpandOfRankReducingExtract_sound.
  - by eapply FoldUnPaddingCollapseIntoExtract_sound.
  - by eapply FoldInsertOfRankReducingInsert_sound.
  - by eapply FoldPaddingExpandIntoInsert_sound.
  - intuition discriminate.
Qed.

(** X2.  Each folding pattern hands the users of the root a value of the
    root's type (for the insert patterns, given that the insert's result
    type is its destination's type, as the operation requires). *)
Theorem folding_patterns_preserve_type
    (p : Pattern) (root : Value) (ir ir' : IR) :
  In p (populateReassociativeReshapeFoldingPatterns []) ->
  matchAndRewrite p root ir = Some (success, ir') ->
  (forall kind t source dest offsets sizes strides destOp,
     lookupOp ir root
     = Some (InsertOp kind t source dest offsets sizes strides) ->
     lookupOp ir dest = Some destOp -> t = opResultType destOp) ->
  opResultType <$> lookupOp ir' (producedOp p root ir)
  = opResultType <$> lookupOp ir root.
Proof.
  intros Hp H Hinv. destruct p as [| |OpTy|OpTy|]; simpl in *.
  - apply FoldExpandOfRankReducingExtract_success in H
      as (? & ? & ? & ? & ? & ? & ? & ? & ? & ? & Hroot & _ & _ & _ & Hrep).
    rewrite (lookupOp_replaceOp_new _ _ _ _ ltac:(by rewrite Hroot) Hrep).
    by rewrite Hroot.
  - apply FoldUnPaddingCollapseIntoExtract_success in H
      as (? & ? & ? & ? & ? & ? & ? & ? & Hroot & _ & _ & _ & Hrep).
    rewrite (lookupOp_replaceOp_new _ _ _ _ ltac:(by rewrite Hroot) Hrep).
    by rewrite Hroot.
  - apply FoldInsertOfRankReducingInsert_success in H
      as (? & ? & ? & ? & ? & ? & ? & ? & ? & ? & ? & Hroot & _ & _ & Hdest
          & _ & Hrep).
    rewrite (lookupOp_replaceOp_new _ _ _ _ ltac:(by rewrite Hroot) Hrep).
    rewrite Hroot. simpl. f_equal. symmetry. by eapply Hinv.
  - apply FoldPaddingExpandIntoInsert_success in H
      as (? & ? & ? & ? & ? & ? & ? & ? & ? & ? & ? & Hroot & _ & _ & _ & ->).
    rewrite lookupOp_insert_eq by (by eapply lookupOp_lt).
    by rewrite Hroot.
  - intuition discriminate.
Qed.

Lemma folding_patterns_preserve_type_witness :
  opResultType
    <$> lookupOp
          (programAfter (FoldInsertOfRankReducingInsert InsertSliceOp 3%nat)
             (insertOfCollapse InsertSliceOp)) 5%nat
  = opResultType <$> lookupOp (insertOfCollapse InsertSliceOp) 3%nat.
Proof.
  apply (folding_patterns_preserve_type
           (PFoldInsertOfRankReducingInsert InsertSliceOp) 3%nat
           (insertOfCollapse InsertSliceOp)).
  - simpl. auto.
  - reflexivity.
  - intros kind t source dest offsets sizes strides destOp Hroot Hdest.
    vm_compute in Hroot. injection Hroot as <- <- <- <- <- <- <-.
    vm_compute in Hdest. injection Hdest as <-. reflexivity.
Defined.

(** ** The bubble-up pattern on static shapes with non-empty
       reassociations *)

Lemma mapM_subscript_seqZ {A} (l : list A) :
  forall (k : nat) (a : Z),
  0 <= a -> (Z.to_nat a + k <= length l)%nat ->
  mapM (subscript l) (seqZ a (Z.of_nat k))
  = Some (take k (drop (Z.to_nat a) l)).
Proof.
  induction k as [|k IH]; intros a Ha Hk.
  - by rewrite seqZ_nil.
  - rewrite seqZ_cons by lia.
    replace (Z.pred (Z.of_nat (S k))) with (Z.of_nat k) by lia.
    destruct (l !! Z.to_nat a) as [x|] eqn:Hx;
      [|apply lookup_ge_None in Hx; lia].
    rewrite (drop_S _ _ _ Hx). simpl.
    rewrite subscript_of_nat, Hx by done. simpl.
    rewrite IH by lia.
    by replace (Z.to_nat (Z.succ a)) with (S (Z.to_nat a)) by lia.
Qed.

Lemma collapsedDim_static (l : list Z) :
  Forall isStatic l -> collapsedDim l = fold_right Z.mul 1 l.
Proof.
  intros Hl. unfold collapsedDim.
  assert (existsb isDynamic l = false) as ->; [|done].
  induction Hl as [|d l Hd _ IH]; simpl; [done|].
  rewrite IH. unfold isDynamic. by rewrite bool_decide_eq_false_2.
Qed.

Lemma collapsedDim_one (d : Z) : collapsedDim [d] = d.
Proof.
  unfold collapsedDim, isDynamic. simpl.
  case_bool_decide; simpl; [done | lia].
Qed.

Lemma collapseShape_cons shape g groups :
  collapseShape shape (g :: groups)
  = (d ← collapsedDim <$> mapM (subscript shape) g;
     rest ← collapseShape shape groups; Some (d :: rest)).
Proof. done. Qed.

Lemma collapseShape_app shape groups1 groups2 :
  collapseShape shape (groups1 ++ groups2)
  = (a ← collapseShape shape groups1;
     b ← collapseShape shape groups2; Some (a ++ b)).
Proof.
  induction groups1 as [|g groups1 IH].
  - change (collapseShape shape []) with (Some (@nil Z)). simpl.
    by destruct (collapseShape shape groups2).
  - rewrite <- app_comm_cons, !collapseShape_cons, IH.
    destruct (collapsedDim <$> mapM (subscript shape) g); simpl; [|done].
    destruct (collapseShape shape groups1); simpl; [|done].
    by destruct (collapseShape shape groups2).
Qed.

Lemma collapseShape_group shape (k : nat) (a : Z) :
  0 <= a -> (Z.to_nat a + k <= length shape)%nat ->
  collapseShape shape [seqZ a (Z.of_nat k)]
  = Some [collapsedDim (take k (drop (Z.to_nat a) shape))].
Proof.
  intros Ha Hk. rewrite collapseShape_cons.
  by rewrite mapM_subscript_seqZ.
Qed.

Lemma collapseShape_singletons shape :
  forall (k : nat) (a : Z),
  0 <= a -> (Z.to_nat a + k <= length shape)%nat ->
  collapseShape shape (singletons (seqZ a (Z.of_nat k)))
  = Some (take k (drop (Z.to_nat a) shape)).
Proof.
  induction k as [|k IH]; intros a Ha Hk.
  - by rewrite seqZ_nil.
  - rewrite seqZ_cons by lia.
    replace (Z.pred (Z.of_nat (S k))) with (Z.of_nat k) by lia.
    destruct (shape !! Z.to_nat a) as [x|] eqn:Hx;
      [|apply lookup_ge_None in Hx; lia].
    change (singletons (a :: seqZ (Z.succ a) (Z.of_nat k)))
      with ([a] :: singletons (seqZ (Z.succ a) (Z.of_nat k))).
    rewrite collapseShape_cons, IH by lia.
    rewrite (drop_S _ _ _ Hx).
    replace (Z.to_nat (Z.succ a)) with (S (Z.to_nat a)) by lia.
    simpl. rewrite subscript_of_nat, Hx by done. simpl.
    by rewrite collapsedDim_one.
Qed.

Lemma take_drop_block {A} (pre blk post : list A) (n : nat) :
  length pre = n ->
  take (length blk) (drop n (pre ++ blk ++ post)) = blk.
Proof.
  intros <-. rewrite drop_app_length. apply take_app_length.
Qed.

Lemma take_one_drop {A} (l : list A) (i : nat) :
  (i + 1 <= length l)%nat ->
  exists x, take 1 (drop i l) = [x] /\ l !! i = Some x.
Proof.
  intros Hi. destruct (l !! i) as [x|] eqn:Hx;
    [|apply lookup_ge_None in Hx; lia].
  exists x. by rewrite (drop_S _ _ _ Hx).
Qed.

Lemma seqZ_app_inj (g rest : list Z) (a : Z) (n : nat) :
  g ++ rest = seqZ a (Z.of_nat (length g + n)) ->
  g = seqZ a (Z.of_nat (length g)) /\
  rest = seqZ (a + Z.of_nat (length g)) (Z.of_nat n).
Proof.
  rewrite Nat2Z.inj_add, seqZ_app by lia. intros H.
  apply app_inj_1 in H; [done|]. rewrite length_seqZ. lia.
Qed.

Lemma shapeBlock_length xs rs (s ei ci : Z) (c e : nat) :
  0 <= ci -> 0 <= ei ->
  (Z.to_nat ci + c <= length xs)%nat ->
  (Z.to_nat ei + e <= length rs)%nat ->
  length (shapeBlock xs rs (mkPosition s ei ci c e)) = posWidth c e.
Proof.
  intros Hci Hei Hc He. unfold shapeBlock, posWidth. simpl.
  case_bool_decide; rewrite length_take, length_drop; lia.
Qed.

Lemma shapeBlock_static xs rs p :
  Forall isStatic xs -> Forall isStatic rs ->
  Forall isStatic (shapeBlock xs rs p).
Proof.
  intros Hx Hr. unfold shapeBlock.
  case_bool_decide; by apply Forall_take, Forall_drop.
Qed.

Lemma bubble_shapes (xs rs : list Z) :
  forall (cs es : list ReassociationIndices) (s ei ci : Z)
         (cshape pre post : list Z),
  length es = length cs ->
  Forall parallelAt (zip cs es) ->
  0 <= ci -> 0 <= ei -> 0 <= s ->
  concat cs = seqZ ci (Z.of_nat (sum_list (map length cs))) ->
  concat es = seqZ ei (Z.of_nat (sum_list (map length es))) ->
  (Z.to_nat ci + sum_list (map length cs) <= length xs)%nat ->
  (Z.to_nat ei + sum_list (map length es) <= length rs)%nat ->
  collapseShape xs cs = Some cshape ->
  collapseShape rs es = Some cshape ->
  length pre = Z.to_nat s ->
  let ps := positions s ei ci (zip cs es) in
  let shape := pre ++ concat (map (shapeBlock xs rs) ps) ++ post in
  collapseShape shape (concat (map expandBlock ps))
  = Some (take (sum_list (map length cs)) (drop (Z.to_nat ci) xs)) /\
  collapseShape shape (concat (map collapseBlock ps))
  = Some (take (sum_list (map length es)) (drop (Z.to_nat ei) rs)).
Proof.
  induction cs as [|cg cs IH];
    intros [|eg es] s ei ci cshape pre post Hlen Hpar Hci Hei Hs Hcc Hce
      Hcx Hcr Hvx Hvr Hlpre; try done.
  simpl in Hlen, Hcc, Hce, Hcx, Hcr.
  apply Forall_cons in Hpar as [Hp Hpar]. unfold parallelAt in Hp.
  simpl in Hp.
  apply seqZ_app_inj in Hcc as [Hcg Hcc].
  apply seqZ_app_inj in Hce as [Heg Hce].
  rewrite collapseShape_cons in Hvx, Hvr.
  rewrite Hcg, mapM_subscript_seqZ in Hvx by lia.
  rewrite Heg, mapM_subscript_seqZ in Hvr by lia.
  simpl in Hvx, Hvr.
  destruct (collapseShape xs cs) as [restx|] eqn:Hrestx; [|done].
  destruct (collapseShape rs es) as [restr|] eqn:Hrestr; [|done].
  simpl in Hvx, Hvr. injection Hvx as <-. injection Hvr as Hd Hrest.
  subst restr.
  set (c := length cg) in *. set (e := length eg) in *.
  set (p := mkPosition s ei ci c e).
  set (blk := shapeBlock xs rs p).
  assert (length blk = posWidth c e) as Hblk
    by (apply shapeBlock_length; lia).
  cbv zeta. simpl positions. fold c e p. simpl map. simpl concat.
  fold blk.
  set (ps := positions _ _ _ _).
  set (rest := concat (map (shapeBlock xs rs) ps)).
  destruct (IH es (s + Z.of_nat (posWidth c e)) (ei + Z.of_nat e)
              (ci + Z.of_nat c) restx (pre ++ blk) post)
    as [IHe IHc]; try done; try lia.
  { rewrite length_app. lia. }
  fold ps in IHe, IHc. fold rest in IHe, IHc.
  rewrite <- !app_assoc in IHe, IHc.
  set (shape := pre ++ (blk ++ rest) ++ post).
  assert (shape = pre ++ blk ++ rest ++ post) as Hshape
    by (unfold shape; by rewrite <- !app_assoc).
  rewrite <- Hshape in IHe, IHc.
  assert (take (posWidth c e) (drop (Z.to_nat s) shape) = blk) as Htd.
  { rewrite Hshape, <- Hblk. by apply take_drop_block. }
  assert (Z.to_nat s + posWidth c e <= length shape)%nat as Hin.
  { rewrite Hshape, !length_app. lia. }
  rewrite !collapseShape_app, IHe, IHc.
  replace (Z.to_nat (ci + Z.of_nat c)) with (Z.to_nat ci + c)%nat by lia.
  replace (Z.to_nat (ei + Z.of_nat e)) with (Z.to_nat ei + e)%nat by lia.
  change (sum_list (length cg :: map length cs))
    with (c + sum_list (map length cs))%nat.
  change (sum_list (length eg :: map length es))
    with (e + sum_list (map length es))%nat.
  rewrite <- !drop_drop, <- !take_take_drop.
  unfold expandBlock, collapseBlock, posDims. simpl.
  unfold blk, shapeBlock, posWidth in *. simpl in *.
  destruct (decide (c = 1%nat)) as [Hc1|Hc1].
  - rewrite (bool_decide_eq_false_2 (c <> 1%nat)) in * by lia.
    rewrite collapseShape_group, collapseShape_singletons by (done || lia).
    rewrite Htd. simpl. rewrite Hd.
    destruct (take_one_drop xs (Z.to_nat ci) ltac:(lia)) as (x & Hx & Hlx).
    rewrite Hc1. rewrite Hx. by rewrite collapsedDim_one.
  - rewrite (bool_decide_eq_true_2 (c <> 1%nat)) in * by lia.
    assert (e = 1%nat) as He1 by lia.
    rewrite collapseShape_group, collapseShape_singletons by (done || lia).
    rewrite Htd. simpl. rewrite <- Hd.
    destruct (take_one_drop rs (Z.to_nat ei) ltac:(lia)) as (r & Hr & Hlr).
    rewrite He1. rewrite Hr. by rewrite collapsedDim_one.
Qed.

Lemma length_concat_groups (groups : list ReassociationIndices) :
  length (concat groups) = sum_list (map length groups).
Proof.
  induction groups as [|g groups IH]; simpl; [done|].
  by rewrite length_app, IH.
Qed.

Lemma cover_sum (groups : list ReassociationIndices) (n : nat) :
  concat groups = seqZ 0 (Z.of_nat n) -> sum_list (map length groups) = n.
Proof.
  intros H. rewrite <- length_concat_groups, H, length_seqZ. lia.
Qed.

Lemma reshapeValid_nonempty expanded collapsed reassociation :
  reshapeValid expanded collapsed reassociation = true ->
  reassociation <> [] ->
  concat reassociation = seqZ 0 (Z.of_nat (length expanded)) /\
  collapseShape expanded reassociation = Some collapsed.
Proof.
  unfold reshapeValid. intros H Hne.
  apply andb_prop in H as [Hcover Hshape].
  apply bool_decide_eq_true in Hshape. split; [|done].
  apply orb_prop in Hcover as [Hcover|Hzero].
  - by apply bool_decide_eq_true in Hcover.
  - apply andb_prop in Hzero as [Hnil _].
    by apply bool_decide_eq_true in Hnil.
Qed.

Lemma reshapeValid_cover expanded collapsed reassociation :
  concat reassociation = seqZ 0 (Z.of_nat (length expanded)) ->
  collapseShape expanded reassociation = Some collapsed ->
  reshapeValid expanded collapsed reassociation = true.
Proof.
  intros Hcover Hshape. unfold reshapeValid.
  by rewrite (bool_decide_eq_true_2 _ Hcover),
    (bool_decide_eq_true_2 _ Hshape).
Qed.

Lemma collapseShape_length shape groups collapsed :
  collapseShape shape groups = Some collapsed ->
  length collapsed = length groups.
Proof.
  unfold collapseShape. intros H. apply mapM_Some_1 in H.
  symmetry. by eapply Forall2_length.
Qed.

Lemma staticShape_static t shape :
  staticShape t = Some shape -> Forall isStatic shape.
Proof.
  unfold staticShape. destruct (existsb isDynamic (getShape t)) eqn:Hd;
    [done|].
  intros [= <-]. apply Forall_forall. intros d Hin Hdyn.
  assert (existsb isDynamic (getShape t) = true); [|congruence].
  apply existsb_exists. exists d. split; [by apply list_elem_of_In|].
  unfold isDynamic. by apply bool_decide_eq_true.
Qed.

Lemma eval_staticShape fuel ir args v op t :
  lookupOp ir v = Some op -> eval fuel ir args v = Some t ->
  staticShape (opResultType op) = Some (dims t).
Proof.
  intros Hop H. destruct fuel as [|fuel]; [done|].
  simpl in H. rewrite Hop in H. simpl in H.
  destruct op; opt_inv H; try discriminate; injection H as <-; simpl;
    try done.
  match goal with E : _ && _ = true |- _ =>
    apply andb_prop in E as [E _]; by apply bool_decide_eq_true in E end.
Qed.

Lemma getMixedSizesFrom_static value shape :
  Forall isStatic shape ->
  forall i ir,
  getMixedSizesFrom value shape i ir = Some (map Attr shape, ir).
Proof.
  induction 1 as [|d shape Hd _ IH]; intros i ir; [done|].
  simpl. unfold bind at 1. unfold isDynamic.
  rewrite (bool_decide_eq_false_2 _ Hd). unfold ret at 1.
  unfold bind. by rewrite IH.
Qed.

Lemma getMixedSizes_static value ir op shape :
  lookupOp ir value = Some op ->
  staticShape (opResultType op) = Some shape ->
  getMixedSizes value ir = Some (map Attr shape, ir).
Proof.
  intros Hop Hs. unfold getMixedSizes, bind.
  rewrite (getType_run _ _ _ Hop).
  rewrite <- (staticShape_Some _ _ Hs).
  apply getMixedSizesFrom_static. by eapply staticShape_static.
Qed.

Lemma getStatic_static (l : list OpFoldResult) (shape : list Z) :
  getStatic l = shape -> Forall isStatic shape -> l = map Attr shape.
Proof.
  intros <- H. induction l as [|o l IH]; simpl in *; [done|].
  apply Forall_cons in H as [Ho H]. rewrite <- IH by done.
  destruct o; [done|]. by destruct Ho.
Qed.

Lemma getStatic_attrs (shape : list Z) : getStatic (map Attr shape) = shape.
Proof. induction shape; simpl; [done | by f_equal]. Qed.

Lemma dynamicOf_attrs (shape : list Z) : dynamicOf (map Attr shape) = [].
Proof. induction shape; simpl; done. Qed.

Lemma sizesBlock_attrs xs rs p :
  sizesBlock (map Attr xs) (map Attr rs) p = map Attr (shapeBlock xs rs p).
Proof.
  unfold sizesBlock, shapeBlock.
  change (map Attr) with (fmap (M := list) Attr).
  case_bool_decide; by rewrite fmap_take, fmap_drop.
Qed.

Lemma sizesBlocks_attrs xs rs ps :
  concat (map (sizesBlock (map Attr xs) (map Attr rs)) ps)
  = map Attr (concat (map (shapeBlock xs rs) ps)).
Proof.
  induction ps as [|p ps IH]; simpl; [done|].
  by rewrite IH, sizesBlock_attrs, map_app.
Qed.

Lemma clone_same (t : RankedTensorType) (shape shape' : list Z) :
  getShape t = shape' -> clone (clone t shape) shape' = t.
Proof. intros <-. by destruct t. Qed.

(** The bubble-up pattern on a valid expand of a valid collapse, both
    of static shape and with non-empty reassociations: the new expand
    and the new collapse are valid reshapes through the intermediate
    shape, and the new collapse has the type of the old expand. *)
Lemma BubbleUp_static_result ir root rt src es os ct x cs xop xs rs cshape :
  lookupOp ir root = Some (ExpandShapeOp rt src es os) ->
  lookupOp ir src = Some (CollapseShapeOp ct x cs) ->
  lookupOp ir x = Some xop ->
  staticShape (opResultType xop) = Some xs ->
  staticShape rt = Some rs ->
  getStatic os = rs ->
  es <> [] ->
  reshapeValid rs cshape es = true ->
  reshapeValid xs cshape cs = true ->
  Forall parallelAt (zip cs es) ->
  exists shape newE newC,
    BubbleUpExpandThroughParallelCollapse root ir
    = match replaceOp root (S (length ir))
              (ir ++ [Some (ExpandShapeOp (clone rt shape) x newE
                              (map Attr shape));
                      Some (CollapseShapeOp rt (length ir) newC)]) with
      | Some (_, ir') => Some (success, ir')
      | None => None
      end /\
    Forall isStatic shape /\
    reshapeValid shape xs newE = true /\
    reshapeValid shape rs newC = true.
Proof.
  intros Hroot Hsrc Hx Hxs Hrs Hos Hne V1 V2 Hpar.
  apply reshapeValid_nonempty in V1 as [Hcover_e Hshape_e]; [|done].
  pose proof (collapseShape_length _ _ _ Hshape_e) as Hlen_e.
  assert (cs <> []) as Hne_c.
  { intros ->. unfold reshapeValid in V2.
    apply andb_prop in V2 as [_ V2]. apply bool_decide_eq_true in V2.
    apply collapseShape_length in V2. simpl in V2.
    destruct es; [done|]. simpl in Hlen_e. lia. }
  apply reshapeValid_nonempty in V2 as [Hcover_c Hshape_c]; [|done].
  pose proof (collapseShape_length _ _ _ Hshape_c) as Hlen_c.
  assert (length es = length cs) as Hlen by lia.
  pose proof (staticShape_static _ _ Hxs) as Hst_x.
  pose proof (staticShape_static _ _ Hrs) as Hst_r.
  pose proof (cover_sum _ _ Hcover_e) as Hsum_e.
  pose proof (cover_sum _ _ Hcover_c) as Hsum_c.
  apply getStatic_static in Hos; [|done]. subst os.
  set (ps := positions 0 0 0 (zip cs es)).
  set (shape := concat (map (shapeBlock xs rs) ps)).
  destruct (bubbleLoop_parallel es cs (map Attr xs) (map Attr rs) Hlen Hpar)
    as (st & Hloop & HE & HC & HS & HR);
    [by rewrite length_map | by rewrite length_map |].
  simpl in HE, HC, HS. fold ps in HE, HC, HS, HR.
  rewrite sizesBlocks_attrs in HS. fold shape in HS.
  destruct (bubble_shapes xs rs cs es 0 0 0 cshape [] [])
    as [Hnew_e Hnew_c]; try done; try lia.
  { by rewrite Hsum_c. }
  { by rewrite Hsum_e. }
  cbv zeta in Hnew_e, Hnew_c. fold ps in Hnew_e, Hnew_c.
  fold shape in Hnew_e, Hnew_c. simpl in Hnew_e, Hnew_c.
  rewrite app_nil_r, Hsum_c, drop_0, firstn_all in Hnew_e.
  rewrite app_nil_r, Hsum_e, drop_0, firstn_all in Hnew_c.
  assert (Forall isStatic shape) as Hst_s.
  { unfold shape. apply Forall_concat, Forall_forall.
    intros b Hb. apply list_elem_of_fmap in Hb as (q & -> & _).
    by apply shapeBlock_static. }
  assert (length shape = totalWidth (zip cs es)) as Hlen_s.
  { pose proof (positions_sizes_length _ _ _ HR) as Hl. fold ps in Hl.
    rewrite sizesBlocks_attrs in Hl. fold shape in Hl.
    rewrite length_map in Hl. rewrite Hl. apply positions_widths. }
  exists shape, (concat (map expandBlock ps)), (concat (map collapseBlock ps)).
  split; [|split; [done|split]].
  - rewrite (BubbleUpExpandThroughParallelCollapse_eq _ _ _ _ _ _ _ _ _
               Hroot Hsrc).
    rewrite (proj2 (areParallel_true es cs) (conj Hlen Hpar)).
    rewrite (getMixedSizes_static _ _ _ _ Hx Hxs), Hloop.
    cbv zeta. rewrite HS, HE, HC, getStatic_attrs.
    unfold inferCollapsedType. simpl. rewrite Hnew_c. simpl.
    rewrite clone_same by (symmetry; by apply staticShape_Some).
    done.
  - apply reshapeValid_cover; [|done].
    rewrite Hlen_s. apply positions_expand_cover.
  - apply reshapeValid_cover; [|done].
    rewrite Hlen_s. apply positions_collapse_cover.
Qed.

Lemma eval_lookup fuel ir args v t :
  eval fuel ir args v = Some t -> exists op, lookupOp ir v = Some op.
Proof.
  destruct fuel as [|fuel]; [done|]. simpl.
  destruct (lookupOp ir v) as [op|]; [eauto | done].
Qed.

Lemma fmap_Some_fixed {A} (f : A -> A) (x : A) :
  f x = x -> f <$> Some x = Some x.
Proof. intros H. simpl. by rewrite H. Qed.

Lemma staticShape_clone t shape :
  Forall isStatic shape -> staticShape (clone t shape) = Some shape.
Proof.
  intros Hs. unfold staticShape, clone. simpl.
  assert (existsb isDynamic shape = false) as ->; [|done].
  induction Hs as [|d shape Hd _ IH]; simpl; [done|].
  rewrite IH. unfold isDynamic. by rewrite bool_decide_eq_false_2.
Qed.

Lemma BubbleUp_success_producer ir ir' root rt src es os :
  lookupOp ir root = Some (ExpandShapeOp rt src es os) ->
  BubbleUpExpandThroughParallelCollapse root ir = Some (success, ir') ->
  exists ct x cs,
    lookupOp ir src = Some (CollapseShapeOp ct x cs) /\
    areParallel es cs = Some true.
Proof.
  intros Hroot H. pose proof H as H0.
  unfold BubbleUpExpandThroughParallelCollapse in H0.
  apply bind_Some in H0 as (rootOp & ir0 & Hget & H0).
  apply getOp_Some in Hget as [Hget ->]. rewrite Hroot in Hget.
  injection Hget as <-.
  apply bind_Some in H0 as (producer & ir0 & Hsrc & H0).
  apply getOp_Some in Hsrc as [Hsrc ->].
  destruct producer; try (unfold ret in H0; discriminate).
  clear H0. eexists _, _, _. split; [exact Hsrc|].
  rewrite (BubbleUpExpandThroughParallelCollapse_eq _ _ _ _ _ _ _ _ _
             Hroot Hsrc) in H.
  by destruct (areParallel es reassociation) as [[|]|].
Qed.

(** X3.  The bubble-up pattern preserves the value and the type at the
    root when the reassociations are not empty (static shapes,
    operations listed after their operands, output sizes matching the
    result type). *)
Theorem BubbleUp_static_sound ir ir' root args fuel t rt src es os :
  definedBeforeUse ir ->
  lookupOp ir root = Some (ExpandShapeOp rt src es os) ->
  es <> [] ->
  getStatic os = getShape rt ->
  BubbleUpExpandThroughParallelCollapse root ir = Some (success, ir') ->
  eval fuel ir args root = Some t ->
  (exists fuel', eval fuel' ir' args (S (length ir)) = Some t) /\
  opResultType <$> lookupOp ir' (S (length ir)) = Some rt.
Proof.
  intros Hord Hroot Hne Hos H Hpre.
  destruct (BubbleUp_success_producer _ _ _ _ _ _ _ Hroot H)
    as (ct & x & cs & Hsrc & Hpar).
  apply areParallel_true in Hpar as [_ Hpar].
  assert (src < root)%nat as Hsr
    by (eapply operand_below; [done | exact Hroot | simpl; auto]).
  assert (x < src)%nat as Hxs
    by (eapply operand_below; [done | exact Hsrc | simpl; auto]).
  pose proof (lookupOp_lt _ _ _ Hroot) as Hlt.
  destruct fuel as [|fuel]; [done|]. simpl in Hpre.
  rewrite Hroot in Hpre. simpl in Hpre.
  destruct (eval fuel ir args src) as [c|] eqn:Hc; [|done]. simpl in Hpre.
  destruct (staticShape rt) as [rs|] eqn:Hrs; [|done]. simpl in Hpre.
  destruct (reshapeValid rs (dims c) es) eqn:V1; [|done].
  injection Hpre as <-.
  destruct fuel as [|fuel]; [done|]. simpl in Hc.
  rewrite Hsrc in Hc. simpl in Hc.
  destruct (eval fuel ir args x) as [y|] eqn:Hy; [|done]. simpl in Hc.
  destruct (staticShape ct) as [cshape|] eqn:Hcs; [|done]. simpl in Hc.
  destruct (reshapeValid (dims y) cshape cs) eqn:V2; [|done].
  injection Hc as <-. simpl in V1 |- *.
  destruct (eval_lookup _ _ _ _ _ Hy) as [xop Hx].
  pose proof (eval_staticShape _ _ _ _ _ _ Hx Hy) as Hxshape.
  pose proof (staticShape_Some _ _ Hrs) as Hrs'.
  destruct (BubbleUp_static_result ir root rt src es os ct x cs xop
              (dims y) rs cshape Hroot Hsrc Hx Hxshape Hrs
              ltac:(by rewrite Hos) Hne V1 V2 Hpar)
    as (shape & newE & newC & Hrun & Hst & VE & VC).
  rewrite Hrun in H.
  destruct (replaceOp _ _ _) as [[[] irx]|] eqn:Hrep; [|done].
  injection H as ->.
  assert (lookupOp ir' (length ir)
          = Some (ExpandShapeOp (clone rt shape) x newE (map Attr shape)))
    as HE.
  { rewrite (lookupOp_replaceOp _ _ _ _ _ Hrep) by lia.
    unfold lookupOp. rewrite lookup_app_r, Nat.sub_diag by lia.
    apply fmap_Some_fixed, substOperands_id. simpl.
    rewrite dynamicOf_attrs. constructor; [lia | constructor]. }
  assert (lookupOp ir' (S (length ir))
          = Some (CollapseShapeOp rt (length ir) newC)) as HC.
  { rewrite (lookupOp_replaceOp _ _ _ _ _ Hrep) by lia.
    unfold lookupOp. rewrite lookup_app_r by lia.
    replace (S (length ir) - length ir)%nat with 1%nat by lia.
    apply fmap_Some_fixed, substOperands_id. simpl.
    constructor; [lia | constructor]. }
  split; [|by rewrite HC].
  exists (S (S fuel)). remember (S fuel) as n eqn:Hn. simpl.
  rewrite HC. simpl. rewrite Hn. simpl. rewrite HE. simpl.
  rewrite (eval_agree ir ir' args root Hord
             (replaceOp_below _ _ _ _ _ Hord Hlt Hrep)) by lia.
  rewrite Hy. simpl. rewrite staticShape_clone by done. simpl.
  rewrite VE. simpl. rewrite Hrs. simpl. by rewrite VC.
Qed.

(** The preservation theorems on sample programs. *)

Lemma expandOfStaticParallelCollapse_definedBeforeUse :
  definedBeforeUse expandOfStaticParallelCollapse.
Proof.
  intros v op H. unfold expandOfStaticParallelCollapse in H.
  destruct v as [|[|[|[|v]]]]; simpl in H; try discriminate;
    injection H as <-; simpl; repeat constructor.
Qed.

Lemma insertOfExpandOfExpand_definedBeforeUse :
  definedBeforeUse insertOfExpandOfExpand.
Proof.
  intros v op H. unfold insertOfExpandOfExpand in H.
  destruct v as [|[|[|[|[|[|v]]]]]]; simpl in H; try discriminate;
    injection H as <-; simpl; repeat constructor.
Qed.

Lemma folding_patterns_preserve_value_witness :
  exists fuel',
    eval fuel'
      (programAfter (FoldPaddingExpandIntoInsert InsertSliceOp 4%nat)
         insertOfExpandOfExpand)
      (iotas [[4]; [1; 8; 1]]) 4%nat
    = Some (mkTensor [1; 8; 1] [0; 1; 0; 1; 2; 3; 6; 7]).
Proof.
  apply (folding_patterns_preserve_value
           (PFoldPaddingExpandIntoInsert InsertSliceOp) 4%nat
           insertOfExpandOfExpand _ (iotas [[4]; [1; 8; 1]]) 4%nat).
  - simpl. auto 10.
  - apply insertOfExpandOfExpand_definedBeforeUse.
  - reflexivity.
  - reflexivity.
Defined.

Lemma BubbleUp_static_sound_witness :
  (exists fuel',
     eval fuel'
       (programAfter (BubbleUpExpandThroughParallelCollapse 2%nat)
          expandOfStaticParallelCollapse)
       (iota [2; 3; 4]) 5%nat
     = Some (mkTensor [6; 2; 2] (seqZ 0 24))) /\
  opResultType
    <$> lookupOp
          (programAfter (BubbleUpExpandThroughParallelCollapse 2%nat)
             expandOfStaticParallelCollapse) 5%nat
  = Some (f32 [6; 2; 2]).
Proof.
  apply (BubbleUp_static_sound expandOfStaticParallelCollapse _ 2%nat
           (iota [2; 3; 4]) 3%nat _ (f32 [6; 2; 2]) 1%nat [[0]; [1; 2]]
           (attrs [6; 2; 2])).
  - apply expandOfStaticParallelCollapse_definedBeforeUse.
  - reflexivity.
  - discriminate.
  - reflexivity.
  - reflexivity.
  - reflexivity.
Defined.

(** ** The 0-d case is not preserved *)

(** C1 (the code at the failing input).  On the 0-d program the expand
    denotes the one-element [tensor<1x1x1xf32>] holding the element of
    the source.  The pattern succeeds, and the value it substitutes
    denotes nothing: the new expand goes from the rank-2 source to a
    rank-0 result with no groups, which is not a reshape, so there is no
    function on the original result shape to compare with.  (The four
    folding patterns, and the bubble-up pattern on non-empty
    reassociations, do preserve the value: see
    [folding_patterns_preserve_value] and [BubbleUp_static_sound].) *)
Theorem BubbleUp_rank_zero_not_preserved (e : Z) (fuel : nat) :
  eval 3 expandOfRankZeroCollapse (oneElement e) 2%nat
  = Some (mkTensor [1; 1; 1] [e]) /\
  elementAt (mkTensor [1; 1; 1] [e]) [0; 0; 0] = Some e /\
  BubbleUpExpandThroughParallelCollapse 2%nat expandOfRankZeroCollapse
  = Some (success, bubbledRankZeroCollapse) /\
  lookupOp bubbledRankZeroCollapse 4%nat
  = Some (ExpandShapeOp (f32 []) 0%nat [] []) /\
  eval fuel bubbledRankZeroCollapse (oneElement e) 5%nat = None.
Proof.
  repeat split; try reflexivity.
  destruct fuel as [|[|[|fuel]]]; reflexivity.
Qed.

(** ** More on the bubble-up pattern *)

Lemma getMixedSizesFrom_live value shape :
  forall i ir, exists sizes dims,
    getMixedSizesFrom value shape i ir = Some (sizes, ir ++ dims) /\
    getStatic sizes = shape /\
    length sizes = length shape /\
    Forall (fun o => exists j, o = Some (DimOp value j)) dims /\
    Forall (fun u => exists j, lookupOp (ir ++ dims) u
                               = Some (DimOp value j)) (dynamicOf sizes).
Proof.
  induction shape as [|d shape IH]; intros i ir.
  - exists [], []. simpl. unfold ret. rewrite app_nil_r.
    repeat split; constructor.
  - simpl. unfold bind at 1. unfold isDynamic.
    destruct (decide (d = kDynamic)) as [Hd|Hd].
    + rewrite (bool_decide_eq_true_2 _ Hd). unfold bind at 1, create, ret.
      destruct (IH (i + 1) (ir ++ [Some (DimOp value i)]))
        as (sizes & dims & Hrun & Hst & Hlen & Hdims & Hlive).
      exists (Val (length ir) :: sizes), (Some (DimOp value i) :: dims).
      unfold bind. rewrite Hrun. rewrite <- app_assoc in Hlive |- *.
      simpl in *.
      split; [done|]. split; [by rewrite Hst, Hd|]. split; [lia|].
      split; [constructor; eauto|].
      constructor; [|done]. exists i.
      unfold lookupOp. rewrite lookup_app_r, Nat.sub_diag by lia. done.
    + rewrite (bool_decide_eq_false_2 _ Hd). unfold ret at 1.
      destruct (IH (i + 1) ir)
        as (sizes & dims & Hrun & Hst & Hlen & Hdims & Hlive).
      exists (Attr d :: sizes), dims.
      unfold bind. rewrite Hrun. unfold ret. simpl.
      split; [done|]. split; [by rewrite Hst|]. split; [lia|]. done.
Qed.

Lemma getMixedSizes_live value ir op :
  lookupOp ir value = Some op ->
  exists sizes dims,
    getMixedSizes value ir = Some (sizes, ir ++ dims) /\
    getStatic sizes = getShape (opResultType op) /\
    length sizes = getRank (opResultType op) /\
    Forall (fun o => exists j, o = Some (DimOp value j)) dims /\
    Forall (fun u => exists j, lookupOp (ir ++ dims) u
                               = Some (DimOp value j)) (dynamicOf sizes).
Proof.
  intros H. unfold getMixedSizes, bind.
  rewrite (getType_run _ _ _ H). apply getMixedSizesFrom_live.
Qed.

(** A successful run of the bubble-up pattern, taken apart. *)
Lemma BubbleUp_success_inv ir ir' root :
  BubbleUpExpandThroughParallelCollapse root ir = Some (success, ir') ->
  exists rt src es os ct x cs xop sizes dims crt,
    let ps := positions 0 0 0 (zip cs es) in
    let newSizes := concat (map (sizesBlock sizes os) ps) in
    let ir1 := ir ++ dims in
    lookupOp ir root = Some (ExpandShapeOp rt src es os) /\
    lookupOp ir src = Some (CollapseShapeOp ct x cs) /\
    lookupOp ir x = Some xop /\
    length es = length cs /\
    Forall parallelAt (zip cs es) /\
    getStatic sizes = getShape (opResultType xop) /\
    length sizes = getRank (opResultType xop) /\
    Forall (fun o => exists j, o = Some (DimOp x j)) dims /\
    Forall (fun u => exists j, lookupOp ir1 u = Some (DimOp x j))
      (dynamicOf sizes) /\
    Forall (blockInRange sizes os) ps /\
    inferCollapsedType (clone rt (getStatic newSizes))
      (concat (map collapseBlock ps)) = Some crt /\
    replaceOp root (S (length ir1))
      (ir1 ++
       [Some (ExpandShapeOp (clone rt (getStatic newSizes)) x
                (concat (map expandBlock ps)) newSizes);
        Some (CollapseShapeOp crt (length ir1)
                (concat (map collapseBlock ps)))])
    = Some (tt, ir').
Proof.
  intros H. pose proof H as H0.
  unfold BubbleUpExpandThroughParallelCollapse in H0.
  apply bind_Some in H0 as (rootOp & ir0 & Hroot & H0).
  apply getOp_Some in Hroot as [Hroot ->].
  destruct rootOp; try (unfold ret in H0; discriminate).
  apply bind_Some in H0 as (producer & ir0 & Hsrc & H0).
  apply getOp_Some in Hsrc as [Hsrc ->].
  destruct producer; try (unfold ret in H0; discriminate).
  clear H0.
  rewrite (BubbleUpExpandThroughParallelCollapse_eq _ _ _ _ _ _ _ _ _
             Hroot Hsrc) in H.
  destruct (areParallel reassociation reassociation0) as [[|]|] eqn:Hp;
    try discriminate.
  apply areParallel_true in Hp as [Hlen Hpar].
  destruct (getMixedSizes src0 ir) as [[sizes ir1]|] eqn:Hsizes;
    [|discriminate].
  assert (exists xop, lookupOp ir src0 = Some xop) as [xop Hx].
  { unfold getMixedSizes in Hsizes.
    apply bind_Some in Hsizes as (t & ir0 & Hty & _).
    apply getType_Some in Hty as (xop & Hx & _). eauto. }
  destruct (getMixedSizes_live _ _ _ Hx)
    as (sizes' & dims & Hrun & Hst & Hlsz & Hdims & Hlive).
  rewrite Hrun in Hsizes. injection Hsizes as -> <-.
  destruct (bubbleLoop _ _ _ _ _ _) as [st|] eqn:Hloop; [|discriminate].
  cbv zeta in H.
  destruct (inferCollapsedType _ _) as [crt|] eqn:Hinfer; [|discriminate].
  apply bubbleLoop_inv in Hloop; simpl; try done.
  change (drop 0 reassociation) with reassociation in Hloop.
  simpl in Hloop. destruct Hloop as (HE & HC & HS & HR).
  simpl in HE, HC, HS. rewrite HE, HC, HS in H. rewrite HC, HS in Hinfer.
  destruct (replaceOp _ _ _) as [[[] irx]|] eqn:Hrep; [|discriminate].
  injection H as ->.
  eexists _, _, _, _, _, _, _, xop, sizes, dims, crt. cbv zeta.
  repeat (split; [eassumption|]). exact Hrep.
Qed.

Lemma lookupOp_app_second (ir : IR) (a b : Operation) :
  lookupOp (ir ++ [Some a; Some b]) (S (length ir)) = Some b.
Proof.
  unfold lookupOp. rewrite lookup_app_r by lia.
  by replace (S (length ir) - length ir)%nat with 1%nat by lia.
Qed.

Lemma lookupOp_app_first (ir : IR) (a b : Operation) :
  lookupOp (ir ++ [Some a; Some b]) (length ir) = Some a.
Proof.
  unfold lookupOp. rewrite lookup_app_r by lia.
  by rewrite Nat.sub_diag.
Qed.

(** X4.  With empty reassociations on both reshapes (a 0-d collapsed
    tensor) the bubble-up pattern always succeeds: the first loop has
    nothing to reject and the second nothing to do.  It creates an
    expand with no groups and no sizes and a collapse with no groups,
    both of the 0-d type, and replaces the root by the collapse; the
    replacement has the root's type only if the root is 0-d itself. *)
Theorem BubbleUp_empty_reassociations
    (ir : IR) (root : Value) (rt : RankedTensorType) (src : Value)
    (os : list OpFoldResult) (ct : RankedTensorType) (x : Value)
    (xop : Operation) :
  lookupOp ir root = Some (ExpandShapeOp rt src [] os) ->
  lookupOp ir src = Some (CollapseShapeOp ct x []) ->
  lookupOp ir x = Some xop ->
  exists sizes dims ir',
    let ir1 := ir ++ dims in
    getMixedSizes x ir = Some (sizes, ir1) /\
    BubbleUpExpandThroughParallelCollapse root ir = Some (success, ir') /\
    replaceOp root (S (length ir1))
      (ir1 ++ [Some (ExpandShapeOp (clone rt []) x [] []);
               Some (CollapseShapeOp (clone rt []) (length ir1) [])])
    = Some (tt, ir') /\
    opResultType <$> lookupOp ir' (S (length ir1)) = Some (clone rt []) /\
    (getShape rt <> [] -> clone rt [] <> rt).
Proof.
  intros Hroot Hsrc Hx.
  destruct (getMixedSizes_live _ _ _ Hx)
    as (sizes & dims & Hrun & _ & _ & _ & _).
  exists sizes, dims. eexists. cbv zeta.
  split; [exact Hrun|].
  rewrite (BubbleUpExpandThroughParallelCollapse_eq _ _ _ _ _ _ _ _ _
             Hroot Hsrc).
  rewrite Hrun. simpl. unfold replaceOp.
  split; [reflexivity|]. split; [reflexivity|]. split.
  - pose proof (lookupOp_lt _ _ _ Hroot) as Hlt.
    unfold lookupOp. rewrite list_lookup_insert_ne
      by (rewrite length_app; lia).
    rewrite list_lookup_fmap.
    pose proof (lookupOp_app_second (ir ++ dims)
                  (ExpandShapeOp (clone rt []) x [] [])
                  (CollapseShapeOp (clone rt []) (length (ir ++ dims)) []))
      as Hl.
    unfold lookupOp in Hl.
    destruct (((ir ++ dims) ++ _) !! S (length (ir ++ dims)))
      as [[op|]|]; simpl in Hl; try discriminate.
    injection Hl as ->. done.
  - intros Hne Heq. apply Hne. by rewrite <- Heq.
Qed.

Lemma BubbleUp_empty_reassociations_witness :
  exists sizes dims ir',
    let ir1 := expandOfRankZeroCollapse ++ dims in
    getMixedSizes 0%nat expandOfRankZeroCollapse = Some (sizes, ir1) /\
    BubbleUpExpandThroughParallelCollapse 2%nat expandOfRankZeroCollapse
    = Some (success, ir') /\
    replaceOp 2%nat (S (length ir1))
      (ir1 ++ [Some (ExpandShapeOp (clone (f32 [1; 1; 1]) []) 0%nat [] []);
               Some (CollapseShapeOp (clone (f32 [1; 1; 1]) [])
                       (length ir1) [])])
    = Some (tt, ir') /\
    opResultType <$> lookupOp ir' (S (length ir1))
    = Some (clone (f32 [1; 1; 1]) []) /\
    (getShape (f32 [1; 1; 1]) <> [] ->
     clone (f32 [1; 1; 1]) [] <> f32 [1; 1; 1]).
Proof.
  exact (BubbleUp_empty_reassociations expandOfRankZeroCollapse 2%nat
           (f32 [1; 1; 1]) 1%nat (attrs [1; 1; 1]) (f32 []) 0%nat
           (BlockArgument (f32 [1; 1])) eq_refl eq_refl eq_refl).
Defined.

(** ** The patterns leave no dangling use *)

Lemma dynamicOf_subst old new l :
  dynamicOf (map (substOFR old new) l) = map (substValue old new) (dynamicOf l).
Proof.
  induction l as [|[z|v] l IH]; simpl; [done| |]; by rewrite ?IH.
Qed.

Lemma getOperands_subst old new op :
  getOperands (substOperands old new op)
  = map (substValue old new) (getOperands op).
Proof.
  destruct op; simpl; rewrite ?map_app, ?dynamicOf_subst; reflexivity.
Qed.

Lemma Forall_dynamicOf (P : Value -> Prop) l :
  Forall P (dynamicOf l) <-> Forall (fun o => forall v, o = Val v -> P v) l.
Proof.
  induction l as [|[z|v] l IH]; simpl.
  - split; constructor.
  - rewrite IH. split.
    + intros H. constructor; [discriminate | done].
    + by inversion 1.
  - rewrite Forall_cons, Forall_cons, IH. split.
    + intros [Hv Hl]. split; [|done]. by intros ? [= <-].
    + intros [Hv Hl]. split; [by apply Hv | done].
Qed.

Lemma Forall_dynamicOf_block (P : Value -> Prop) l n m :
  Forall P (dynamicOf l) -> Forall P (dynamicOf (take n (drop m l))).
Proof.
  rewrite !Forall_dynamicOf. intros H.
  by apply Forall_take, Forall_drop.
Qed.

Lemma Forall_dynamicOf_concat (P : Value -> Prop) ls :
  Forall (fun l => Forall P (dynamicOf l)) ls ->
  Forall P (dynamicOf (concat ls)).
Proof.
  induction 1 as [|l ls Hl _ IH]; simpl; [constructor|].
  unfold dynamicOf in *. rewrite flat_map_app. by apply Forall_app.
Qed.

Lemma live_app ir extra v : live ir v -> live (ir ++ extra) v.
Proof.
  intros [op Hop]. exists op. by apply lookupOp_app_old.
Qed.

Lemma closedIR_app ir op :
  closedIR ir -> Forall (live ir) (getOperands op) ->
  closedIR (ir ++ [Some op]).
Proof.
  intros Hc Hop v op' Hv.
  destruct (decide (v < length ir)%nat) as [Hlt|Hge].
  - unfold lookupOp in Hv. rewrite lookup_app_l in Hv by done.
    eapply Forall_impl; [exact (Hc v op' Hv)|].
    intros u Hu. by apply live_app.
  - assert (v = length ir) as ->.
    { apply lookupOp_lt in Hv. rewrite length_app in Hv. simpl in Hv. lia. }
    rewrite lookupOp_app_new in Hv. injection Hv as <-.
    eapply Forall_impl; [exact Hop|].
    intros u Hu. by apply live_app.
Qed.

Lemma closedIR_app_dims ir x dims :
  closedIR ir -> live ir x ->
  Forall (fun o => exists j, o = Some (DimOp x j)) dims ->
  closedIR (ir ++ dims).
Proof.
  intros Hc Hx Hdims. revert ir Hc Hx.
  induction Hdims as [|o dims [j ->] _ IH]; intros ir Hc Hx.
  - by rewrite app_nil_r.
  - change (Some (DimOp x j) :: dims) with ([Some (DimOp x j)] ++ dims).
    rewrite app_assoc. apply IH.
    + apply closedIR_app; [done|]. simpl. by repeat constructor.
    + by apply live_app.
Qed.

Lemma closedIR_replaceOp ir ir' old new :
  closedIR ir -> live ir new -> new <> old ->
  replaceOp old new ir = Some (tt, ir') ->
  closedIR ir'.
Proof.
  intros Hc [nop Hnew] Hne Hrep.
  assert (forall u, live ir u -> live ir' (substValue old new u)) as Hlive.
  { intros u [uop Hu]. unfold substValue, live. case_bool_decide as Hold.
    - rewrite (lookupOp_replaceOp _ _ _ _ _ Hrep) by done.
      rewrite Hnew. by eexists.
    - rewrite (lookupOp_replaceOp _ _ _ _ _ Hrep) by done.
      rewrite Hu. by eexists. }
  intros v op Hv.
  destruct (decide (v = old)) as [->|Hvo].
  - exfalso. unfold replaceOp in Hrep. injection Hrep as <-.
    unfold lookupOp in Hv.
    destruct (decide (old < length (map (fmap (substOperands old new)) ir))%nat).
    + by rewrite list_lookup_insert_eq in Hv.
    + rewrite lookup_ge_None_2 in Hv by (rewrite length_insert; lia).
      discriminate.
  - rewrite (lookupOp_replaceOp _ _ _ _ _ Hrep) in Hv by done.
    destruct (lookupOp ir v) as [op0|] eqn:Hv0; [|discriminate].
    simpl in Hv. injection Hv as <-.
    rewrite getOperands_subst. apply Forall_map.
    eapply Forall_impl; [exact (Hc v op0 Hv0)|]. exact Hlive.
Qed.

Lemma live_insert ir root op u :
  live ir root -> live ir u -> live (<[root := Some op]> ir) u.
Proof.
  intros [rop Hr] [uop Hu]. unfold live.
  destruct (decide (u = root)) as [->|Hne].
  - rewrite lookupOp_insert_eq by (eapply lookupOp_lt; exact Hr). by eexists.
  - unfold lookupOp in *. rewrite list_lookup_insert_ne by done.
    rewrite Hu. by eexists.
Qed.

Lemma closedIR_insert ir root op :
  closedIR ir -> live ir root -> Forall (live ir) (getOperands op) ->
  closedIR (<[root := Some op]> ir).
Proof.
  intros Hc Hr Hop v op' Hv.
  destruct (decide (v = root)) as [->|Hne].
  - pose proof Hr as [rop Hrop].
    rewrite lookupOp_insert_eq in Hv by (eapply lookupOp_lt; exact Hrop).
    injection Hv as <-.
    eapply Forall_impl; [exact Hop|]. intros u. by apply live_insert.
  - unfold lookupOp in Hv. rewrite list_lookup_insert_ne in Hv by done.
    eapply Forall_impl; [exact (Hc v op' Hv)|].
    intros u. by apply live_insert.
Qed.

Lemma closedIR_replace_new ir ir' root op :
  closedIR ir -> live ir root -> Forall (live ir) (getOperands op) ->
  replaceOp root (length ir) (ir ++ [Some op]) = Some (tt, ir') ->
  closedIR ir'.
Proof.
  intros Hc [rop Hr] Hop Hrep.
  eapply closedIR_replaceOp; [| | |exact Hrep].
  - by apply closedIR_app.
  - exists op. apply lookupOp_app_new.
  - apply lookupOp_lt in Hr. lia.
Qed.

Lemma sizesBlocks_Forall (P : Value -> Prop) sizes os ps :
  Forall P (dynamicOf sizes) -> Forall P (dynamicOf os) ->
  Forall P (dynamicOf (concat (map (sizesBlock sizes os) ps))).
Proof.
  intros Hs Ho. apply Forall_dynamicOf_concat, Forall_map, Forall_forall.
  intros p _. unfold sizesBlock.
  case_bool_decide; by apply Forall_dynamicOf_block.
Qed.

(** X5.  A successful application of any of the five patterns leaves
    no dangling use: if every operand of every operation of the program
    is defined and not erased before, the same holds after.  The
    operands of the created operations are operands of the matched ones
    (or the [tensor.dim] operations created for the sizes), and every
    use of an erased root has been redirected to its replacement. *)
Theorem patterns_preserve_closedIR (p : Pattern) (root : Value)
    (ir ir' : IR) :
  closedIR ir ->
  matchAndRewrite p root ir = Some (success, ir') ->
  closedIR ir'.
Proof.
  intros Hc Hrun. destruct p as [| |OpTy|OpTy|]; simpl in Hrun.
  - apply FoldExpandOfRankReducingExtract_success in Hrun
      as (rt & src & re & os & et & source & o & sz & st & sop
          & Hroot & Hsrc & Hsource & _ & Hrep).
    refine (closedIR_replace_new _ _ _ _ Hc _ _ Hrep); [by eexists|].
    exact (Hc _ _ Hsrc).
  - apply FoldUnPaddingCollapseIntoExtract_success in Hrun
      as (rt & src & re & et & source & o & sz & st
          & Hroot & Hsrc & _ & _ & Hrep).
    refine (closedIR_replace_new _ _ _ _ Hc _ _ Hrep); [by eexists|].
    exact (Hc _ _ Hsrc).
  - apply FoldInsertOfRankReducingInsert_success in Hrun
      as (rt & source & dest & o & sz & st & ct & csrc & re & csop & dop
          & Hroot & Hsrc & Hcsrc & Hdest & _ & Hrep).
    refine (closedIR_replace_new _ _ _ _ Hc _ _ Hrep); [by eexists|].
    pose proof (Hc _ _ Hroot) as Hops. simpl in Hops |- *.
    apply Forall_cons in Hops as [_ Hops].
    apply Forall_cons. split; [by eexists | exact Hops].
  - apply FoldPaddingExpandIntoInsert_success in Hrun
      as (rt & source & dest & o & sz & st & et & esrc & re & os & esop
          & Hroot & Hsrc & Hesrc & _ & ->).
    apply closedIR_insert; [exact Hc | by eexists |].
    pose proof (Hc _ _ Hroot) as Hops. simpl in Hops |- *.
    apply Forall_cons in Hops as [_ Hops].
    apply Forall_cons. split; [by eexists | exact Hops].
  - apply BubbleUp_success_inv in Hrun
      as (rt & src & es & os & ct & x & cs & xop & sizes & dims & crt
          & Hroot & Hsrc & Hx & _ & _ & _ & _ & Hdims & Hdyn & _ & _ & Hrep).
    cbv zeta in Hdyn, Hrep.
    assert (closedIR (ir ++ dims)) as Hc1.
    { eapply closedIR_app_dims; [exact Hc | by eexists | exact Hdims]. }
    set (ir1 := ir ++ dims) in *.
    set (ps := positions 0 0 0 (zip cs es)) in *.
    set (E := ExpandShapeOp _ x _ _) in Hrep.
    set (C := CollapseShapeOp crt (length ir1) _) in Hrep.
    assert (closedIR (ir1 ++ [Some E; Some C])) as Hc2.
    { change [Some E; Some C] with ([Some E] ++ [Some C]).
      rewrite app_assoc. apply closedIR_app; [apply closedIR_app|].
      - exact Hc1.
      - subst E. simpl. apply Forall_cons. split.
        + apply live_app. by eexists.
        + apply sizesBlocks_Forall.
          * eapply Forall_impl; [exact Hdyn|].
            intros u [j Hu]. by eexists.
          * pose proof (Hc _ _ Hroot) as Hops. simpl in Hops.
            apply Forall_cons in Hops as [_ Hops].
            eapply Forall_impl; [exact Hops|].
            intros u. apply live_app.
      - subst C. simpl. repeat constructor.
        exists E. apply lookupOp_app_new. }
    eapply closedIR_replaceOp; [exact Hc2 | | | exact Hrep].
    + exists C. apply lookupOp_app_second.
    + apply lookupOp_lt in Hroot. subst ir1. rewrite length_app. lia.
Qed.

Lemma expandOfParallelCollapse_closedIR : closedIR expandOfParallelCollapse.
Proof.
  intros v op H. unfold expandOfParallelCollapse in H.
  destruct v as [|[|[|[|[|v]]]]]; simpl in H; try discriminate;
    injection H as <-; simpl; repeat constructor; by eexists.
Qed.

Lemma patterns_preserve_closedIR_witness : closedIR bubbledParallelCollapse.
Proof.
  apply (patterns_preserve_closedIR PBubbleUpExpandThroughParallelCollapse
           3%nat expandOfParallelCollapse).
  - apply expandOfParallelCollapse_closedIR.
  - vm_compute. reflexivity.
Defined.

(** ** What a replacement does to the rest of the program *)

Lemma lookupOp_replaceOp_root ir ir' old new :
  replaceOp old new ir = Some (tt, ir') -> lookupOp ir' old = None.
Proof.
  unfold replaceOp. intros H. injection H as <-. unfold lookupOp.
  destruct (decide (old < length (map (fmap (substOperands old new)) ir))%nat).
  - by rewrite list_lookup_insert_eq.
  - by rewrite lookup_ge_None_2 by (rewrite length_insert; lia).
Qed.

Lemma replaceOp_length ir ir' old new :
  replaceOp old new ir = Some (tt, ir') -> length ir' = length ir.
Proof.
  unfold replaceOp. intros H. injection H as <-.
  by rewrite length_insert, length_map.
Qed.

(** X6.  Every pattern but the in-place one ([FoldPaddingExpandIntoInsert])
    erases its root on success, adds operations only at the end, and
    changes an existing operation in one way only: an operand that was
    the root now names the operation created last.  In particular an
    operation that did not use the root is left exactly as it was. *)
Theorem replacing_patterns_redirect_uses (p : Pattern) (root : Value)
    (ir ir' : IR) :
  (forall OpTy, p <> PFoldPaddingExpandIntoInsert OpTy) ->
  matchAndRewrite p root ir = Some (success, ir') ->
  lookupOp ir' root = None /\
  (length ir < length ir')%nat /\
  (forall v op, v <> root -> lookupOp ir v = Some op ->
     lookupOp ir' v = Some (substOperands root (length ir' - 1) op)) /\
  (forall v op, v <> root -> lookupOp ir v = Some op ->
     ~ In root (getOperands op) -> lookupOp ir' v = Some op).
Proof.
  intros Hp Hrun.
  assert (exists extra,
            replaceOp root (length (ir ++ extra) - 1) (ir ++ extra)
            = Some (tt, ir') /\ extra <> []) as (extra & Hrep & Hne).
  { destruct p as [| |OpTy|OpTy|]; simpl in Hrun.
    - apply FoldExpandOfRankReducingExtract_success in Hrun
        as (rt & src & re & os & et & source & o & sz & st & sop
            & _ & _ & _ & _ & Hrep).
      eexists [_]. rewrite length_app. simpl length.
      replace (length ir + 1 - 1)%nat with (length ir) by lia.
      split; [exact Hrep | discriminate].
    - apply FoldUnPaddingCollapseIntoExtract_success in Hrun
        as (rt & src & re & et & source & o & sz & st
            & _ & _ & _ & _ & Hrep).
      eexists [_]. rewrite length_app. simpl length.
      replace (length ir + 1 - 1)%nat with (length ir) by lia.
      split; [exact Hrep | discriminate].
    - apply FoldInsertOfRankReducingInsert_success in Hrun
        as (rt & source & dest & o & sz & st & ct & csrc & re & csop & dop
            & _ & _ & _ & _ & _ & Hrep).
      eexists [_]. rewrite length_app. simpl length.
      replace (length ir + 1 - 1)%nat with (length ir) by lia.
      split; [exact Hrep | discriminate].
    - by destruct (Hp OpTy).
    - apply BubbleUp_success_inv in Hrun
        as (rt & src & es & os & ct & x & cs & xop & sizes & dims & crt
            & _ & _ & _ & _ & _ & _ & _ & _ & _ & _ & _ & Hrep).
      cbv zeta in Hrep. rewrite <- app_assoc in Hrep.
      eexists (dims ++ [_; _]). split; [|by destruct dims].
      rewrite <- Hrep. f_equal. rewrite !length_app. simpl. lia. }
  pose proof (replaceOp_length _ _ _ _ Hrep) as Hlen.
  assert (length extra <> 0)%nat as Hpos by (by destruct extra).
  rewrite length_app in Hlen.
  assert (forall v op, v <> root -> lookupOp ir v = Some op ->
            lookupOp ir' v = Some (substOperands root (length ir' - 1) op))
    as Hold.
  { intros v op Hv Hop.
    rewrite (lookupOp_replaceOp_old _ _ _ _ _ _ _ Hrep Hv Hop).
    by rewrite length_app, Hlen. }
  split; [exact (lookupOp_replaceOp_root _ _ _ _ Hrep)|].
  split; [lia|]. split; [exact Hold|].
  intros v op Hv Hop Hnot. rewrite (Hold v op Hv Hop).
  f_equal. apply substOperands_id, Forall_forall.
  intros u Hu ->. by apply Hnot, list_elem_of_In.
Qed.

Lemma replacing_patterns_redirect_uses_witness :
  let ir' := programAfter (FoldExpandOfRankReducingExtract 2%nat)
               expandOfExtract in
  lookupOp ir' 2%nat = None /\
  (length expandOfExtract < length ir')%nat /\
  (forall v op, v <> 2%nat -> lookupOp expandOfExtract v = Some op ->
     lookupOp ir' v = Some (substOperands 2%nat (length ir' - 1) op)) /\
  (forall v op, v <> 2%nat -> lookupOp expandOfExtract v = Some op ->
     ~ In 2%nat (getOperands op) -> lookupOp ir' v = Some op).
Proof.
  apply (replacing_patterns_redirect_uses PFoldExpandOfRankReducingExtract
           2%nat expandOfExtract).
  - intros OpTy. discriminate.
  - reflexivity.
Defined.

(** ** The slice a folded collapse leaves behind *)

Lemma filter_eq_absent (v : Value) (l : list Value) :
  ~ In v l -> filter (fun u => u = v) l = [].
Proof.
  induction l as [|u l IH]; [done|]. intros Hnot.
  rewrite filter_cons. destruct (decide (u = v)) as [->|_].
  - exfalso. apply Hnot. by left.
  - apply IH. intros Hin. apply Hnot. by right.
Qed.

Lemma filter_eq_present (v : Value) (l : list Value) :
  In v l -> (1 <= length (filter (fun u => u = v) l))%nat.
Proof.
  induction l as [|u l IH]; [done|]. intros [->|Hin].
  - rewrite filter_cons_True by done. simpl. lia.
  - rewrite filter_cons. destruct (decide (u = v)); simpl; [lia | auto].
Qed.

Lemma countUses_cons (o : option Operation) (ir : IR) (v : Value) :
  countUses (o :: ir) v
  = (length (filter (fun u => u = v)
               (match o with Some op => getOperands op | None => [] end))
     + countUses ir v)%nat.
Proof.
  unfold countUses. simpl. by rewrite filter_app, length_app.
Qed.

Lemma countUses_zero (ir : IR) (v : Value) :
  countUses ir v = 0%nat <->
  forall w op, lookupOp ir w = Some op -> ~ In v (getOperands op).
Proof.
  split.
  - intros Hz w op Hw Hin.
    pose proof (countUses_pos _ _ _ _ Hw Hin). lia.
  - induction ir as [|o ir IH]; [done|]. intros Hno.
    rewrite countUses_cons, IH.
    + destruct o as [op|]; [|done].
      rewrite filter_eq_absent; [done|]. by apply (Hno 0%nat).
    + intros w op Hw. exact (Hno (S w) op Hw).
Qed.

Lemma countUses_one_other (ir : IR) (user v : Value) (uop : Operation) :
  lookupOp ir user = Some uop -> In v (getOperands uop) ->
  countUses ir v = 1%nat ->
  forall w op, w <> user -> lookupOp ir w = Some op ->
               ~ In v (getOperands op).
Proof.
  revert user. induction ir as [|o ir IH]; intros user Huser Hin Hone;
    [done|].
  rewrite countUses_cons in Hone.
  destruct user as [|user].
  - unfold lookupOp in Huser. simpl in Huser. subst o.
    pose proof (filter_eq_present _ _ Hin) as Hge.
    assert (countUses ir v = 0%nat) as Hz by lia.
    intros [|w] op Hw Hop; [done|].
    exact (proj1 (countUses_zero ir v) Hz w op Hop).
  - assert (lookupOp ir user = Some uop) as Huser' by exact Huser.
    pose proof (countUses_pos _ _ _ _ Huser' Hin) as Hge.
    intros [|w] op Hw Hop.
    + unfold lookupOp in Hop. simpl in Hop. subst o. intros Hin'.
      pose proof (filter_eq_present _ _ Hin'). lia.
    + assert (countUses ir v = 1%nat) as Hone' by lia.
      apply (IH user Huser' Hin Hone' w op); [congruence | exact Hop].
Qed.

(** X7.  After the collapse-into-extract pattern succeeds the original
    slice is dead: it is still in the program, and no operation uses it
    any more (its one user, the collapse, is erased, and the slice
    created in its place reads the slice's source, not the slice). *)
Theorem FoldUnPaddingCollapseIntoExtract_leaves_extract_dead
    (root : Value) (ir ir' : IR) :
  FoldUnPaddingCollapseIntoExtract root ir = Some (success, ir') ->
  exists resultType src reassociation,
    lookupOp ir root = Some (CollapseShapeOp resultType src reassociation) /\
    countUses ir src = 1%nat /\
    live ir' src /\
    countUses ir' src = 0%nat.
Proof.
  intros Hrun.
  apply FoldUnPaddingCollapseIntoExtract_success in Hrun
    as (rt & src & re & et & source & o & sz & st
        & Hroot & Hsrc & Hone & _ & Hrep).
  exists rt, src, re.
  assert (src <> root) as Hsr.
  { intros ->. rewrite Hroot in Hsrc. discriminate. }
  assert (In src (getOperands (CollapseShapeOp rt src re))) as Huse
    by (simpl; auto).
  pose proof (countUses_one_other _ _ _ _ Hroot Huse Hone) as Hothers.
  split; [exact Hroot|]. split; [exact Hone|]. split.
  - unfold live.
    rewrite (lookupOp_replaceOp_old _ _ _ _ _ _ _ Hrep Hsr Hsrc).
    by eexists.
  - apply countUses_zero. intros w op' Hw Hin.
    destruct (decide (w = root)) as [->|Hwr].
    { rewrite (lookupOp_replaceOp_root _ _ _ _ Hrep) in Hw. discriminate. }
    rewrite (lookupOp_replaceOp _ _ _ _ _ Hrep) in Hw by done.
    assert (exists op, op' = substOperands root (length ir) op /\
                       ~ In src (getOperands op)) as (op & -> & Hnot).
    { destruct (decide (w < length ir)%nat) as [Hlt|Hge].
      - unfold lookupOp in Hw. rewrite lookup_app_l in Hw by done.
        destruct (mjoin (ir !! w)) as [op|] eqn:Hop; [|discriminate].
        injection Hw as <-. exists op. split; [done|].
        by apply (Hothers w).
      - destruct (lookupOp (ir ++ _) w) as [op|] eqn:Hop; [|discriminate].
        injection Hw as <-.
        assert (w = length ir) as ->.
        { apply lookupOp_lt in Hop. rewrite length_app in Hop.
          simpl in Hop. lia. }
        rewrite lookupOp_app_new in Hop. injection Hop as <-.
        eexists. split; [done|].
        exact (Hothers src _ Hsr Hsrc). }
    rewrite getOperands_subst in Hin. apply in_map_iff in Hin
      as (u & Hu & Hin).
    unfold substValue in Hu. case_bool_decide as Hur.
    + apply lookupOp_lt in Hsrc. lia.
    + subst u. by apply Hnot.
Qed.

Lemma FoldUnPaddingCollapseIntoExtract_leaves_extract_dead_witness :
  exists resultType src reassociation,
    lookupOp collapseOfExtract 2%nat
    = Some (CollapseShapeOp resultType src reassociation) /\
    countUses collapseOfExtract src = 1%nat /\
    live (programAfter (FoldUnPaddingCollapseIntoExtract 2%nat)
            collapseOfExtract) src /\
    countUses (programAfter (FoldUnPaddingCollapseIntoExtract 2%nat)
                 collapseOfExtract) src = 0%nat.
Proof.
  apply (FoldUnPaddingCollapseIntoExtract_leaves_extract_dead 2%nat
           collapseOfExtract).
  reflexivity.
Defined.

(** ** The bubble-up pattern on valid reshapes of any shape *)

Lemma getStatic_sizesBlock sizes os p :
  getStatic (sizesBlock sizes os p)
  = shapeBlock (getStatic sizes) (getStatic os) p.
Proof.
  unfold sizesBlock, shapeBlock, getStatic.
  case_bool_decide; by rewrite <- firstn_map, <- skipn_map.
Qed.

Lemma getStatic_sizesBlocks sizes os ps :
  getStatic (concat (map (sizesBlock sizes os) ps))
  = concat (map (shapeBlock (getStatic sizes) (getStatic os)) ps).
Proof.
  induction ps as [|p ps IH]; simpl; [done|].
  unfold getStatic in *. by rewrite map_app, IH, <- getStatic_sizesBlock.
Qed.

Lemma getStatic_subst old new l :
  getStatic (map (substOFR old new) l) = getStatic l.
Proof.
  unfold getStatic. rewrite map_map. apply map_ext. by intros [z|v].
Qed.

(** The bubble-up pattern on well-formed reshapes with at least one
    group: what a successful application builds. *)
Lemma BubbleUp_valid_result
    (ir ir' : IR) (root : Value) (rt : RankedTensorType) (src : Value)
    (es : list ReassociationIndices) (os : list OpFoldResult)
    (ct : RankedTensorType) (x : Value) (cs : list ReassociationIndices)
    (xop : Operation) :
  lookupOp ir root = Some (ExpandShapeOp rt src es os) ->
  lookupOp ir src = Some (CollapseShapeOp ct x cs) ->
  lookupOp ir x = Some xop ->
  getStatic os = getShape rt ->
  es <> [] ->
  reshapeValid (getShape rt) (getShape ct) es = true ->
  reshapeValid (getShape (opResultType xop)) (getShape ct) cs = true ->
  BubbleUpExpandThroughParallelCollapse root ir = Some (success, ir') ->
  exists dims shape newE newC newSizes,
    Forall (fun o => exists j, o = Some (DimOp x j)) dims /\
    getStatic newSizes = shape /\
    reshapeValid shape (getShape (opResultType xop)) newE = true /\
    reshapeValid shape (getShape rt) newC = true /\
    replaceOp root (S (length (ir ++ dims)))
      ((ir ++ dims) ++
       [Some (ExpandShapeOp (clone rt shape) x newE newSizes);
        Some (CollapseShapeOp rt (length (ir ++ dims)) newC)])
    = Some (tt, ir').
Proof.
  intros Hroot Hsrc Hx Hos Hne V1 V2 Hrun.
  apply BubbleUp_success_inv in Hrun
    as (rt0 & src0 & es0 & os0 & ct0 & x0 & cs0 & xop0 & sizes & dims & crt
        & Hroot0 & Hsrc0 & Hx0 & Hlen & Hpar & Hstat & _ & Hdims & _ & HR
        & Hinfer & Hrep).
  rewrite Hroot in Hroot0. injection Hroot0 as <- <- <- <-.
  rewrite Hsrc in Hsrc0. injection Hsrc0 as <- <- <-.
  rewrite Hx in Hx0. injection Hx0 as <-.
  cbv zeta in HR, Hinfer, Hrep.
  set (xs := getShape (opResultType xop)) in *.
  set (rs := getShape rt) in *.
  set (ps := positions 0 0 0 (zip cs es)) in *.
  set (newSizes := concat (map (sizesBlock sizes os) ps)) in *.
  set (shape := concat (map (shapeBlock xs rs) ps)).
  assert (getStatic newSizes = shape) as Hshape.
  { unfold newSizes. by rewrite getStatic_sizesBlocks, Hstat, Hos. }
  apply reshapeValid_nonempty in V1 as [Hcover_e Hshape_e]; [|done].
  assert (cs <> []) as Hne_c.
  { intros ->. destruct es; [done | discriminate]. }
  apply reshapeValid_nonempty in V2 as [Hcover_c Hshape_c]; [|done].
  pose proof (cover_sum _ _ Hcover_e) as Hsum_e.
  pose proof (cover_sum _ _ Hcover_c) as Hsum_c.
  destruct (bubble_shapes xs rs cs es 0 0 0 (getShape ct) [] [])
    as [Hnew_e Hnew_c]; try done; try lia.
  { by rewrite Hsum_c. }
  { by rewrite Hsum_e. }
  cbv zeta in Hnew_e, Hnew_c. fold ps in Hnew_e, Hnew_c.
  fold shape in Hnew_e, Hnew_c. simpl in Hnew_e, Hnew_c.
  rewrite app_nil_r, Hsum_c, drop_0, firstn_all in Hnew_e.
  rewrite app_nil_r, Hsum_e, drop_0, firstn_all in Hnew_c.
  assert (length shape = totalWidth (zip cs es)) as Hlen_s.
  { rewrite <- Hshape, getStatic_length. unfold newSizes.
    rewrite positions_sizes_length by exact HR. apply positions_widths. }
  assert (crt = rt) as ->.
  { rewrite Hshape in Hinfer. unfold inferCollapsedType in Hinfer.
    simpl in Hinfer. rewrite Hnew_c in Hinfer. simpl in Hinfer.
    injection Hinfer as <-. by apply clone_same. }
  rewrite Hshape in Hrep.
  exists dims, shape, (concat (map expandBlock ps)),
    (concat (map collapseBlock ps)), newSizes.
  split; [exact Hdims|]. split; [exact Hshape|]. split; [|split].
  - apply reshapeValid_cover; [|done].
    rewrite Hlen_s. apply positions_expand_cover.
  - apply reshapeValid_cover; [|done].
    rewrite Hlen_s. apply positions_collapse_cover.
  - exact Hrep.
Qed.



(** ** The bubble-up pattern on the operations it created *)

Lemma BubbleUp_other_root ir v op :
  lookupOp ir v = Some op -> isExpandShape op = false ->
  BubbleUpExpandThroughParallelCollapse v ir = Some (failure None, ir).
Proof.
  intros Hv Hop. unfold BubbleUpExpandThroughParallelCollapse, bind.
  rewrite (getOp_run _ _ _ Hv). by destruct op.
Qed.

Lemma BubbleUp_other_producer ir v resultType src reassociation outputShape
    producer :
  lookupOp ir v
  = Some (ExpandShapeOp resultType src reassociation outputShape) ->
  lookupOp ir src = Some producer -> isCollapseShape producer = false ->
  BubbleUpExpandThroughParallelCollapse v ir = Some (failure None, ir).
Proof.
  intros Hv Hsrc Hop. unfold BubbleUpExpandThroughParallelCollapse, bind.
  rewrite (getOp_run _ _ _ Hv), (getOp_run _ _ _ Hsrc). by destruct producer.
Qed.

(** X9.  The bubble-up pattern does not match the operations it just
    created.  After a success the last two operations of the program are
    the new expand and the new collapse; run on the new collapse the
    pattern reports no-match (the root is not an expand), and run on the
    new expand it reports no-match whenever the source of the matched
    collapse is not itself produced by a collapse (and is not the root,
    as in any program whose operations follow their operands).  Both
    runs leave the program as it is. *)
Theorem BubbleUp_consumed
    (ir ir' : IR) (root : Value) (rt : RankedTensorType) (src : Value)
    (es : list ReassociationIndices) (os : list OpFoldResult)
    (ct : RankedTensorType) (x : Value) (cs : list ReassociationIndices)
    (xop : Operation) :
  lookupOp ir root = Some (ExpandShapeOp rt src es os) ->
  lookupOp ir src = Some (CollapseShapeOp ct x cs) ->
  lookupOp ir x = Some xop ->
  isCollapseShape xop = false ->
  x <> root ->
  BubbleUpExpandThroughParallelCollapse root ir = Some (success, ir') ->
  (isExpandShape <$> lookupOp ir' (length ir' - 2) = Some true) /\
  (isCollapseShape <$> lookupOp ir' (length ir' - 1) = Some true) /\
  BubbleUpExpandThroughParallelCollapse (length ir' - 2) ir'
  = Some (failure None, ir') /\
  BubbleUpExpandThroughParallelCollapse (length ir' - 1) ir'
  = Some (failure None, ir').
Proof.
  intros Hroot Hsrc Hx Hkind Hxr Hrun.
  apply BubbleUp_success_inv in Hrun
    as (rt0 & src0 & es0 & os0 & ct0 & x0 & cs0 & xop0 & sizes & dims & crt
        & Hroot0 & Hsrc0 & Hx0 & _ & _ & _ & _ & _ & _ & _ & _ & Hrep).
  rewrite Hroot in Hroot0. injection Hroot0 as <- <- <- <-.
  rewrite Hsrc in Hsrc0. injection Hsrc0 as <- <- <-.
  rewrite Hx in Hx0. injection Hx0 as <-.
  cbv zeta in Hrep.
  pose proof (replaceOp_length _ _ _ _ Hrep) as Hlen'.
  rewrite length_app in Hlen'. simpl in Hlen'.
  pose proof (lookupOp_lt _ _ _ Hroot) as Hlt.
  assert (length ir <= length (ir ++ dims))%nat as Hle
    by (rewrite length_app; lia).
  replace (length ir' - 1)%nat with (S (length (ir ++ dims))) by lia.
  replace (length ir' - 2)%nat with (length (ir ++ dims)) by lia.
  assert (lookupOp ir' x
          = Some (substOperands root (S (length (ir ++ dims))) xop)) as Hx'.
  { rewrite (lookupOp_replaceOp _ _ _ _ _ Hrep) by done.
    rewrite <- app_assoc. by rewrite (lookupOp_app_old _ _ _ _ Hx). }
  pose proof (lookupOp_replaceOp _ _ _ _ (length (ir ++ dims)) Hrep
                ltac:(lia)) as HE.
  pose proof (lookupOp_replaceOp _ _ _ _ (S (length (ir ++ dims))) Hrep
                ltac:(lia)) as HC.
  rewrite lookupOp_app_first in HE. rewrite lookupOp_app_second in HC.
  simpl in HE, HC.
  assert (substValue root (S (length (ir ++ dims))) x = x) as Hsx.
  { unfold substValue. by rewrite bool_decide_eq_false_2. }
  rewrite Hsx in HE.
  split; [by rewrite HE|]. split; [by rewrite HC|]. split.
  - eapply BubbleUp_other_producer; [exact HE | exact Hx' |].
    by rewrite (proj1 (proj2 (substOperands_kind _ _ _))).
  - eapply BubbleUp_other_root; [exact HC | done].
Qed.

Lemma BubbleUp_consumed_witness :
  let ir' := bubbledParallelCollapse in
  (isExpandShape <$> lookupOp ir' (length ir' - 2) = Some true) /\
  (isCollapseShape <$> lookupOp ir' (length ir' - 1) = Some true) /\
  BubbleUpExpandThroughParallelCollapse (length ir' - 2) ir'
  = Some (failure None, ir') /\
  BubbleUpExpandThroughParallelCollapse (length ir' - 1) ir'
  = Some (failure None, ir').
Proof.
  apply (BubbleUp_consumed expandOfParallelCollapse
           bubbledParallelCollapse 3%nat (f32 [6; kDynamic; 5]) 1%nat
           [[0]; [1; 2]] [Attr 6; Val 2%nat; Attr 5] (f32 [6; kDynamic])
           0%nat [[0; 1]; [2]] (BlockArgument (f32 [2; 3; kDynamic])));
    try reflexivity.
  discriminate.
Defined.

(** ** The folding patterns keep the slices well formed *)

Lemma opResultType_subst old new op :
  opResultType (substOperands old new op) = opResultType op.
Proof. by destruct op. Qed.

Lemma sliceInvariant_subst ir ir' old new op :
  (forall u uop, lookupOp ir u = Some uop ->
     exists uop', lookupOp ir' (substValue old new u) = Some uop' /\
                  opResultType uop' = opResultType uop) ->
  sliceInvariant ir op -> sliceInvariant ir' (substOperands old new op).
Proof.
  intros Htr. destruct op; simpl; try done.
  - intros (sop & Hs & Hred).
    destruct (Htr _ _ Hs) as (sop' & Hs' & Ht).
    exists sop'. split; [done|]. by rewrite Ht, !getStatic_subst.
  - intros (sop & dop & Hs & Hd & Hty & Hred).
    destruct (Htr _ _ Hs) as (sop' & Hs' & Hts).
    destruct (Htr _ _ Hd) as (dop' & Hd' & Htd).
    exists sop', dop'. split; [done|]. split; [done|].
    rewrite Htd, Hts, getStatic_subst. done.
Qed.

Lemma sliceInvariant_types ir ir' op :
  (forall u uop, lookupOp ir u = Some uop ->
     exists uop', lookupOp ir' u = Some uop' /\
                  opResultType uop' = opResultType uop) ->
  sliceInvariant ir op -> sliceInvariant ir' op.
Proof.
  intros Htr. destruct op; simpl; try done.
  - intros (sop & Hs & Hred).
    destruct (Htr _ _ Hs) as (sop' & Hs' & Ht).
    exists sop'. split; [done|]. by rewrite Ht.
  - intros (sop & dop & Hs & Hd & Hty & Hred).
    destruct (Htr _ _ Hs) as (sop' & Hs' & Hts).
    destruct (Htr _ _ Hd) as (dop' & Hd' & Htd).
    exists sop', dop'. split; [done|]. split; [done|].
    by rewrite Htd, Hts.
Qed.

Lemma slicesVerified_replace_new ir ir' root rop newop :
  slicesVerified ir ->
  lookupOp ir root = Some rop ->
  opResultType newop = opResultType rop ->
  sliceInvariant ir newop ->
  replaceOp root (length ir) (ir ++ [Some newop]) = Some (tt, ir') ->
  slicesVerified ir'.
Proof.
  intros Hver Hroot Hty Hnew Hrep.
  assert (forall u uop, lookupOp ir u = Some uop ->
            exists uop', lookupOp ir' (substValue root (length ir) u)
                         = Some uop' /\
                         opResultType uop' = opResultType uop) as Htr.
  { intros u uop Hu. unfold substValue. case_bool_decide as Hur.
    - subst u. rewrite Hroot in Hu. injection Hu as <-.
      rewrite (lookupOp_replaceOp_new _ _ _ _ ltac:(by rewrite Hroot) Hrep).
      eexists. split; [done|]. by rewrite opResultType_subst.
    - rewrite (lookupOp_replaceOp_old _ _ _ _ _ _ _ Hrep Hur Hu).
      eexists. split; [done|]. by rewrite opResultType_subst. }
  intros v op' Hv.
  destruct (decide (v = root)) as [->|Hvr].
  { rewrite (lookupOp_replaceOp_root _ _ _ _ Hrep) in Hv. discriminate. }
  rewrite (lookupOp_replaceOp _ _ _ _ _ Hrep) in Hv by done.
  destruct (lookupOp (ir ++ _) v) as [op|] eqn:Hop; [|discriminate].
  injection Hv as <-. apply (sliceInvariant_subst ir); [exact Htr|].
  destruct (decide (v < length ir)%nat) as [Hlt|Hge].
  - unfold lookupOp in Hop. rewrite lookup_app_l in Hop by done.
    by apply (Hver v).
  - assert (v = length ir) as ->.
    { apply lookupOp_lt in Hop. rewrite length_app in Hop.
      simpl in Hop. lia. }
    rewrite lookupOp_app_new in Hop. by injection Hop as <-.
Qed.

(** X10.  The folding patterns keep every slice operation well formed:
    if each extract of the program has the non-reducing slice type or a
    rank reduction of it, and each insert has its destination's type
    and a source that is the addressed region or a rank reduction of it,
    the same holds after a successful application.  The slice a pattern
    creates is well formed because rank reductions compose (patterns
    4.2 and 4.4) or because the pattern asked for the exact type
    (patterns 4.1 and 4.3); the other slices see no type change. *)
Theorem folding_patterns_preserve_slicesVerified
    (p : Pattern) (root : Value) (ir ir' : IR) :
  In p (populateReassociativeReshapeFoldingPatterns []) ->
  slicesVerified ir ->
  matchAndRewrite p root ir = Some (success, ir') ->
  slicesVerified ir'.
Proof.
  intros Hp Hver Hrun. destruct p as [| |OpTy|OpTy|]; simpl in Hrun.
  - apply FoldExpandOfRankReducingExtract_success in Hrun
      as (rt & src & re & os & et & source & o & sz & st & sop
          & Hroot & Hsrc & Hsource & Hinf & Hrep).
    refine (slicesVerified_replace_new _ _ _ _ _ Hver Hroot _ _ Hrep);
      [done|].
    simpl. exists sop. split; [done|].
    rewrite Hinf. apply isRankReducedType_refl.
  - apply FoldUnPaddingCollapseIntoExtract_success in Hrun
      as (rt & src & re & et & source & o & sz & st
          & Hroot & Hsrc & _ & Hred & Hrep).
    refine (slicesVerified_replace_new _ _ _ _ _ Hver Hroot _ _ Hrep);
      [done|].
    destruct (Hver _ _ Hsrc) as (sop & Hsource & Hold). simpl.
    exists sop. split; [done|]. by eapply isRankReducedType_trans.
  - apply FoldInsertOfRankReducingInsert_success in Hrun
      as (rt & source & dest & o & sz & st & ct & csrc & re & csop & dop
          & Hroot & Hsrc & Hcsrc & Hdest & Heq & Hrep).
    destruct (Hver _ _ Hroot) as (sop0 & dop0 & _ & Hdest0 & Hty & _).
    rewrite Hdest in Hdest0. injection Hdest0 as <-.
    refine (slicesVerified_replace_new _ _ _ _ _ Hver Hroot _ _ Hrep);
      [by simpl|].
    simpl. exists csop, dop. split; [done|]. split; [done|].
    split; [done|]. rewrite Heq. apply isRankReducedType_refl.
  - apply FoldPaddingExpandIntoInsert_success in Hrun
      as (rt & source & dest & o & sz & st & et & esrc & re & os & esop
          & Hroot & Hsrc & Hesrc & Hred & ->).
    pose proof (lookupOp_lt _ _ _ Hroot) as Hlt.
    set (newop := InsertOp OpTy rt esrc dest o sz st).
    assert (forall u uop, lookupOp ir u = Some uop ->
              exists uop', lookupOp (<[root := Some newop]> ir) u
                           = Some uop' /\
                           opResultType uop' = opResultType uop) as Htr.
    { intros u uop Hu. destruct (decide (u = root)) as [->|Hur].
      - rewrite lookupOp_insert_eq by done. eexists. split; [done|].
        rewrite Hroot in Hu. by injection Hu as <-.
      - exists uop. split; [|done]. unfold lookupOp in *.
        by rewrite list_lookup_insert_ne. }
    intros v op Hv. apply (sliceInvariant_types ir); [exact Htr|].
    destruct (decide (v = root)) as [->|Hvr].
    + rewrite lookupOp_insert_eq in Hv by done. injection Hv as <-.
      destruct (Hver _ _ Hroot) as (sop0 & dop0 & Hs0 & Hd0 & Hty & Hold).
      rewrite Hsrc in Hs0. injection Hs0 as <-. simpl in Hold.
      simpl. exists esop, dop0. split; [done|]. split; [done|].
      split; [done|]. by eapply isRankReducedType_trans.
    + unfold lookupOp in Hv. rewrite list_lookup_insert_ne in Hv by done.
      by apply (Hver v).
  - simpl in Hp. intuition discriminate.
Qed.

Lemma collapseOfExtract_slicesVerified : slicesVerified collapseOfExtract.
Proof.
  intros v op H. unfold collapseOfExtract in H.
  destruct v as [|[|[|[|v]]]]; simpl in H; try discriminate;
    injection H as <-; simpl; try done.
  eexists. split; reflexivity.
Qed.

Lemma folding_patterns_preserve_slicesVerified_witness :
  slicesVerified
    (programAfter (FoldUnPaddingCollapseIntoExtract 2%nat) collapseOfExtract).
Proof.
  apply (folding_patterns_preserve_slicesVerified
           PFoldUnPaddingCollapseIntoExtract 2%nat collapseOfExtract).
  - simpl. auto.
  - apply collapseOfExtract_slicesVerified.
  - reflexivity.
Defined.

(** ** Which failure carries a reason, and which pattern fires *)

(** X11.  Only two failures of the file carry a reason.  A no-match
    with a reason comes either from the collapse-into-extract pattern,
    with "expected unpadding collapse", on a collapse of a slice used
    once whose type does not rank-reduce to the collapse's result type;
    or from the expand-into-insert pattern, with "expected rank
    increasing expansion", on an insert of the pattern's kind whose
    source is an expand whose result type does not rank-reduce to the
    type of the expand's source.  The other three patterns never give a
    reason. *)
Theorem failure_reasons
    (p : Pattern) (root : Value) (ir ir' : IR) (msg : string) :
  matchAndRewrite p root ir = Some (failure (Some msg), ir') ->
  (p = PFoldUnPaddingCollapseIntoExtract /\
   msg = "expected unpadding collapse"%string /\
   exists resultType src reassociation extractType source offsets sizes
          strides,
     lookupOp ir root = Some (CollapseShapeOp resultType src reassociation) /\
     lookupOp ir src
     = Some (ExtractSliceOp extractType source offsets sizes strides) /\
     countUses ir src = 1%nat /\
     isRankReducedType extractType resultType <> Success) \/
  (exists OpTy, p = PFoldPaddingExpandIntoInsert OpTy /\
   msg = "expected rank increasing expansion"%string /\
   exists resultType source dest offsets sizes strides expandType expandSrc
          reassociation outputShape expandSrcOp,
     lookupOp ir root
     = Some (InsertOp OpTy resultType source dest offsets sizes strides) /\
     lookupOp ir source
     = Some (ExpandShapeOp expandType expandSrc reassociation outputShape) /\
     lookupOp ir expandSrc = Some expandSrcOp /\
     isRankReducedType expandType (opResultType expandSrcOp) <> Success).
Proof.
  destruct p as [| |OpTy|OpTy|]; simpl;
    [ unfold FoldExpandOfRankReducingExtract
    | unfold FoldUnPaddingCollapseIntoExtract
    | unfold FoldInsertOfRankReducingInsert
    | unfold FoldPaddingExpandIntoInsert
    | unfold BubbleUpExpandThroughParallelCollapse ];
    intros H; rw_inv; try discriminate.
  - left. split; [done|]. split; [done|].
    match goal with
    | Hroot : lookupOp _ root = Some (CollapseShapeOp ?rt ?src ?re),
      Hsrc : lookupOp _ ?src = Some (ExtractSliceOp ?et ?s ?o ?sz ?st),
      Hone : negb (bool_decide (countUses _ ?src = 1%nat)) = false,
      Hred : bool_decide (isRankReducedType ?et ?rt <> Success) = true |- _ =>
        exists rt, src, re, et, s, o, sz, st;
        apply negb_false_iff, bool_decide_eq_true in Hone;
        apply bool_decide_eq_true in Hred; auto
    end.
  - right. exists OpTy. split; [done|]. split; [done|].
    match goal with
    | Hroot : lookupOp _ root = Some (InsertOp ?k ?rt ?s ?d ?o ?sz ?st),
      Hkind : bool_decide (?k <> OpTy) = false,
      Hsrc : lookupOp _ ?s = Some (ExpandShapeOp ?et ?es ?re ?os),
      Hesrc : lookupOp _ ?es = Some ?esop,
      Hred : bool_decide (isRankReducedType ?et _ <> Success) = true |- _ =>
        exists rt, s, d, o, sz, st, et, es, re, os, esop;
        apply bool_decide_eq_false in Hkind;
        assert (k = OpTy) as <- by (destruct (decide (k = OpTy)); tauto);
        apply bool_decide_eq_true in Hred; auto
    end.
Qed.

Lemma failure_reasons_witness :
  (PFoldUnPaddingCollapseIntoExtract = PFoldUnPaddingCollapseIntoExtract /\
   "expected unpadding collapse"%string
   = "expected unpadding collapse"%string /\
   exists resultType src reassociation extractType source offsets sizes
          strides,
     lookupOp mergingCollapseOfExtract 2%nat
     = Some (CollapseShapeOp resultType src reassociation) /\
     lookupOp mergingCollapseOfExtract src
     = Some (ExtractSliceOp extractType source offsets sizes strides) /\
     countUses mergingCollapseOfExtract src = 1%nat /\
     isRankReducedType extractType resultType <> Success) \/
  (exists OpTy,
   PFoldUnPaddingCollapseIntoExtract = PFoldPaddingExpandIntoInsert OpTy /\
   "expected unpadding collapse"%string
   = "expected rank increasing expansion"%string /\
   exists resultType source dest offsets sizes strides expandType expandSrc
          reassociation outputShape expandSrcOp,
     lookupOp mergingCollapseOfExtract 2%nat
     = Some (InsertOp OpTy resultType source dest offsets sizes strides) /\
     lookupOp mergingCollapseOfExtract source
     = Some (ExpandShapeOp expandType expandSrc reassociation outputShape) /\
     lookupOp mergingCollapseOfExtract expandSrc = Some expandSrcOp /\
     isRankReducedType expandType (opResultType expandSrcOp) <> Success).
Proof.
  apply (failure_reasons PFoldUnPaddingCollapseIntoExtract 2%nat
           mergingCollapseOfExtract mergingCollapseOfExtract).
  reflexivity.
Defined.

Ltac success_inv H :=
  lazymatch type of H with
  | FoldExpandOfRankReducingExtract _ _ = _ =>
      apply FoldExpandOfRankReducingExtract_success in H
        as (? & ? & ? & ? & ? & ? & ? & ? & ? & ? & ? & ? & _)
  | FoldUnPaddingCollapseIntoExtract _ _ = _ =>
      apply FoldUnPaddingCollapseIntoExtract_success in H
        as (? & ? & ? & ? & ? & ? & ? & ? & ? & ? & _)
  | FoldInsertOfRankReducingInsert _ _ _ = _ =>
      apply FoldInsertOfRankReducingInsert_success in H
        as (? & ? & ? & ? & ? & ? & ? & ? & ? & ? & ? & ? & ? & _)
  | FoldPaddingExpandIntoInsert _ _ _ = _ =>
      apply FoldPaddingExpandIntoInsert_success in H
        as (? & ? & ? & ? & ? & ? & ? & ? & ? & ? & ? & ? & ? & _)
  | BubbleUpExpandThroughParallelCollapse _ _ = _ =>
      apply BubbleUp_success_inv in H
        as (? & ? & ? & ? & ? & ? & ? & ? & ? & ? & ? & ? & ? & _)
  end.

Ltac same_lookup :=
  repeat match goal with
    | H1 : lookupOp ?ir ?v = Some _, H2 : lookupOp ?ir ?v = Some _ |- _ =>
        rewrite H1 in H2;
        first [discriminate H2 | injection H2; intros; subst; clear H2]
    end.

(** X12.  At most one pattern of the file matches a given root: the
    patterns are told apart by the kind of the root (expand, collapse,
    insert of either kind) and the kind of the operation producing its
    source (slice, collapse, expand), and no two patterns ask for the
    same pair.  So the result of applying the registered patterns to an
    operation does not depend on the order in which they are tried. *)
Theorem patterns_mutually_exclusive
    (p q : Pattern) (root : Value) (ir ir1 ir2 : IR) :
  matchAndRewrite p root ir = Some (success, ir1) ->
  matchAndRewrite q root ir = Some (success, ir2) ->
  p = q /\ ir1 = ir2.
Proof.
  intros Hp Hq.
  assert (p = q) as ->.
  { destruct p, q; simpl in Hp, Hq; try reflexivity;
      success_inv Hp; success_inv Hq; same_lookup; reflexivity. }
  split; [reflexivity|]. rewrite Hp in Hq. by injection Hq.
Qed.

Lemma patterns_mutually_exclusive_witness :
  PFoldInsertOfRankReducingInsert InsertSliceOp
  = PFoldInsertOfRankReducingInsert InsertSliceOp /\
  programAfter (FoldInsertOfRankReducingInsert InsertSliceOp 3%nat)
    (insertOfCollapse InsertSliceOp)
  = programAfter (FoldInsertOfRankReducingInsert InsertSliceOp 3%nat)
      (insertOfCollapse InsertSliceOp).
Proof.
  apply (patterns_mutually_exclusive
           (PFoldInsertOfRankReducingInsert InsertSliceOp)
           (PFoldInsertOfRankReducingInsert InsertSliceOp) 3%nat
           (insertOfCollapse InsertSliceOp)); reflexivity.
Defined.

(** ** The producer a pattern looks through *)

Lemma countUses_self (ir : IR) (user v : Value) (uop : Operation) :
  lookupOp ir user = Some uop ->
  (length (filter (fun u => u = v) (getOperands uop)) <= countUses ir v)%nat.
Proof.
  revert user. induction ir as [|o ir IH]; intros user Huser; [done|].
  rewrite countUses_cons. destruct user as [|user].
  - unfold lookupOp in Huser. simpl in Huser. subst o. lia.
  - assert (lookupOp ir user = Some uop) as Huser' by exact Huser.
    specialize (IH user Huser'). lia.
Qed.

Lemma single_use_tail (ir : IR) (user v : Value) (uop : Operation)
    (rest : list Value) :
  lookupOp ir user = Some uop -> countUses ir v = 1%nat ->
  getOperands uop = v :: rest -> ~ In v rest.
Proof.
  intros Huser Hone Hops Hin.
  pose proof (countUses_self ir user v uop Huser) as Hle.
  rewrite Hops, filter_cons_True in Hle by done. simpl in Hle.
  pose proof (filter_eq_present _ _ Hin). lia.
Qed.

Lemma dead_after_replaceOp ir ir' root new extra v :
  replaceOp root new (ir ++ extra) = Some (tt, ir') ->
  new <> v ->
  (forall w op, w <> root -> lookupOp ir w = Some op ->
                ~ In v (getOperands op)) ->
  Forall (fun o => forall op, o = Some op -> ~ In v (getOperands op)) extra ->
  countUses ir' v = 0%nat.
Proof.
  intros Hrep Hnew Hold Hextra. apply countUses_zero. intros w op' Hw Hin.
  destruct (decide (w = root)) as [->|Hwr].
  { rewrite (lookupOp_replaceOp_root _ _ _ _ Hrep) in Hw. discriminate. }
  rewrite (lookupOp_replaceOp _ _ _ _ _ Hrep) in Hw by done.
  destruct (lookupOp (ir ++ extra) w) as [op|] eqn:Hop; [|discriminate].
  injection Hw as <-.
  assert (~ In v (getOperands op)) as Hnot.
  { unfold lookupOp in Hop.
    destruct (decide (w < length ir)%nat) as [Hlt|Hge].
    - rewrite lookup_app_l in Hop by done. by apply (Hold w).
    - rewrite lookup_app_r in Hop by lia.
      destruct (extra !! (w - length ir)%nat) as [o|] eqn:Ho;
        [|discriminate].
      simpl in Hop. subst o.
      rewrite Forall_lookup in Hextra. by apply (Hextra _ _ Ho). }
  rewrite getOperands_subst in Hin.
  apply in_map_iff in Hin as (u & Hu & Hin).
  unfold substValue in Hu. case_bool_decide; [done|]. subst u. by apply Hnot.
Qed.

Lemma not_In_Forall (v : Value) (l : list Value) :
  ~ In v l <-> Forall (fun u => u <> v) l.
Proof.
  rewrite Forall_forall. split.
  - intros Hnot u Hu ->. by apply Hnot, list_elem_of_In.
  - intros Hall Hin. apply list_elem_of_In in Hin. by apply (Hall v).
Qed.

(** X13.  A producer used only by the root is dead after a success.
    For each of the five patterns: if the operation the pattern looks
    through (the slice, collapse or expand feeding the root) has the
    root as its only use, then after a successful application it is
    still in the program and nothing uses it.  None of the operations a
    pattern creates, and not the insert modified in place, reads the
    producer; they read the producer's own source. *)
Theorem single_use_producer_dead
    (p : Pattern) (root : Value) (ir ir' : IR) (rootOp : Operation)
    (src : Value) :
  matchAndRewrite p root ir = Some (success, ir') ->
  lookupOp ir root = Some rootOp ->
  matchedSource rootOp = Some src ->
  countUses ir src = 1%nat ->
  live ir' src /\ countUses ir' src = 0%nat.
Proof.
  intros Hrun Hroot Hms Hone.
  assert (exists rest, getOperands rootOp = src :: rest) as [rest Hops].
  { destruct rootOp; simpl in Hms; try discriminate;
      injection Hms as ->; simpl; eauto. }
  assert (In src (getOperands rootOp)) as Huse by (rewrite Hops; by left).
  pose proof (countUses_one_other _ _ _ _ Hroot Huse Hone) as Hothers.
  pose proof (single_use_tail _ _ _ _ _ Hroot Hone Hops) as Htail.
  pose proof (lookupOp_lt _ _ _ Hroot) as Hlt.
  destruct p as [| |OpTy|OpTy|]; simpl in Hrun.
  - apply FoldExpandOfRankReducingExtract_success in Hrun
      as (rt & src0 & re & os & et & source & o & sz & st & sop
          & Hroot0 & Hsrc & _ & _ & Hrep).
    rewrite Hroot in Hroot0. injection Hroot0 as ->.
    simpl in Hms. injection Hms as ->.
    assert (src <> root) as Hsr by (intros ->; congruence).
    split.
    + unfold live.
      rewrite (lookupOp_replaceOp_old _ _ _ _ _ _ _ Hrep Hsr Hsrc).
      by eexists.
    + eapply dead_after_replaceOp; [exact Hrep | | exact Hothers |].
      * apply lookupOp_lt in Hsrc. lia.
      * repeat constructor. intros op [= <-].
        exact (Hothers src _ Hsr Hsrc).
  - apply FoldUnPaddingCollapseIntoExtract_success in Hrun
      as (rt & src0 & re & et & source & o & sz & st
          & Hroot0 & Hsrc & _ & _ & Hrep).
    rewrite Hroot in Hroot0. injection Hroot0 as ->.
    simpl in Hms. injection Hms as ->.
    assert (src <> root) as Hsr by (intros ->; congruence).
    split.
    + unfold live.
      rewrite (lookupOp_replaceOp_old _ _ _ _ _ _ _ Hrep Hsr Hsrc).
      by eexists.
    + eapply dead_after_replaceOp; [exact Hrep | | exact Hothers |].
      * apply lookupOp_lt in Hsrc. lia.
      * repeat constructor. intros op [= <-].
        exact (Hothers src _ Hsr Hsrc).
  - apply FoldInsertOfRankReducingInsert_success in Hrun
      as (rt & source & dest & o & sz & st & ct & csrc & re & csop & dop
          & Hroot0 & Hsrc & _ & _ & _ & Hrep).
    rewrite Hroot in Hroot0. injection Hroot0 as ->.
    simpl in Hms. injection Hms as ->.
    simpl in Hops. injection Hops as <-.
    assert (src <> root) as Hsr by (intros ->; congruence).
    split.
    + unfold live.
      rewrite (lookupOp_replaceOp_old _ _ _ _ _ _ _ Hrep Hsr Hsrc).
      by eexists.
    + eapply dead_after_replaceOp; [exact Hrep | | exact Hothers |].
      * apply lookupOp_lt in Hsrc. lia.
      * repeat constructor. intros op [= <-]. simpl. intros [Hc|Hin].
        -- apply (Hothers src _ Hsr Hsrc). simpl. auto.
        -- by apply Htail.
  - apply FoldPaddingExpandIntoInsert_success in Hrun
      as (rt & source & dest & o & sz & st & et & esrc & re & os & esop
          & Hroot0 & Hsrc & _ & _ & ->).
    rewrite Hroot in Hroot0. injection Hroot0 as ->.
    simpl in Hms. injection Hms as ->.
    simpl in Hops. injection Hops as <-.
    assert (src <> root) as Hsr by (intros ->; congruence).
    split.
    + unfold live, lookupOp. rewrite list_lookup_insert_ne by done.
      fold (lookupOp ir src). rewrite Hsrc. by eexists.
    + apply countUses_zero. intros w op Hw.
      destruct (decide (w = root)) as [->|Hwr].
      * rewrite lookupOp_insert_eq in Hw by done. injection Hw as <-.
        simpl. intros [Hc|Hin].
        -- apply (Hothers src _ Hsr Hsrc). simpl. auto.
        -- by apply Htail.
      * unfold lookupOp in Hw. rewrite list_lookup_insert_ne in Hw by done.
        by apply (Hothers w).
  - apply BubbleUp_success_inv in Hrun
      as (rt & src0 & es & os & ct & x & cs & xop & sizes & dims & crt
          & Hroot0 & Hsrc & _ & _ & _ & _ & _ & Hdims & Hdyn & _ & _ & Hrep).
    cbv zeta in Hdyn, Hrep.
    rewrite Hroot in Hroot0. injection Hroot0 as ->.
    simpl in Hms. injection Hms as ->.
    simpl in Hops. injection Hops as <-.
    assert (src <> root) as Hsr by (intros ->; congruence).
    assert (x <> src) as Hxs.
    { intros ->. apply (Hothers src _ Hsr Hsrc). simpl. auto. }
    pose proof (lookupOp_lt _ _ _ Hsrc) as Hslt.
    rewrite <- app_assoc in Hrep.
    split.
    + unfold live.
      rewrite (lookupOp_replaceOp_old _ _ _ _ _ _ _ Hrep Hsr Hsrc).
      by eexists.
    + eapply dead_after_replaceOp; [exact Hrep | | exact Hothers |].
      * rewrite length_app. lia.
      * apply Forall_app. split.
        -- eapply Forall_impl; [exact Hdims|]. simpl.
           intros o [j ->] op [= <-]. simpl. intros [?|[]]. done.
        -- repeat constructor.
           ++ intros op [= <-]. simpl. intros [?|Hin]; [done|].
              revert Hin. apply not_In_Forall, sizesBlocks_Forall.
              ** eapply Forall_impl; [exact Hdyn|]. simpl.
                 intros u [j Hu] ->.
                 rewrite (lookupOp_app_old _ _ _ _ Hsrc) in Hu.
                 discriminate.
              ** by apply not_In_Forall.
           ++ intros op [= <-]. simpl. intros [Hc|[]].
              rewrite length_app in Hc. lia.
Qed.

Lemma single_use_producer_dead_witness :
  live (programAfter (FoldPaddingExpandIntoInsert InsertSliceOp 3%nat)
          (insertOfExpand InsertSliceOp)) 2%nat /\
  countUses (programAfter (FoldPaddingExpandIntoInsert InsertSliceOp 3%nat)
               (insertOfExpand InsertSliceOp)) 2%nat = 0%nat.
Proof.
  apply (single_use_producer_dead (PFoldPaddingExpandIntoInsert InsertSliceOp)
           3%nat (insertOfExpand InsertSliceOp) _
           (InsertOp InsertSliceOp (f32 [8; 1; 8]) 2%nat 1%nat
              (attrs [2; 0; 0]) (attrs [4; 1; 4]) (attrs [1; 1; 1])));
    reflexivity.
Defined.

(** ** The patterns keep the program well formed *)

Lemma reshapeInvariant_subst ir ir' old new op :
  (forall u uop, lookupOp ir u = Some uop ->
     exists uop', lookupOp ir' (substValue old new u) = Some uop' /\
                  opResultType uop' = opResultType uop) ->
  reshapeInvariant ir op -> reshapeInvariant ir' (substOperands old new op).
Proof.
  intros Htr. destruct op; simpl; try done.
  - intros (sop & Hs & Hv & Hos & He).
    destruct (Htr _ _ Hs) as (sop' & Hs' & Ht).
    exists sop'. split; [done|]. by rewrite Ht, getStatic_subst.
  - intros (sop & Hs & Hv & He).
    destruct (Htr _ _ Hs) as (sop' & Hs' & Ht).
    exists sop'. split; [done|]. by rewrite Ht.
Qed.

Lemma reshapeInvariant_types ir ir' op :
  (forall u uop, lookupOp ir u = Some uop ->
     exists uop', lookupOp ir' u = Some uop' /\
                  opResultType uop' = opResultType uop) ->
  reshapeInvariant ir op -> reshapeInvariant ir' op.
Proof.
  intros Htr. destruct op; simpl; try done.
  - intros (sop & Hs & Hv & Hos & He).
    destruct (Htr _ _ Hs) as (sop' & Hs' & Ht).
    exists sop'. split; [done|]. by rewrite Ht.
  - intros (sop & Hs & Hv & He).
    destruct (Htr _ _ Hs) as (sop' & Hs' & Ht).
    exists sop'. split; [done|]. by rewrite Ht.
Qed.

Lemma opInvariant_app ir extra op :
  opInvariant ir op -> opInvariant (ir ++ extra) op.
Proof.
  assert (forall u uop, lookupOp ir u = Some uop ->
            exists uop', lookupOp (ir ++ extra) u = Some uop' /\
                         opResultType uop' = opResultType uop) as Htr.
  { intros u uop Hu. exists uop. split; [|done]. by apply lookupOp_app_old. }
  intros [Hs Hr]. split.
  - by apply (sliceInvariant_types ir).
  - by apply (reshapeInvariant_types ir).
Qed.

Lemma verifiedIR_app ir op :
  verifiedIR ir -> opInvariant ir op -> verifiedIR (ir ++ [Some op]).
Proof.
  intros Hver Hop v op' Hv. apply opInvariant_app.
  destruct (decide (v < length ir)%nat) as [Hlt|Hge].
  - unfold lookupOp in Hv. rewrite lookup_app_l in Hv by done.
    by apply (Hver v).
  - assert (v = length ir) as ->.
    { apply lookupOp_lt in Hv. rewrite length_app in Hv. simpl in Hv. lia. }
    rewrite lookupOp_app_new in Hv. by injection Hv as <-.
Qed.

Lemma verifiedIR_app_dims ir x dims :
  verifiedIR ir ->
  Forall (fun o => exists j, o = Some (DimOp x j)) dims ->
  verifiedIR (ir ++ dims).
Proof.
  intros Hver Hdims. revert ir Hver.
  induction Hdims as [|o dims [j ->] _ IH]; intros ir Hver.
  - by rewrite app_nil_r.
  - change (Some (DimOp x j) :: dims) with ([Some (DimOp x j)] ++ dims).
    rewrite app_assoc. apply IH. by apply verifiedIR_app.
Qed.

Lemma verifiedIR_replaceOp ir ir' root new rootOp newOp :
  verifiedIR ir ->
  lookupOp ir root = Some rootOp ->
  lookupOp ir new = Some newOp ->
  opResultType newOp = opResultType rootOp ->
  new <> root ->
  replaceOp root new ir = Some (tt, ir') ->
  verifiedIR ir'.
Proof.
  intros Hver Hroot Hnew Hty Hne Hrep.
  assert (forall u uop, lookupOp ir u = Some uop ->
            exists uop', lookupOp ir' (substValue root new u) = Some uop' /\
                         opResultType uop' = opResultType uop) as Htr.
  { intros u uop Hu. unfold substValue. case_bool_decide as Hur.
    - subst u. rewrite Hroot in Hu. injection Hu as <-.
      rewrite (lookupOp_replaceOp _ _ _ _ _ Hrep) by done.
      rewrite Hnew. eexists. split; [done|]. by rewrite opResultType_subst.
    - rewrite (lookupOp_replaceOp _ _ _ _ _ Hrep) by done.
      rewrite Hu. eexists. split; [done|]. by rewrite opResultType_subst. }
  intros v op' Hv.
  destruct (decide (v = root)) as [->|Hvr].
  { rewrite (lookupOp_replaceOp_root _ _ _ _ Hrep) in Hv. discriminate. }
  rewrite (lookupOp_replaceOp _ _ _ _ _ Hrep) in Hv by done.
  destruct (lookupOp ir v) as [op|] eqn:Hop; [|discriminate].
  injection Hv as <-. destruct (Hver v op Hop) as [Hs Hr]. split.
  - by apply (sliceInvariant_subst ir).
  - by apply (reshapeInvariant_subst ir).
Qed.

Lemma verifiedIR_replace_new ir ir' root rootOp newOp :
  verifiedIR ir ->
  lookupOp ir root = Some rootOp ->
  opResultType newOp = opResultType rootOp ->
  opInvariant ir newOp ->
  replaceOp root (length ir) (ir ++ [Some newOp]) = Some (tt, ir') ->
  verifiedIR ir'.
Proof.
  intros Hver Hroot Hty Hnew Hrep.
  pose proof (lookupOp_lt _ _ _ Hroot) as Hlt.
  eapply (verifiedIR_replaceOp (ir ++ [Some newOp]));
    [ by apply verifiedIR_app
    | by apply lookupOp_app_old
    | apply lookupOp_app_new
    | exact Hty
    | lia
    | exact Hrep ].
Qed.

Lemma verifiedIR_insert ir root rootOp newOp :
  verifiedIR ir ->
  lookupOp ir root = Some rootOp ->
  opResultType newOp = opResultType rootOp ->
  opInvariant ir newOp ->
  verifiedIR (<[root := Some newOp]> ir).
Proof.
  intros Hver Hroot Hty Hnew.
  pose proof (lookupOp_lt _ _ _ Hroot) as Hlt.
  assert (forall u uop, lookupOp ir u = Some uop ->
            exists uop', lookupOp (<[root := Some newOp]> ir) u
                         = Some uop' /\
                         opResultType uop' = opResultType uop) as Htr.
  { intros u uop Hu. destruct (decide (u = root)) as [->|Hur].
    - rewrite lookupOp_insert_eq by done. eexists. split; [done|].
      rewrite Hroot in Hu. by injection Hu as <-.
    - exists uop. split; [|done]. unfold lookupOp in *.
      by rewrite list_lookup_insert_ne. }
  assert (forall op, opInvariant ir op ->
                     opInvariant (<[root := Some newOp]> ir) op) as Hmove.
  { intros op [Hs Hr]. split.
    - by apply (sliceInvariant_types ir).
    - by apply (reshapeInvariant_types ir). }
  intros v op Hv. apply Hmove.
  destruct (decide (v = root)) as [->|Hvr].
  - rewrite lookupOp_insert_eq in Hv by done. by injection Hv as <-.
  - unfold lookupOp in Hv. rewrite list_lookup_insert_ne in Hv by done.
    by apply (Hver v).
Qed.

(** X14.  The patterns keep the whole program well formed, with one
    exception.  If every slice and every reshape satisfies its
    invariant, the same holds after a successful application of any of
    the five patterns, provided the bubble-up pattern is not applied to
    an expand with no reassociation groups (the 0-d case).  The
    operations created are well formed, and every user of the root is
    handed a value of the type it had. *)
Theorem patterns_preserve_verifiedIR
    (p : Pattern) (root : Value) (ir ir' : IR) :
  verifiedIR ir ->
  (p = PBubbleUpExpandThroughParallelCollapse ->
   forall resultType src outputShape,
     lookupOp ir root <> Some (ExpandShapeOp resultType src [] outputShape)) ->
  matchAndRewrite p root ir = Some (success, ir') ->
  verifiedIR ir'.
Proof.
  intros Hver Hzero Hrun. destruct p as [| |OpTy|OpTy|]; simpl in Hrun.
  - apply FoldExpandOfRankReducingExtract_success in Hrun
      as (rt & src & re & os & et & source & o & sz & st & sop
          & Hroot & Hsrc & Hsource & Hinf & Hrep).
    refine (verifiedIR_replace_new _ _ _ _ _ Hver Hroot _ _ Hrep); [done|].
    split; [|done]. simpl. exists sop. split; [done|].
    rewrite Hinf. apply isRankReducedType_refl.
  - apply FoldUnPaddingCollapseIntoExtract_success in Hrun
      as (rt & src & re & et & source & o & sz & st
          & Hroot & Hsrc & _ & Hred & Hrep).
    refine (verifiedIR_replace_new _ _ _ _ _ Hver Hroot _ _ Hrep); [done|].
    destruct (Hver _ _ Hsrc) as [(sop & Hsource & Hold) _].
    split; [|done]. simpl.
    exists sop. split; [done|]. by eapply isRankReducedType_trans.
  - apply FoldInsertOfRankReducingInsert_success in Hrun
      as (rt & source & dest & o & sz & st & ct & csrc & re & csop & dop
          & Hroot & Hsrc & Hcsrc & Hdest & Heq & Hrep).
    destruct (Hver _ _ Hroot) as [(sop0 & dop0 & _ & Hdest0 & Hty & _) _].
    rewrite Hdest in Hdest0. injection Hdest0 as <-.
    refine (verifiedIR_replace_new _ _ _ _ _ Hver Hroot _ _ Hrep);
      [by simpl|].
    split; [|done]. simpl. exists csop, dop. split; [done|].
    split; [done|]. split; [done|]. rewrite Heq.
    apply isRankReducedType_refl.
  - apply FoldPaddingExpandIntoInsert_success in Hrun
      as (rt & source & dest & o & sz & st & et & esrc & re & os & esop
          & Hroot & Hsrc & Hesrc & Hred & ->).
    refine (verifiedIR_insert _ _ _ _ Hver Hroot _ _); [done|].
    destruct (Hver _ _ Hroot) as [(sop0 & dop0 & Hs0 & Hd0 & Hty & Hold) _].
    rewrite Hsrc in Hs0. injection Hs0 as <-. simpl in Hold.
    split; [|done]. simpl. exists esop, dop0. split; [done|].
    split; [done|]. split; [done|]. by eapply isRankReducedType_trans.
  - pose proof Hrun as Hinv. apply BubbleUp_success_inv in Hinv
      as (rt & src & es & os & ct & x & cs & xop & sizes & dims0 & crt
          & Hroot & Hsrc & Hx & _).
    destruct (Hver _ _ Hroot) as [_ (sop & Hsrc0 & V1 & Hos & He1)].
    rewrite Hsrc in Hsrc0. injection Hsrc0 as <-. simpl in V1, He1.
    destruct (Hver _ _ Hsrc) as [_ (xop0 & Hx0 & V2 & He2)].
    rewrite Hx in Hx0. injection Hx0 as <-.
    assert (es <> []) as Hne.
    { intros ->. by apply (Hzero eq_refl rt src os). }
    destruct (BubbleUp_valid_result _ _ _ _ _ _ _ _ _ _ _ Hroot Hsrc Hx Hos
                Hne V1 V2 Hrun)
      as (dims & shape & newE & newC & newSizes & Hdims & Hshape & VE & VC
          & Hrep).
    pose proof (lookupOp_lt _ _ _ Hroot) as Hlt.
    set (ir1 := ir ++ dims) in *.
    set (E := ExpandShapeOp (clone rt shape) x newE newSizes) in *.
    set (C := CollapseShapeOp rt (length ir1) newC) in *.
    assert (verifiedIR ir1) as Hver1
      by (eapply verifiedIR_app_dims; [exact Hver | exact Hdims]).
    assert (verifiedIR ((ir1 ++ [Some E]) ++ [Some C])) as Hver2.
    { apply verifiedIR_app; [apply verifiedIR_app; [exact Hver1|]|].
      - split; [done|]. simpl. exists xop.
        split; [by apply lookupOp_app_old|]. split; [exact VE|].
        split; [exact Hshape|]. congruence.
      - split; [done|]. simpl. exists E.
        split; [apply lookupOp_app_new|]. by split. }
    rewrite <- app_assoc in Hver2.
    eapply (verifiedIR_replaceOp _ _ root (S (length ir1)) _ C);
      [ exact Hver2
      | apply lookupOp_app_old, lookupOp_app_old; exact Hroot
      | apply lookupOp_app_second
      | done
      | unfold ir1; rewrite length_app; lia
      | exact Hrep ].
Qed.

Lemma expandOfParallelCollapse_verifiedIR :
  verifiedIR expandOfParallelCollapse.
Proof.
  intros v op H. unfold expandOfParallelCollapse in H.
  destruct v as [|[|[|[|[|v]]]]]; simpl in H; try discriminate;
    injection H as <-; split; simpl; try done;
    eexists; repeat split; reflexivity.
Qed.

Lemma patterns_preserve_verifiedIR_witness :
  verifiedIR bubbledParallelCollapse.
Proof.
  apply (patterns_preserve_verifiedIR PBubbleUpExpandThroughParallelCollapse
           3%nat expandOfParallelCollapse).
  - apply expandOfParallelCollapse_verifiedIR.
  - intros _ resultType src outputShape. discriminate.
  - vm_compute. reflexivity.
Defined.

(** The exception is needed: the 0-d sample program is well formed, and
    the program the bubble-up pattern turns it into is not (the new
    expand goes from [tensor<1x1xf32>] to [tensor<f32>]). *)
Lemma BubbleUp_rank_zero_not_verified :
  verifiedIR expandOfRankZeroCollapse /\
  ~ verifiedIR bubbledRankZeroCollapse.
Proof.
  split.
  - intros v op H. unfold expandOfRankZeroCollapse in H.
    destruct v as [|[|[|[|v]]]]; simpl in H; try discriminate;
      injection H as <-; split; simpl; try done;
      eexists; repeat split; reflexivity.
  - intros Hver.
    destruct (Hver 4%nat _ eq_refl) as [_ (sop & Hs & Hvalid & _)].
    vm_compute in Hs. injection Hs as <-. vm_compute in Hvalid.
    discriminate.
Qed.
